(** * MechanicalTurkeyz: the tag-inference engine of the zEdit patcher

    A shallow embedding of the patcher, in its most complete variant (the
    one with [importMemories] and both keyword types): the
    content-addressed memory store and its import merge, the
    normalisation of remembered answers, the automatic decision over the
    relevant answers, and the learning step that turns one human answer
    into per-hash memory updates.

    JavaScript objects used as dictionaries are finite maps ([gmap]) of
    their own properties, keyed by strings; arrays are lists, [undefined]
    is [None].  A lookup that finds no property of the object itself goes
    on to [Object.prototype]: this is modelled where the program looks up
    a name it takes from the settings, in the table of keywords
    ([keywordsAt]).  The other dictionaries are read under sha1 digests,
    under editor ids and under the names of described keywords; no
    dictionary holds the name [__proto__], to which an assignment would
    set the prototype instead of a property.  The host ([xelib], [fh],
    [dialog], the file system, the external viewer) is not part of the
    program: its observable state is collected in the record [World], and
    what it answers is an explicit argument of the functions below. *)

From stdpp Require Import base strings list gmap fin_maps.

(** ** Data model *)

(** [enum Answer { Yes = 1, No, MaybeYes, MaybeNo }] *)
Inductive Answer : Type := Yes | No | MaybeYes | MaybeNo.

#[global] Instance Answer_eq_dec : EqDecision Answer.
Proof. solve_decision. Defined.

(** [type Answered = Answer.Yes | Answer.No | undefined]: the source gives
    the normalised answers this type; here it is the option type, and
    [normalise_Answered] below shows only [Yes], [No] and [None] occur. *)
Abbreviation Answered := (option Answer).

(** [interface Memory { filenames: string[]; keywords: {[keyword]: Answer} }] *)
Record Memory : Type := mkMemory {
  filenames : list string;
  keywords : gmap string Answer
}.

(** [interface Memories { [filehash: string]: Memory | undefined }] *)
Abbreviation Memories := (gmap string Memory).

(** [enum KeywordType { Inclusive, Exclusive }] *)
Inductive KeywordType : Type := Inclusive | Exclusive.

(** [const enum BodySlot]: the members are strings, and the flags the host
    returns are strings cast to [BodySlot]. *)
Abbreviation BodySlot := string (only parsing).

Module BodySlot.
Definition Head : BodySlot := "30 - Head".
Definition Hair : BodySlot := "31 - Hair".
Definition Body : BodySlot := "32 - Body".
Definition Hands : BodySlot := "33 - Hands".
Definition Forearms : BodySlot := "34 - Forearms".
Definition Amulet : BodySlot := "35 - Amulet".
Definition Ring : BodySlot := "36 - Ring".
Definition Feet : BodySlot := "37 - Feet".
Definition Calves : BodySlot := "38 - Calves".
Definition Shield : BodySlot := "39 - Shield".
Definition Tail : BodySlot := "40 - Tail".
Definition LongHair : BodySlot := "41 - LongHair".
Definition Circlet : BodySlot := "42 - Circlet".
Definition Ears : BodySlot := "43 - Ears".
Definition FaceMouth : BodySlot := "44 - Unnamed".
Definition Neck : BodySlot := "45 - Unnamed".
Definition ChestPrimary : BodySlot := "46 - Unnamed".
Definition Back : BodySlot := "47 - Unnamed".
Definition Misc48 : BodySlot := "48 - Unnamed".
Definition PelvisPrimary : BodySlot := "49 - Unnamed".
Definition DecapitatedHead : BodySlot := "50 - DecapitateHead".
Definition Decapitate : BodySlot := "51 - Decapitate".
Definition PelvisSecondary : BodySlot := "52 - Unnamed".
Definition SoS : BodySlot := PelvisSecondary.
Definition LegPrimary : BodySlot := "53 - Unnamed".
Definition LegSecondary : BodySlot := "54 - Unnamed".
Definition FaceAlternate : BodySlot := "55 - Unnamed".
Definition ChestSecondary : BodySlot := "56 - Unnamed".
Definition Shoulder : BodySlot := "57 - Unnamed".
Definition ArmSecondary : BodySlot := "58 - Unnamed".
Definition ArmPrimary : BodySlot := "59 - Unnamed".
Definition Misc60 : BodySlot := "60 - Unnamed".
Definition FX01 : BodySlot := "61 - FX01".
End BodySlot.

(** [interface KeywordInfo] *)
Record KeywordInfo : Type := mkKeywordInfo {
  id : string;
  description : string;
  type : KeywordType;
  relevantSlots : list BodySlot;
  irrelevantSlots : list BodySlot;
  skipSlots : list BodySlot
}.

(** [const keywords: Record<string, KeywordInfo>], the table of known
    keywords.  (The field [keywords] of [Memory] keeps the plain name.) *)
Definition SOS_Revealing : KeywordInfo :=
  {| id := "SOS_Revealing";
     description := "SoS revealing keyword";
     type := Exclusive;
     relevantSlots := [BodySlot.Body];
     irrelevantSlots :=
       [BodySlot.Head; BodySlot.Hair; BodySlot.Hands; BodySlot.Forearms;
        BodySlot.LongHair; BodySlot.Circlet; BodySlot.Ears];
     skipSlots := [BodySlot.SoS] |}.

Definition knownKeywords : gmap string KeywordInfo :=
  {[ "SOS_Revealing" := SOS_Revealing ]}.

(** The table is an object literal: a lookup [keywords[keyword]] that finds
    no property of the table itself goes on to [Object.prototype].  These
    are the names found there (ECMAScript, with the legacy accessors of
    its Annex B). *)
Definition Object_prototype : list string :=
  [ "constructor"; "__defineGetter__"; "__defineSetter__"; "hasOwnProperty";
    "__lookupGetter__"; "__lookupSetter__"; "isPrototypeOf";
    "propertyIsEnumerable"; "toString"; "valueOf"; "__proto__";
    "toLocaleString" ].

(** The value of [keywords[keyword]]: the description stored under the
    name; under a name of [Object.prototype] the function or object found
    there, none of which has a field [id], [type], [relevantSlots],
    [irrelevantSlots] or [skipSlots], so that reading these gives
    [undefined]; and [undefined] under every other name. *)
Inductive TableValue : Type :=
  | Described (info : KeywordInfo)
  | Inherited
  | Undefined.

Definition keywordsAt (keywordTable : gmap string KeywordInfo)
    (keyword : string) : TableValue :=
  match keywordTable !! keyword with
  | Some info => Described info
  | None =>
      if decide (keyword ∈ Object_prototype) then Inherited else Undefined
  end.

(** ** Memory store *)

(** [new Set(l)] spread back into an array: a [Set] keeps the first
    occurrence of every element, in insertion order. *)
Definition Set_add (seen : list string) (x : string) : list string :=
  if decide (x ∈ seen) then seen else seen ++ [x].

Definition Set_spread (l : list string) : list string :=
  foldl Set_add [] l.

(** [Object.assign(target, source)]: the entries of [source] are written
    over those of [target]. *)
Definition Object_assign (target source : gmap string Answer)
  : gmap string Answer := source ∪ target.

(** The body of the loop [for (const hash in newMemories)] of
    [importMemories], for one [hash] of the imported file. *)
Definition merge_entry (hash : string) (new : Memory)
    (memories : gmap string Memory) : gmap string Memory :=
  match memories !! hash with
  | None =>
      <[hash := {| filenames := filenames new; keywords := keywords new |}]>
        memories
  | Some memory =>
      <[hash := {| filenames :=
                     Set_spread (filenames memory ++ filenames new);
                   keywords :=
                     Object_assign (keywords new) (keywords memory) |}]>
        memories
  end.

(** The whole loop: every hash of [newMemories] is visited once. *)
Definition merge (memories newMemories : gmap string Memory)
  : gmap string Memory :=
  map_fold merge_entry memories newMemories.

(** [addAnswer(keyword, hash, answer)] on [taggednifs]. *)
Definition addAnswer (keyword hash : string) (answer : Answer)
    (taggednifs : gmap string Memory) : gmap string Memory :=
  let m := default {| filenames := []; keywords := ∅ |} (taggednifs !! hash) in
  <[hash := {| filenames := filenames m;
               keywords := <[keyword := answer]> (keywords m) |}]> taggednifs.

(** [addName(hash, nif)] on [taggednifs]. *)
Definition addName (hash nif : string)
    (taggednifs : gmap string Memory) : gmap string Memory :=
  let m := default {| filenames := []; keywords := ∅ |} (taggednifs !! hash) in
  <[hash := {| filenames :=
                 if decide (nif ∈ filenames m) then filenames m
                 else filenames m ++ [nif];
               keywords := keywords m |}]> taggednifs.

(** The answer remembered for [keyword] under [hash]:
    [taggednifs[hash]?.keywords[keyword]]. *)
Definition remembered (taggednifs : gmap string Memory)
    (hash keyword : string) : option Answer :=
  taggednifs !! hash ≫= λ m, keywords m !! keyword.

(** ** The host as the program sees it *)

(** [enum Choice { 'Yes' = 0, 'Maybe Yes', 'Maybe No', 'No', 'Cancel' }],
    the button the human picked in the message box. *)
Inductive Choice : Type :=
  | Choice_Yes | Choice_MaybeYes | Choice_MaybeNo | Choice_No | Choice_Cancel.

#[global] Instance Choice_eq_dec : EqDecision Choice.
Proof. solve_decision. Defined.

(** The lines handed to [helpers.logMessage]. *)
Inductive LogMessage : Type :=
  | Checking (editorid : string)
  | ErrorOpeningNif
  | FoundNifs (editorid : string) (nifs : list string)
  | ArmaFlags (arma : string) (flags : list BodySlot)
  | OneKnownToBe (keyword : string)
  | OneKnownToNotBe (keyword : string)
  | AllKnownToBe (keyword : string).

(** What [patch] and [filter] can throw, by origin:
    [new Error('Cancelled by user')]; the [TypeError] of reading a property
    of [undefined] (destructuring [keywords[keyword]] under a name that is
    nowhere, [includes] on the slot list an inherited value does not have,
    [forEach] on a list that is not there); the [Error] of
    [invalidKeywordType], reached with the [undefined] type of an
    inherited value; and whatever the promise [viewer] is rejected with. *)
Inductive Error : Type :=
  | CancelledByUser
  | TypeError
  | InvalidKeywordType
  | ViewerError.

(** How a piece of code ends: it returns, or it is left early with [e]. *)
Inductive Outcome (E : Type) : Type :=
  | Returned
  | Thrown (e : E).

Arguments Returned {E}.
Arguments Thrown {E} e.

(** The completion of [patch] and of the callbacks of its loops. *)
Abbreviation Completion := (Outcome Error).

(** How the promise [viewer] ends: the external program
    [settings.nifViewer], started on the nifs of the record, has exited
    normally, or [execFile] reported an error (the program cannot be
    started, it exits with an error code). *)
Inductive Settled : Type := Fulfilled | Rejected.

(** An armature addon (ARMA) of the record, as [patch] reads it: its editor
    id, the value of its model path ([xelib.GetValue(arma, Model[...])],
    empty when absent) and the enabled flags of its body template. *)
Record Arma : Type := mkArma {
  arma_editorid : string;
  arma_model : string;
  arma_flags : list BodySlot
}.

(** The armor record (ARMO): its editor id and its ARMAs of the default
    race. *)
Record Armo : Type := mkArmo {
  editorid : string;
  armature : list Arma
}.

(** The state [patch] and [importMemories] act on. *)
Record World : Type := mkWorld {
  (** [locals.taggednifs], the memories held by the process *)
  taggednifs : gmap string Memory;
  (** the content of the memory file [MechanicalTurkeyz.json] *)
  memoryFile : gmap string Memory;
  (** the calls [xelib.AddKeyword(armo, keyword)], as (editor id, keyword) *)
  addedKeywords : list (string * string);
  (** the lines logged so far *)
  logged : list LogMessage
}.

Definition logMessage (m : LogMessage) (w : World) : World :=
  {| taggednifs := taggednifs w; memoryFile := memoryFile w;
     addedKeywords := addedKeywords w; logged := logged w ++ [m] |}.

Definition AddKeyword (armo keyword : string) (w : World) : World :=
  {| taggednifs := taggednifs w; memoryFile := memoryFile w;
     addedKeywords := addedKeywords w ++ [(armo, keyword)];
     logged := logged w |}.

(** A mutation of [locals.taggednifs]. *)
Definition onMemories (f : gmap string Memory → gmap string Memory)
    (w : World) : World :=
  {| taggednifs := f (taggednifs w); memoryFile := memoryFile w;
     addedKeywords := addedKeywords w; logged := logged w |}.

(** [saveMemories(taggednifs)]: the file is overwritten with the whole
    mapping. *)
Definition saveMemories (w : World) : World :=
  {| taggednifs := taggednifs w; memoryFile := taggednifs w;
     addedKeywords := addedKeywords w; logged := logged w |}.

(** [importMemories()]: [selected] is the content of the file the user
    picked, [None] when the file dialog was dismissed.  Both operands are
    read from disk ([loadMemories]); the result is saved to the memory
    file. *)
Definition importMemories (selected : option (gmap string Memory))
    (w : World) : World :=
  match selected with
  | None => w
  | Some newMemories =>
      {| taggednifs := taggednifs w;
         memoryFile := merge (memoryFile w) newMemories;
         addedKeywords := addedKeywords w; logged := logged w |}
  end.

(** [Array.prototype.forEach] with a callback that may throw: the first
    exception leaves the loop, the state changes made so far stay. *)
Fixpoint forEach {A S E : Type} (f : A → S → Outcome E * S)
    (l : list A) (s : S) : Outcome E * S :=
  match l with
  | [] => (Returned, s)
  | x :: l' =>
      match f x s with
      | (Returned, s') => forEach f l' s'
      | (Thrown e, s') => (Thrown e, s')
      end
  end.

(** [Array.prototype.every] and [Array.prototype.some]. *)
Definition every {A : Type} (p : A → bool) (l : list A) : bool := forallb p l.
Definition some {A : Type} (p : A → bool) (l : list A) : bool := existsb p l.

(** ** Decision policy *)

(** The [switch (answer)] of [patch] that handles "maybe" memories. *)
Definition normalise (redoMaybes : bool) (answer : option Answer) : Answered :=
  match answer with
  | Some MaybeYes => if redoMaybes then None else Some Yes
  | Some MaybeNo => if redoMaybes then None else Some No
  | _ => answer
  end.

(** The three ways the [switch (type)] of the automatic phase ends for a
    keyword: [return xelib.AddKeyword(armo, keyword)], a bare [return], or
    falling through to [keywordsToAsk.push(keyword)]. *)
Inductive Verdict : Type := Apply | Skip | Ask.

Definition verdict (type : KeywordType) (relevantAnswers : list Answered)
  : Verdict :=
  match type with
  | Inclusive =>
      if some (λ answer, bool_decide (answer = Some Yes)) relevantAnswers
      then Apply
      else if every (λ answer, bool_decide (answer = Some No)) relevantAnswers
      then Skip
      else Ask
  | Exclusive =>
      if every (λ answer, bool_decide (answer = Some Yes)) relevantAnswers
      then Apply
      else if some (λ answer, bool_decide (answer = Some No)) relevantAnswers
      then Skip
      else Ask
  end.

(** ** Processing one record: [patch] *)

Section Patch.

(** [settings.redoMaybes] *)
Variable redoMaybes : bool.

(** The table [keywords] of known keywords ([knownKeywords] in the
    source; the code reads it only through [keywords[keyword]]). *)
Variable keywordTable : gmap string KeywordInfo.

(** The file system under the hashing of a nif: [sha1 nif] is the hex
    digest of the file [dir + nif], and [None] when its read stream emits
    an error (the promise of that nif is rejected). *)
Variable sha1 : string → option string.

(** The human: the button picked in the [i]-th message box of the record,
    which asks about [keyword]. *)
Variable showMessageBox : nat → string → Choice.

(** The external viewer: how the promise
    [Promise.fromCallback((cb) => execFile(settings.nifViewer, nifs, ..., cb))]
    ends for the nifs it is started on. *)
Variable viewer : list string → Settled.

(** [armas.map(GetValue).filter((nif) => !!nif).map((nif) => `meshes\\${nif}`)] *)
Definition nifs_of (armas : list Arma) : list string :=
  (λ nif, "meshes\" +:+ nif) <$>
    filter (λ nif, nif ≠ "") (arma_model <$> armas).

(** [Promise.map(nifs, hash)]: fulfilled with all the digests when every
    promise is fulfilled, rejected as soon as one is rejected. *)
Definition Promise_map (nifs : list string) : option (list string) :=
  mapM sha1 nifs.

(** [.each((hash, i) => addName(hash, nifs[i]))] on the fulfilled array. *)
Definition each_addName (hashes nifs : list string)
    (t : gmap string Memory) : gmap string Memory :=
  foldl (λ t p, addName p.1 p.2 t) t (zip hashes nifs).

(** [answers[keyword]]: the normalised memories of the hashes, read from
    [taggednifs] once the names are recorded.  (Under a name of
    [Object.prototype] that a memory does not hold, the lookup finds the
    function of that name; the program only compares an answer with
    [Answer.Yes] and [Answer.No], which treat it like [undefined].) *)
Definition answers (t : gmap string Memory) (hashes : list string)
    (keyword : string) : list Answered :=
  (λ hash, normalise redoMaybes (remembered t hash keyword)) <$> hashes.

(** [flags.some((flag) => !irrelevantSlots.includes(flag))] *)
Definition isRelevant (irrelevantSlots : list BodySlot) (arma : Arma) : bool :=
  some (λ flag, bool_decide (flag ∉ irrelevantSlots)) (arma_flags arma).

(** [l.filter((_, i) => isRelevant(armas[i]))]: the entries of [l] whose
    position holds a relevant ARMA. *)
Definition relevantOnly {A : Type} (irrelevantSlots : list BodySlot)
    (armas : list Arma) (l : list A) : list A :=
  fst <$> filter (λ p, isRelevant irrelevantSlots p.2 = true) (zip l armas).

(** [relevantAnswers[keyword]] and [relevantHashes[keyword]].  Without a
    description they are empty: when the second loop gets through an
    inherited value, no ARMA it looked at had a flag, and none counted as
    relevant. *)
Definition relevantAnswers (t : gmap string Memory) (armas : list Arma)
    (hashes : list string) (keyword : string) : list Answered :=
  match keywordTable !! keyword with
  | Some info =>
      relevantOnly (irrelevantSlots info) armas (answers t hashes keyword)
  | None => []
  end.

Definition relevantHashes (armas : list Arma) (hashes : list string)
    (keyword : string) : list string :=
  match keywordTable !! keyword with
  | Some info => relevantOnly (irrelevantSlots info) armas hashes
  | None => []
  end.

(** The second loop over [keywordsToPatch]: it fills [relevantAnswers] and
    [relevantHashes] (the two functions above) and logs the flags of every
    ARMA it looks at, the first [hashes.length] ones.  Destructuring
    [undefined] throws at once.  An inherited value has no
    [irrelevantSlots]: [irrelevantSlots.includes(flag)] throws for the
    first ARMA that has a flag, once its flags are logged, and ARMAs
    without flags are passed over as irrelevant. *)
Definition relevancePass (armas : list Arma) (hashes : list string)
    (keyword : string) (w : World) : Completion * World :=
  match keywordsAt keywordTable keyword with
  | Described _ =>
      (Returned,
       foldl (λ w arma,
                logMessage (ArmaFlags (arma_editorid arma) (arma_flags arma)) w)
             w (take (length hashes) armas))
  | Inherited =>
      forEach (λ arma w,
                 (if bool_decide (arma_flags arma = []) then Returned
                  else Thrown TypeError,
                  logMessage
                    (ArmaFlags (arma_editorid arma) (arma_flags arma)) w))
              (take (length hashes) armas) w
  | Undefined => (Thrown TypeError, w)
  end.

(** The third loop over [keywordsToPatch], "try to choose tag automagically
    based on relevant past answers"; the state is the world together with
    [keywordsToAsk].  The [undefined] type of an inherited value falls to
    [default: return invalidKeywordType(type)]. *)
Definition automatic (armo : string) (relevant : string → list Answered)
    (keyword : string) (s : World * list string)
  : Completion * (World * list string) :=
  match keywordsAt keywordTable keyword with
  | Undefined => (Thrown TypeError, s)
  | Inherited => (Thrown InvalidKeywordType, s)
  | Described info =>
      match verdict (type info) (relevant keyword) with
      | Apply =>
          let line := match type info with
                      | Inclusive => OneKnownToBe keyword
                      | Exclusive => AllKnownToBe keyword
                      end in
          (Returned, (AddKeyword armo keyword (logMessage line s.1), s.2))
      | Skip => (Returned, (logMessage (OneKnownToNotBe keyword) s.1, s.2))
      | Ask => (Returned, (s.1, s.2 ++ [keyword]))
      end
  end.

(** [relevantHashes[keyword].filter((_, i) => relevantAnswers[keyword][i] !== known)] *)
Definition hhashes (known : Answer) (relHashes : list string)
    (relAnswers : list Answered) : list string :=
  fst <$> filter (λ p, p.2 ≠ Some known) (zip relHashes relAnswers).

(** [hashes.forEach((hash) => addAnswer(keyword, hash, answer))] *)
Definition addAnswer_all (keyword : string) (answer : Answer)
    (hashes : list string) (t : gmap string Memory) : gmap string Memory :=
  foldl (λ t hash, addAnswer keyword hash answer t) t hashes.

(** [if (hhashes.length === 1) addAnswer(keyword, hhashes[0], answer)] *)
Definition addAnswer_single (keyword : string) (answer : Answer)
    (hh : list string) (t : gmap string Memory) : gmap string Memory :=
  match hh with
  | [hash] => addAnswer keyword hash answer t
  | _ => t
  end.

(** The body of [choices.forEach], the "learning" from one answer. *)
Definition learn (armo : string) (hashes : list string)
    (relHashes : string → list string) (relAnswers : string → list Answered)
    (q : string * Choice) (w : World) : Completion * World :=
  let '(keyword, choice) := q in
  match keywordsAt keywordTable keyword with
  | Undefined => (Thrown TypeError, w)
  | Inherited => (Thrown InvalidKeywordType, w)
  | Described info =>
      match type info, choice with
      | Inclusive, (Choice_Yes | Choice_MaybeYes) =>
          let answer :=
            if bool_decide (choice = Choice_Yes) then Yes else MaybeYes in
          (Returned,
           onMemories (addAnswer_single keyword answer
                         (hhashes No (relHashes keyword) (relAnswers keyword)))
                      w)
      | Inclusive, (Choice_No | Choice_MaybeNo) =>
          let answer :=
            if bool_decide (choice = Choice_No) then No else MaybeNo in
          (Returned, onMemories (addAnswer_all keyword answer hashes) w)
      | Exclusive, (Choice_Yes | Choice_MaybeYes) =>
          let answer :=
            if bool_decide (choice = Choice_Yes) then Yes else MaybeYes in
          (Returned,
           onMemories (addAnswer_all keyword answer hashes)
                      (AddKeyword armo keyword w))
      | Exclusive, (Choice_No | Choice_MaybeNo) =>
          let answer :=
            if bool_decide (choice = Choice_No) then No else MaybeNo in
          (Returned,
           onMemories (addAnswer_single keyword answer
                         (hhashes Yes (relHashes keyword) (relAnswers keyword)))
                      w)
      | _, Choice_Cancel => (Thrown CancelledByUser, w)
      end
  end.

(** The questions of one record: [keywordsToAsk] paired with [choices],
    the answers of [Promise.map(keywordsToAsk, showMessageBox)]; all of
    them are collected before the learning starts. *)
Definition questions (keywordsToAsk : list string) : list (string * Choice) :=
  zip keywordsToAsk (imap showMessageBox keywordsToAsk).

(** [patch] from the point where [keywordsToAsk] is known: nothing to ask,
    or the dialog, the learning, [saveMemories(taggednifs)] and
    [await viewer].  [t] is [taggednifs] as it was when [answers] was
    computed.  The viewer is started before the dialog and awaited last:
    when its promise is rejected, [patch] is rejected with that error
    after the memories are saved. *)
Definition askAndLearn (armo : Armo) (hashes : list string)
    (t : gmap string Memory) (keywordsToAsk : list string) (w : World)
  : Completion * World :=
  if bool_decide (length keywordsToAsk = 0) then (Returned, w)
  else
    match forEach (learn (editorid armo) hashes
                     (relevantHashes (armature armo) hashes)
                     (relevantAnswers t (armature armo) hashes))
                  (questions keywordsToAsk) w with
    | (Thrown e, w') => (Thrown e, w')
    | (Returned, w') =>
        (match viewer (nifs_of (armature armo)) with
         | Fulfilled => Returned
         | Rejected => Thrown ViewerError
         end,
         saveMemories w')
    end.

(** The second and third loops over [keywordsToPatch]: everything [patch]
    does between the hashing and the dialog.  The result holds the world
    and [keywordsToAsk]. *)
Definition automaticPhase (armo : Armo) (keywordsToPatch hashes : list string)
    (w : World) : Completion * (World * list string) :=
  match forEach (relevancePass (armature armo) hashes) keywordsToPatch w with
  | (Thrown e, w1) => (Thrown e, (w1, []))
  | (Returned, w1) =>
      forEach (automatic (editorid armo)
                 (relevantAnswers (taggednifs w) (armature armo) hashes))
              keywordsToPatch (w1, [])
  end.

(** [patch] from the point where the hashes are known and the names are
    recorded. *)
Definition decideAndLearn (armo : Armo) (keywordsToPatch hashes : list string)
    (w : World) : Completion * World :=
  match automaticPhase armo keywordsToPatch hashes w with
  | (Thrown e, s) => (Thrown e, s.1)
  | (Returned, s) => askAndLearn armo hashes (taggednifs w) s.2 s.1
  end.

(** The state once the hashes are known: every name is recorded under its
    hash and the nifs are logged. *)
Definition recordNames (armo : Armo) (hashes : list string) (w : World)
  : World :=
  logMessage (FoundNifs (editorid armo) (nifs_of (armature armo)))
    (onMemories (each_addName hashes (nifs_of (armature armo))) w).

(** [async patch(record)]; [keywordsToPatch] is
    [locals.keywordsToPatch[editorid]], left there by the filter. *)
Definition patch (armo : Armo) (keywordsToPatch : list string) (w : World)
  : Completion * World :=
  let w0 := logMessage (Checking (editorid armo)) w in
  let nifs := nifs_of (armature armo) in
  if bool_decide (length nifs = 0) then (Returned, w0)
  else
    match Promise_map nifs with
    | None => (Returned, logMessage ErrorOpeningNif w0)
    | Some hashes =>
        decideAndLearn armo keywordsToPatch hashes (recordNames armo hashes w0)
    end.

End Patch.

(** ** Choosing the records and their keywords: [getFilesToPatch], [filter] *)

(** [getFilesToPatch(filenames)] *)
Definition getFilesToPatch (filenames : list string) : list string :=
  filter (λ filename, filename ≠ "zEBD.esp") filenames.

(** An armor record (ARMO) as the filter reads it: its editor id, the
    keywords it carries ([xelib.HasKeyword]), whether it has an [Armature]
    element, the elements of [Armature] (each with whether its race is the
    default race, and the ARMA it links to), and the enabled "First Person
    Flags" of its [BODT] and [BOD2] elements, [None] for an element the
    record does not have. *)
Record ArmoRecord : Type := mkArmoRecord {
  record_editorid : string;
  record_keywords : list string;
  record_hasArmature : bool;
  record_Armature : list (bool * Arma);
  record_BODT : option (list BodySlot);
  record_BOD2 : option (list BodySlot)
}.

(** [getBodyTemplate(record)]: [BODT], and [BOD2] when there is no [BODT];
    [None] stands for the handle [0]. *)
Definition getBodyTemplate (record : ArmoRecord) : option (list BodySlot) :=
  match record_BODT record with
  | Some bodt => Some bodt
  | None => record_BOD2 record
  end.

(** The record as [patch] reads it: the ARMAs of the default race. *)
Definition armoOf (record : ArmoRecord) : Armo :=
  {| editorid := record_editorid record;
     armature := snd <$> filter (λ el, el.1 = true) (record_Armature record) |}.

(** [locals.keywords], set by [initialize]:
    [settings.keywords.map((keyword) => keywords[keyword])]. *)
Definition localsKeywords (keywordTable : gmap string KeywordInfo)
    (settingsKeywords : list string) : list TableValue :=
  keywordsAt keywordTable <$> settingsKeywords.

(** [removeKeyword(keyword)] on the list kept for the record. *)
Definition removeKeyword (keyword : string) (l : list string) : list string :=
  filter (λ k, k ≠ keyword) l.

(** What [filter] returns: a boolean, or the error it throws.  Under a
    configured name of [Object.prototype] the first round calls
    [xelib.HasKeyword(armo, undefined)]; what the host does with it is not
    part of the program, and the model ends there with [HostDecides]. *)
Inductive FilterResult : Type :=
  | Keep (b : bool)
  | FilterThrown (e : Error)
  | HostDecides.

(** One round [keywords.forEach(({ id, ... }) => { if (cond) removeKeyword(id) })]
    over [locals.keywords]; the round is left with the result of the
    filter when it does not get through.  Destructuring [undefined]
    throws.  The fields of an inherited value are [undefined]:
    [atInherited] is how the condition fares on them, and
    [removeKeyword(undefined)] removes nothing. *)
Definition removeIf (cond : KeywordInfo → bool)
    (atInherited : Outcome FilterResult) (value : TableValue)
    (l : list string) : Outcome FilterResult * list string :=
  match value with
  | Described info =>
      (Returned, if cond info then removeKeyword (id info) l else l)
  | Inherited => (atInherited, l)
  | Undefined => (Thrown (FilterThrown TypeError), l)
  end.

(** [flags.some((flag) => slots.includes(flag))] with [slots] undefined:
    [some] does not call its argument on an empty array, and [includes]
    throws on the first flag otherwise. *)
Definition someIncluded (flags : list BodySlot) : Outcome FilterResult :=
  if bool_decide (flags = []) then Returned
  else Thrown (FilterThrown TypeError).

(** The three conditions under which a keyword is removed. *)
Definition alreadyHas (record : ArmoRecord) (info : KeywordInfo) : bool :=
  bool_decide (id info ∈ record_keywords record).

Definition hasSkipSlot (flags : list BodySlot) (info : KeywordInfo) : bool :=
  some (λ flag, bool_decide (flag ∈ skipSlots info)) flags.

Definition lacksRelevantSlot (flags : list BodySlot) (info : KeywordInfo)
  : bool :=
  negb (some (λ flag, bool_decide (flag ∈ relevantSlots info)) flags).

(** [load.filter(record)]; the state is [locals.keywordsToPatch], which
    keeps the list of the record whatever the filter returns. *)
Definition filterRecord (keywordTable : gmap string KeywordInfo)
    (settingsKeywords : list string) (record : ArmoRecord)
    (keywordsToPatch : gmap string (list string))
  : FilterResult * gmap string (list string) :=
  let editorid := record_editorid record in
  let keywords := localsKeywords keywordTable settingsKeywords in
  let leave (b : FilterResult) (l : list string) :=
    (b, <[editorid := l]> keywordsToPatch) in
  match forEach (removeIf (alreadyHas record) (Thrown HostDecides))
          keywords settingsKeywords with
  | (Thrown r, l) => leave r l
  | (Returned, l) =>
      if bool_decide (length l = 0) then leave (Keep false) l
      else if negb (record_hasArmature record) then leave (Keep false) l
      else if negb (some (λ el : bool * Arma, el.1) (record_Armature record))
      then leave (Keep false) l
      else
        match getBodyTemplate record with
        | None => leave (Keep false) l
        | Some flags =>
            match forEach (removeIf (hasSkipSlot flags) (someIncluded flags))
                    keywords l with
            | (Thrown r, l) => leave r l
            | (Returned, l) =>
                if bool_decide (length l = 0) then leave (Keep false) l
                else
                  match forEach (removeIf (lacksRelevantSlot flags)
                                   (someIncluded flags))
                          keywords l with
                  | (Thrown r, l) => leave r l
                  | (Returned, l) =>
                      if bool_decide (length l = 0) then leave (Keep false) l
                      else leave (Keep true) l
                  end
            end
        end
  end.

(** [patch(record)] as the harness calls it: it takes the list the filter
    left in [locals.keywordsToPatch] and deletes the entry.  Without an
    entry there is no list (what an editor id that names a property of
    [Object.prototype] finds there is no array either), and
    [keywordsToPatch.forEach] throws once the hashes are there. *)
Definition patchRecord (redoMaybes : bool)
    (keywordTable : gmap string KeywordInfo) (sha1 : string → option string)
    (showMessageBox : nat → string → Choice)
    (viewer : list string → Settled) (record : ArmoRecord)
    (s : World * gmap string (list string))
  : Completion * (World * gmap string (list string)) :=
  let armo := armoOf record in
  let rest := delete (record_editorid record) s.2 in
  match s.2 !! record_editorid record with
  | Some keywordsToPatch =>
      let r := patch redoMaybes keywordTable sha1 showMessageBox viewer armo
                 keywordsToPatch s.1 in
      (r.1, (r.2, rest))
  | None =>
      let w0 := logMessage (Checking (editorid armo)) s.1 in
      let nifs := nifs_of (armature armo) in
      if bool_decide (length nifs = 0) then (Returned, (w0, rest))
      else
        match Promise_map sha1 nifs with
        | None => (Returned, (logMessage ErrorOpeningNif w0, rest))
        | Some hashes =>
            (Thrown TypeError, (recordNames armo hashes w0, rest))
        end
  end.

#[global] Instance Verdict_eq_dec : EqDecision Verdict.
Proof. solve_decision. Defined.

(** The verdict of the automatic phase for a keyword, given the memories
    [t]; a keyword without a description has none, which is rendered as
    [Ask] (the code throws before it gets there). *)
Definition verdictOf (redoMaybes : bool)
    (keywordTable : gmap string KeywordInfo) (t : gmap string Memory)
    (armas : list Arma) (hashes : list string) (keyword : string) : Verdict :=
  match keywordTable !! keyword with
  | Some info =>
      verdict (type info)
        (relevantAnswers redoMaybes keywordTable t armas hashes keyword)
  | None => Ask
  end.

(** The part of [initialize] that concerns the memories:
    [taggednifs: loadMemories()], the memories of the process are read
    from the memory file (a missing file reads as the empty mapping). *)
Definition initialize (w : World) : World :=
  {| taggednifs := memoryFile w; memoryFile := memoryFile w;
     addedKeywords := addedKeywords w; logged := logged w |}.

(** ** Notions used to state the properties *)

(** Swapping [Yes] and [No] in an answer, and [Apply] and [Skip] in a
    verdict: the two sides of the duality between the rules. *)
Definition swapYesNo (a : Answered) : Answered :=
  match a with
  | Some Yes => Some No
  | Some No => Some Yes
  | _ => a
  end.

Definition swapVerdict (v : Verdict) : Verdict :=
  match v with
  | Apply => Skip
  | Skip => Apply
  | Ask => Ask
  end.

(** The rule for Exclusive keywords as the claim words it, with "at least
    one relevant answer" in the condition for [Apply]. *)
Definition Exclusive_rule_as_stated (l : list Answered) : Prop :=
  (verdict Exclusive l = Apply ↔
     Forall (λ a, a = Some Yes) l ∧ 1 ≤ length l) ∧
  (verdict Exclusive l = Skip ↔ Some No ∈ l) ∧
  (verdict Exclusive l = Ask ↔
     ¬ (Forall (λ a, a = Some Yes) l ∧ 1 ≤ length l) ∧ Some No ∉ l).

(** The whole [keywords] field stored under a hash, empty when the hash is
    unknown. *)
Definition storedKeywords (t : gmap string Memory) (hash : string)
  : gmap string Answer :=
  from_option keywords ∅ (t !! hash).

(** The names stored under a hash. *)
Definition storedNames (t : gmap string Memory) (hash : string)
  : list string :=
  from_option filenames [] (t !! hash).

(** The relevant hashes whose normalised answer is not [known] (one entry
    per relevant component, in the order of the components): the
    "ambiguous" hashes of the learning step. *)
Definition ambiguous (redoMaybes : bool)
    (keywordTable : gmap string KeywordInfo) (t : gmap string Memory)
    (armas : list Arma) (hashes : list string) (keyword : string)
    (known : Answer) : list string :=
  filter (λ hash, normalise redoMaybes (remembered t hash keyword) ≠ Some known)
         (relevantHashes keywordTable armas hashes keyword).

(** The ambiguous components of the learning step: the ARMAs, each with
    the hash at its position, that are relevant and whose normalised
    answer is not [known].  ([patch] reads the relevance of the [i]-th
    hash off the [i]-th ARMA; that is the ARMA the hash was computed for
    when every ARMA has a model path.) *)
Definition ambiguousComponents (redoMaybes : bool) (t : gmap string Memory)
    (irrelevantSlots : list BodySlot) (armas : list Arma)
    (hashes : list string) (keyword : string) (known : Answer)
  : list (Arma * string) :=
  filter (λ c, isRelevant irrelevantSlots c.1 = true ∧
               normalise redoMaybes (remembered t c.2 keyword) ≠ Some known)
         (zip armas hashes).

(** The answer a button stands for. *)
Definition answerOf (choice : Choice) : option Answer :=
  match choice with
  | Choice_Yes => Some Yes
  | Choice_MaybeYes => Some MaybeYes
  | Choice_MaybeNo => Some MaybeNo
  | Choice_No => Some No
  | Choice_Cancel => None
  end.

(** [keywordsToAsk] of a record: the keywords that reach the dialog, none
    when [patch] returns before it. *)
Definition keywordsToAsk (redoMaybes : bool)
    (keywordTable : gmap string KeywordInfo) (sha1 : string → option string)
    (armo : Armo) (keywordsToPatch : list string) (w : World) : list string :=
  if bool_decide (length (nifs_of (armature armo)) = 0) then []
  else
    match Promise_map sha1 (nifs_of (armature armo)) with
    | None => []
    | Some hashes =>
        match automaticPhase redoMaybes keywordTable armo keywordsToPatch
                hashes
                (recordNames armo hashes
                   (logMessage (Checking (editorid armo)) w)) with
        | (Returned, s) => s.2
        | (Thrown _, _) => []
        end
    end.

(** A state equal to [w] but for the log. *)
Definition sameButLog (w w' : World) : Prop :=
  taggednifs w' = taggednifs w ∧ memoryFile w' = memoryFile w ∧
  addedKeywords w' = addedKeywords w.

(** ** Concrete records *)

Module Scenario.

(** Two body parts and a helmet. *)
Definition partA : Arma := mkArma "OutfitTopAA" "outfit\a.nif" [BodySlot.Body].
Definition partB : Arma := mkArma "OutfitLegsAA" "outfit\b.nif" [BodySlot.Body].
Definition helmet : Arma :=
  mkArma "HelmetAA" "outfit\helmet.nif" [BodySlot.Head; BodySlot.Hair].
Definition hood : Arma :=
  mkArma "HoodAA" "outfit\hood.nif" [BodySlot.Body; BodySlot.Head].

(** A part without a flag in its body template. *)
Definition unflagged : Arma := mkArma "CloakAA" "outfit\a.nif" [].

(** A second ARMA with the model of the first part. *)
Definition partA' : Arma :=
  mkArma "OutfitTopAA2" "outfit\a.nif" [BodySlot.Body].

Definition outfit : Armo := mkArmo "Outfit" [partA; partB].
Definition pair : Armo := mkArmo "Pair" [partA; partA'].
Definition cloak : Armo := mkArmo "Cloak" [unflagged].
Definition top : Armo := mkArmo "Top" [partA].
Definition helm : Armo := mkArmo "Helm" [helmet].
Definition robe : Armo := mkArmo "Robe" [hood].

(** Two hoods with one model. *)
Definition hood' : Arma :=
  mkArma "HoodAA2" "outfit\hood.nif" [BodySlot.Head].

Definition hoods : Armo := mkArmo "Hoods" [hood; hood'].

Definition nifA : string := "meshes\outfit\a.nif".
Definition nifB : string := "meshes\outfit\b.nif".

(** A data directory where every nif can be read, and one where the
    second part of the outfit cannot. *)
Definition readable (nif : string) : option string :=
  if decide (nif = nifA) then Some "h1"
  else if decide (nif = nifB) then Some "h2"
  else Some "h3".

Definition unreadableB (nif : string) : option string :=
  if decide (nif = nifB) then None else readable nif.

(** A human who gives the same answer to every question, and one who says
    [Yes] to the first question and cancels the others. *)
Definition always (choice : Choice) : nat → string → Choice := λ _ _, choice.

Definition yesThenCancel : nat → string → Choice :=
  λ i _, match i with 0 => Choice_Yes | _ => Choice_Cancel end.

(** A viewer that is closed normally, and one that cannot be started. *)
Definition closes : list string → Settled := λ _, Fulfilled.


(** Memories: nothing known; [h1] known to be revealing under an older
    name; [h1] maybe revealing. *)
Definition nothing : World := mkWorld ∅ ∅ [] [].

Definition h1Yes : gmap string Memory :=
  {[ "h1" := mkMemory ["meshes\old\a.nif"] {[ "SOS_Revealing" := Yes ]} ]}.

Definition h1MaybeYes : gmap string Memory :=
  {[ "h1" := mkMemory ["meshes\old\a.nif"] {[ "SOS_Revealing" := MaybeYes ]} ]}.

Definition knowsA : World := mkWorld h1Yes h1Yes [] [].

(** The table with a second keyword.  The source means the table to grow
    and names [ArmorHelmet] as its example of an Inclusive keyword. *)
Definition ArmorHelmet : KeywordInfo :=
  {| id := "ArmorHelmet";
     description := "Helmet keyword";
     type := Inclusive;
     relevantSlots := [BodySlot.Head];
     irrelevantSlots := [];
     skipSlots := [] |}.

Definition twoKeywords : gmap string KeywordInfo :=
  <[ "ArmorHelmet" := ArmorHelmet ]> knownKeywords.

(** The two stores of the import scenario. *)
Definition localStore : gmap string Memory :=
  {[ "h1" := mkMemory ["b"] ∅ ]}.

Definition importedStore : gmap string Memory :=
  {[ "h1" := mkMemory ["a"] {[ "K" := Yes ]} ]}.

End Scenario.

(** C7 as stated: the names of the nifs whose hashing succeeded are in the
    memories after [patch]. *)
Definition hashed_names_kept_as_stated (sha1 : string → option string)
    (armo : Armo) (w' : World) : Prop :=
  ∀ nif hash, nif ∈ nifs_of (armature armo) → sha1 nif = Some hash →
              nif ∈ storedNames (taggednifs w') hash.

(** C2 as stated, the case of a single ambiguous fingerprint: when the
    ambiguous hashes are, as a set, one hash, the answer is recorded
    under it. *)
Definition single_fingerprint_attributed_as_stated (amb : list string)
    (keyword : string) (answer : Answer) (t' : gmap string Memory) : Prop :=
  ∀ hash, (∀ h, h ∈ amb ↔ h = hash) →
          remembered t' hash keyword = Some answer.

(** C8 as stated: after a record is processed the memory file holds the
    memories of the process. *)
Definition flushed_as_stated (w' : World) : Prop :=
  memoryFile w' = taggednifs w'.

(** C9 as stated: no answer is written for the cancelled keyword, and the
    cancelled record has got no keyword. *)
Definition no_answer_after_cancel_as_stated (keyword : string)
    (w w' : World) : Prop :=
  ∀ hash, remembered (taggednifs w') hash keyword =
          remembered (taggednifs w) hash keyword.

Definition no_tag_after_cancel_as_stated (w w' : World) : Prop :=
  addedKeywords w' = addedKeywords w.

(** Two stores with the same hashes, the same answers and, as sets, the
    same names under every hash: equal when [filenames] is read as the set
    it stands for. *)
Definition sameStore (t t' : gmap string Memory) : Prop :=
  ∀ h, (is_Some (t !! h) ↔ is_Some (t' !! h)) ∧
       storedKeywords t h = storedKeywords t' h ∧
       (∀ x, x ∈ storedNames t h ↔ x ∈ storedNames t' h).

(** Whether a round of removals over [infos] takes [keyword] off the
    list: some described keyword with this id meets the condition. *)
Definition removed (cond : KeywordInfo → bool)
    (infos : list TableValue) (keyword : string) : bool :=
  some (λ value, match value with
                 | Described info =>
                     cond info && bool_decide (id info = keyword)
                 | _ => false
                 end) infos.

(** Whether the second loop of [patch] gets through a keyword: it has a
    description, or it names a property of [Object.prototype] and none of
    the ARMAs the loop looks at has a flag. *)
Definition getsThrough (keywordTable : gmap string KeywordInfo)
    (armas : list Arma) (hashes : list string) (keyword : string) : bool :=
  match keywordsAt keywordTable keyword with
  | Described _ => true
  | Inherited =>
      every (λ arma, bool_decide (arma_flags arma = []))
            (take (length hashes) armas)
  | Undefined => false
  end.

(** The first configured keyword that has no description in the table. *)
Definition firstUndescribed (keywordTable : gmap string KeywordInfo)
    (settingsKeywords : list string) : option string :=
  head (filter (λ key, keywordTable !! key = None) settingsKeywords).

(** [t'] holds everything [t] holds: every hash, every name under it, and
    an answer (maybe another one) wherever [t] has one. *)
Definition grows (t t' : gmap string Memory) : Prop :=
  ∀ h, (is_Some (t !! h) → is_Some (t' !! h)) ∧
       (∀ x, x ∈ storedNames t h → x ∈ storedNames t' h) ∧
       (∀ k, is_Some (remembered t h k) → is_Some (remembered t' h k)).

(** ** Concrete records for the filter *)

Module Sample.

(** A robe of the default race with body and head flags, untagged; the
    same robe already carrying [SOS_Revealing]. *)
Definition robe : ArmoRecord :=
  {| record_editorid := "Robe";
     record_keywords := ["ArmorClothing"];
     record_hasArmature := true;
     record_Armature := [(false, Scenario.helmet); (true, Scenario.hood)];
     record_BODT := None;
     record_BOD2 := Some [BodySlot.Body; BodySlot.Head] |}.

Definition taggedRobe : ArmoRecord :=
  {| record_editorid := "Robe";
     record_keywords := ["ArmorClothing"; "SOS_Revealing"];
     record_hasArmature := true;
     record_Armature := [(false, Scenario.helmet); (true, Scenario.hood)];
     record_BODT := None;
     record_BOD2 := Some [BodySlot.Body; BodySlot.Head] |}.

End Sample.

(** * Properties *)

(** ** The table of keywords *)

Lemma keywordsAt_Some (keywordTable : gmap string KeywordInfo)
    (keyword : string) (info : KeywordInfo) :
  keywordTable !! keyword = Some info →
  keywordsAt keywordTable keyword = Described info.
Proof. unfold keywordsAt. by intros ->. Qed.

Lemma keywordsAt_Described (keywordTable : gmap string KeywordInfo)
    (keyword : string) (info : KeywordInfo) :
  keywordsAt keywordTable keyword = Described info ↔
  keywordTable !! keyword = Some info.
Proof.
  split; [|apply keywordsAt_Some]. unfold keywordsAt.
  destruct (keywordTable !! keyword); [congruence|by case_decide].
Qed.

Lemma keywordsAt_Inherited (keywordTable : gmap string KeywordInfo)
    (keyword : string) :
  keywordsAt keywordTable keyword = Inherited ↔
  keywordTable !! keyword = None ∧ keyword ∈ Object_prototype.
Proof.
  unfold keywordsAt. destruct (keywordTable !! keyword).
  - split; [done|]. by intros [? _].
  - case_decide; split; try done. by intros [_ ?].
Qed.

Lemma keywordsAt_Undefined (keywordTable : gmap string KeywordInfo)
    (keyword : string) :
  keywordsAt keywordTable keyword = Undefined ↔
  keywordTable !! keyword = None ∧ keyword ∉ Object_prototype.
Proof.
  unfold keywordsAt. destruct (keywordTable !! keyword).
  - split; [done|]. by intros [? _].
  - case_decide; split; try done. by intros [_ ?].
Qed.

(** ** Decision policy *)

Lemma every_Forall {A : Type} (P : A → Prop) `{!∀ x, Decision (P x)}
    (l : list A) :
  every (λ x, bool_decide (P x)) l = true ↔ Forall P l.
Proof.
  unfold every. induction l as [|x l IH]; simpl.
  - split; [constructor | reflexivity].
  - rewrite andb_true_iff, bool_decide_eq_true, IH, Forall_cons. reflexivity.
Qed.

Lemma some_Exists {A : Type} (P : A → Prop) `{!∀ x, Decision (P x)}
    (l : list A) :
  some (λ x, bool_decide (P x)) l = true ↔ Exists P l.
Proof.
  unfold some. induction l as [|x l IH]; simpl.
  - split; [discriminate | intros Hex; inversion Hex].
  - rewrite orb_true_iff, bool_decide_eq_true, IH, Exists_cons. reflexivity.
Qed.

Lemma some_elem_of (a : Answered) (l : list Answered) :
  some (λ x, bool_decide (x = a)) l = true ↔ a ∈ l.
Proof.
  rewrite some_Exists, Exists_exists. split.
  - intros (x & Hx & ->). exact Hx.
  - intros Ha. exists a. split; [exact Ha | reflexivity].
Qed.

(** The two rules, read off the [switch (type)]. *)
Lemma verdict_Exclusive_cases (l : list Answered) :
  verdict Exclusive l =
    if decide (Forall (λ a, a = Some Yes) l) then Apply
    else if decide (Some No ∈ l) then Skip else Ask.
Proof.
  unfold verdict.
  destruct (every _ l) eqn:Hall.
  - apply every_Forall in Hall. rewrite decide_True by exact Hall. reflexivity.
  - destruct (decide (Forall _ l)) as [HF|_].
    { apply (every_Forall (λ a, a = Some Yes)) in HF. congruence. }
    destruct (some _ l) eqn:Hsome.
    + apply some_elem_of in Hsome. rewrite decide_True by exact Hsome.
      reflexivity.
    + destruct (decide (Some No ∈ l)) as [HN|_]; [|reflexivity].
      apply some_elem_of in HN. congruence.
Qed.

Lemma verdict_Inclusive_cases (l : list Answered) :
  verdict Inclusive l =
    if decide (Some Yes ∈ l) then Apply
    else if decide (Forall (λ a, a = Some No) l) then Skip else Ask.
Proof.
  unfold verdict.
  destruct (some _ l) eqn:Hsome.
  - apply some_elem_of in Hsome. rewrite decide_True by exact Hsome.
    reflexivity.
  - destruct (decide (Some Yes ∈ l)) as [HY|_].
    { apply some_elem_of in HY. congruence. }
    destruct (every _ l) eqn:Hall.
    + apply every_Forall in Hall. rewrite decide_True by exact Hall.
      reflexivity.
    + destruct (decide (Forall _ l)) as [HF|_]; [|reflexivity].
      apply (every_Forall (λ a, a = Some No)) in HF. congruence.
Qed.

(** A [No] among the answers rules out "all [Yes]", and the other way
    round. *)
Lemma Forall_eq_excludes (a b : Answered) (l : list Answered) :
  a ≠ b → Forall (λ x, x = a) l → b ∉ l.
Proof.
  intros Hab Hall Hb. rewrite Forall_forall in Hall.
  apply Hall in Hb. congruence.
Qed.

Lemma swapYesNo_Yes (a : Answered) : swapYesNo a = Some Yes ↔ a = Some No.
Proof. destruct a as [[]|]; simpl; split; congruence. Qed.

Lemma swapYesNo_No (a : Answered) : swapYesNo a = Some No ↔ a = Some Yes.
Proof. destruct a as [[]|]; simpl; split; congruence. Qed.

Lemma Forall_swapYesNo_Yes (l : list Answered) :
  Forall (λ a, a = Some Yes) (swapYesNo <$> l) ↔ Forall (λ a, a = Some No) l.
Proof.
  rewrite Forall_fmap. apply Forall_proper; [|reflexivity].
  intros a. simpl. apply swapYesNo_Yes.
Qed.

Lemma elem_of_swapYesNo_No (l : list Answered) :
  Some No ∈ swapYesNo <$> l ↔ Some Yes ∈ l.
Proof.
  rewrite list_elem_of_fmap. split.
  - intros (a & Ha & Hin). symmetry in Ha. apply swapYesNo_No in Ha.
    subst a. exact Hin.
  - intros Hin. exists (Some Yes). split; [reflexivity | exact Hin].
Qed.

(** C1, as stated, fails: with no relevant answer at all
    [relevantAnswers[keyword].every(...)] is true and the keyword is
    applied, although the claim asks for at least one answer. *)
Lemma verdict_Exclusive_no_relevant_answer :
  verdict Exclusive [] = Apply ∧ ¬ Exclusive_rule_as_stated [].
Proof.
  split; [reflexivity|].
  intros (Happly & _ & _).
  assert (Hv : verdict Exclusive [] = Apply) by reflexivity.
  apply Happly in Hv. destruct Hv as [_ Hlen]. simpl in Hlen. lia.
Qed.

(** C1 (amended): for an Exclusive keyword the verdict over the relevant
    normalised answers is [Apply] iff every relevant answer is [Yes] (also
    when there is none), [Skip] iff some relevant answer is [No], and [Ask]
    otherwise; a permutation of the answers has the same verdict. *)
Theorem verdict_Exclusive_spec (l l' : list Answered) (Hperm : l ≡ₚ l') :
  (verdict Exclusive l = Apply ↔ Forall (λ a, a = Some Yes) l) ∧
  (verdict Exclusive l = Skip ↔ Some No ∈ l) ∧
  (verdict Exclusive l = Ask ↔
     ¬ Forall (λ a, a = Some Yes) l ∧ Some No ∉ l) ∧
  verdict Exclusive l' = verdict Exclusive l.
Proof.
  assert (Hexcl : Forall (λ a, a = Some Yes) l → Some No ∉ l)
    by (apply Forall_eq_excludes; discriminate).
  rewrite (verdict_Exclusive_cases l), (verdict_Exclusive_cases l').
  repeat split.
  - destruct (decide (Forall _ l)); [done|]. by repeat case_decide.
  - by destruct (decide (Forall _ l)).
  - destruct (decide (Forall _ l)); [done|]. by repeat case_decide.
  - intros HNo. destruct (decide (Forall _ l)) as [HF|_].
    + by apply Hexcl in HF.
    + by rewrite decide_True.
  - by destruct (decide (Forall _ l)).
  - destruct (decide (Forall _ l)); [done|]. by repeat case_decide.
  - intros [HnF HnN]. by rewrite !decide_False.
  - destruct (decide (Forall _ l)) as [HF|HF].
    + rewrite decide_True; [done|]. by rewrite Hperm in HF.
    + rewrite decide_False by (by rewrite <- Hperm).
      destruct (decide (Some No ∈ l)) as [HN|HN].
      * rewrite decide_True; [done|]. by rewrite Hperm in HN.
      * rewrite decide_False; [done|]. by rewrite Hperm in HN.
Qed.

Lemma verdict_Exclusive_spec_witness :
  [None; Some Yes] ≡ₚ [Some Yes; None] ∧
  verdict Exclusive [Some Yes; None] = verdict Exclusive [None; Some Yes].
Proof.
  split; [apply perm_swap|].
  apply (verdict_Exclusive_spec [None; Some Yes] [Some Yes; None]).
  apply perm_swap.
Defined.

(** C4: the rule for Inclusive keywords is [Apply] iff some relevant answer
    is [Yes], [Skip] iff every relevant answer is [No], [Ask] otherwise,
    and it is the rule for Exclusive keywords on the list with [Yes] and
    [No] swapped, with [Apply] and [Skip] exchanged. *)
Theorem verdict_Inclusive_dual (l : list Answered) :
  (verdict Inclusive l = Apply ↔ Some Yes ∈ l) ∧
  (verdict Inclusive l = Skip ↔ Forall (λ a, a = Some No) l) ∧
  (verdict Inclusive l = Ask ↔
     (Some Yes ∉ l) ∧ ¬ Forall (λ a, a = Some No) l) ∧
  verdict Inclusive l = swapVerdict (verdict Exclusive (swapYesNo <$> l)).
Proof.
  assert (Hexcl : Forall (λ a, a = Some No) l → Some Yes ∉ l)
    by (apply Forall_eq_excludes; discriminate).
  rewrite (verdict_Inclusive_cases l), verdict_Exclusive_cases.
  repeat split.
  - destruct (decide (Some Yes ∈ l)); [done|]. by repeat case_decide.
  - by destruct (decide (Some Yes ∈ l)).
  - destruct (decide (Some Yes ∈ l)); [done|]. by repeat case_decide.
  - intros HF. rewrite decide_False by (by apply Hexcl).
    by rewrite decide_True.
  - by destruct (decide (Some Yes ∈ l)).
  - destruct (decide (Some Yes ∈ l)); [done|]. by repeat case_decide.
  - intros [HnY HnF]. by rewrite !decide_False.
  - destruct (decide (Forall _ (swapYesNo <$> l))) as [HF|HF];
      rewrite Forall_swapYesNo_Yes in HF.
    + rewrite decide_False by (by apply Hexcl). by rewrite decide_True.
    + destruct (decide (Some No ∈ swapYesNo <$> l)) as [HN|HN];
        rewrite elem_of_swapYesNo_No in HN.
      * by rewrite decide_True.
      * by rewrite !decide_False.
Qed.

(** ** Memory store: [addName] and [addAnswer] *)

Lemma remembered_stored (t : gmap string Memory) (hash keyword : string) :
  remembered t hash keyword = storedKeywords t hash !! keyword.
Proof.
  unfold remembered, storedKeywords.
  destruct (t !! hash) as [m|]; simpl; [reflexivity|].
  symmetry. apply lookup_empty.
Qed.

Lemma storedKeywords_addName (hash nif : string) (t : gmap string Memory)
    (h : string) :
  storedKeywords (addName hash nif t) h = storedKeywords t h.
Proof.
  unfold storedKeywords, addName.
  destruct (decide (hash = h)) as [->|Hne].
  - rewrite lookup_insert_eq. simpl. by destruct (t !! h).
  - by rewrite lookup_insert_ne.
Qed.

Lemma storedNames_addName (hash nif : string) (t : gmap string Memory)
    (h : string) :
  storedNames (addName hash nif t) h =
    if decide (hash = h)
    then if decide (nif ∈ storedNames t h) then storedNames t h
         else storedNames t h ++ [nif]
    else storedNames t h.
Proof.
  unfold storedNames, addName.
  destruct (decide (hash = h)) as [->|Hne].
  - rewrite lookup_insert_eq. simpl. by destruct (t !! h).
  - by rewrite lookup_insert_ne.
Qed.

Lemma addName_is_Some (hash nif : string) (t : gmap string Memory)
    (h : string) :
  is_Some (t !! h) → is_Some (addName hash nif t !! h).
Proof.
  unfold addName. intros Hh.
  destruct (decide (hash = h)) as [->|Hne].
  - rewrite lookup_insert_eq. eauto.
  - by rewrite lookup_insert_ne.
Qed.

Lemma storedKeywords_addAnswer (keyword hash : string) (answer : Answer)
    (t : gmap string Memory) (h : string) :
  storedKeywords (addAnswer keyword hash answer t) h =
    if decide (hash = h) then <[keyword := answer]> (storedKeywords t h)
    else storedKeywords t h.
Proof.
  unfold storedKeywords, addAnswer.
  destruct (decide (hash = h)) as [->|Hne].
  - rewrite lookup_insert_eq. simpl. by destruct (t !! h).
  - by rewrite lookup_insert_ne.
Qed.

Lemma storedNames_addAnswer (keyword hash : string) (answer : Answer)
    (t : gmap string Memory) (h : string) :
  storedNames (addAnswer keyword hash answer t) h = storedNames t h.
Proof.
  unfold storedNames, addAnswer.
  destruct (decide (hash = h)) as [->|Hne].
  - rewrite lookup_insert_eq. simpl. by destruct (t !! h).
  - by rewrite lookup_insert_ne.
Qed.

Lemma remembered_addAnswer (keyword hash : string) (answer : Answer)
    (t : gmap string Memory) (h k : string) :
  remembered (addAnswer keyword hash answer t) h k =
    if decide (hash = h ∧ keyword = k) then Some answer
    else remembered t h k.
Proof.
  rewrite !remembered_stored, storedKeywords_addAnswer.
  destruct (decide (hash = h)) as [->|Hne].
  - destruct (decide (keyword = k)) as [->|Hk].
    + rewrite lookup_insert_eq. by rewrite decide_True.
    + rewrite lookup_insert_ne by done. rewrite decide_False; [done|].
      by intros [_ ?].
  - rewrite decide_False; [done|]. by intros [? _].
Qed.

(** Recording names leaves every stored answer alone. *)
Lemma storedKeywords_each_addName (hashes nifs : list string)
    (t : gmap string Memory) (h : string) :
  storedKeywords (each_addName hashes nifs t) h = storedKeywords t h.
Proof.
  unfold each_addName. generalize (zip hashes nifs). intros l.
  revert t. induction l as [|p l IH]; intros t; simpl; [reflexivity|].
  rewrite IH. apply storedKeywords_addName.
Qed.

Lemma remembered_each_addName (hashes nifs : list string)
    (t : gmap string Memory) (h k : string) :
  remembered (each_addName hashes nifs t) h k = remembered t h k.
Proof. by rewrite !remembered_stored, storedKeywords_each_addName. Qed.

(** Recording a name under a hash makes it one of the names stored under
    that hash, and no name is ever dropped. *)
Lemma storedNames_addName_mono (hash nif : string) (t : gmap string Memory)
    (h x : string) :
  x ∈ storedNames t h → x ∈ storedNames (addName hash nif t) h.
Proof.
  rewrite storedNames_addName. intros Hx.
  repeat case_decide; try done. rewrite elem_of_app. by left.
Qed.

Lemma storedNames_addName_elem (hash nif : string) (t : gmap string Memory) :
  nif ∈ storedNames (addName hash nif t) hash.
Proof.
  rewrite storedNames_addName. rewrite decide_True by done.
  case_decide; [done|]. rewrite elem_of_app. right. by apply list_elem_of_singleton.
Qed.

Lemma each_addName_elem (hashes nifs : list string) (t : gmap string Memory)
    (i : nat) (hash nif : string) :
  hashes !! i = Some hash → nifs !! i = Some nif →
  nif ∈ storedNames (each_addName hashes nifs t) hash.
Proof.
  unfold each_addName. intros Hh Hn.
  assert (Hin : (hash, nif) ∈ zip hashes nifs).
  { apply list_elem_of_lookup. exists i. by apply lookup_zip_Some. }
  revert Hin. generalize (zip hashes nifs). clear. intros l. revert t.
  assert (Hmono : ∀ (k : list (string * string)) t,
            nif ∈ storedNames t hash →
            nif ∈ storedNames (foldl (λ t p, addName p.1 p.2 t) t k) hash).
  { intros k. induction k as [|p k IH]; intros t Ht; simpl; [done|].
    apply IH. by apply storedNames_addName_mono. }
  induction l as [|p l IH]; intros t Hin.
  - by apply elem_of_nil in Hin.
  - apply elem_of_cons in Hin. destruct Hin as [<-|Hin]; simpl.
    + apply Hmono. apply storedNames_addName_elem.
    + by apply IH.
Qed.

(** ** Relevant answers and their normalisation *)

Lemma relevantOnly_nil_r {A : Type} (irr : list BodySlot) (l : list A) :
  relevantOnly irr [] l = [].
Proof. unfold relevantOnly. by destruct l. Qed.

Lemma relevantOnly_cons {A : Type} (irr : list BodySlot) (arma : Arma)
    (armas : list Arma) (x : A) (l : list A) :
  relevantOnly irr (arma :: armas) (x :: l) =
    if isRelevant irr arma then x :: relevantOnly irr armas l
    else relevantOnly irr armas l.
Proof.
  unfold relevantOnly. simpl. rewrite filter_cons. simpl.
  destruct (isRelevant irr arma); by case_decide.
Qed.

Lemma relevantOnly_fmap {A B : Type} (f : A → B) (irr : list BodySlot)
    (armas : list Arma) (l : list A) :
  relevantOnly irr armas (f <$> l) = f <$> relevantOnly irr armas l.
Proof.
  revert armas. induction l as [|x l IH]; intros [|arma armas];
    try reflexivity.
  rewrite fmap_cons, !relevantOnly_cons, IH.
  by destruct (isRelevant irr arma).
Qed.

Lemma relevantOnly_elem_of {A : Type} (irr : list BodySlot)
    (armas : list Arma) (l : list A) (x : A) :
  x ∈ relevantOnly irr armas l → x ∈ l.
Proof.
  unfold relevantOnly. intros Hx.
  apply list_elem_of_fmap in Hx. destruct Hx as ([y arma] & -> & Hin).
  apply list_elem_of_filter in Hin. destruct Hin as [_ Hin].
  by apply elem_of_zip_l in Hin.
Qed.

(** [type Answered]: a normalised answer is [Yes], [No] or [undefined]. *)
Lemma normalise_Answered (redoMaybes : bool) (answer : option Answer) :
  normalise redoMaybes answer = Some Yes ∨
  normalise redoMaybes answer = Some No ∨
  normalise redoMaybes answer = None.
Proof. destruct answer as [[]|], redoMaybes; simpl; auto. Qed.

Lemma relevantAnswers_relevantHashes (redoMaybes : bool)
    (keywordTable : gmap string KeywordInfo) (t : gmap string Memory)
    (armas : list Arma) (hashes : list string) (keyword : string) :
  relevantAnswers redoMaybes keywordTable t armas hashes keyword =
    (λ hash, normalise redoMaybes (remembered t hash keyword)) <$>
      relevantHashes keywordTable armas hashes keyword.
Proof.
  unfold relevantAnswers, relevantHashes, answers.
  destruct (keywordTable !! keyword); [|done]. apply relevantOnly_fmap.
Qed.

Lemma relevantAnswers_each_addName (redoMaybes : bool)
    (keywordTable : gmap string KeywordInfo) (t : gmap string Memory)
    (armas : list Arma) (hashes hs nifs : list string) (keyword : string) :
  relevantAnswers redoMaybes keywordTable (each_addName hs nifs t) armas
    hashes keyword =
  relevantAnswers redoMaybes keywordTable t armas hashes keyword.
Proof.
  rewrite !relevantAnswers_relevantHashes. apply list_fmap_ext.
  intros i hash _. by rewrite remembered_each_addName.
Qed.

(** C5: the answers the decision rule reads are the remembered answers
    of the hashes of the record, each of them normalised and none of them
    left out.  [answers[keyword]] holds one normalised answer for every
    hash, in the order of the hashes, and [relevantAnswers[keyword]], on
    which the verdict is computed, one for every relevant hash.  The
    answers are those remembered before the names of the record were
    recorded.  Normalising makes [MaybeYes] into [Yes] and [MaybeNo] into
    [No] when [redoMaybes] is off, and both into [undefined] when it is
    on; [Yes], [No] and an absent answer pass as they are. *)
Theorem relevantAnswers_normalised (redoMaybes : bool)
    (keywordTable : gmap string KeywordInfo) (t : gmap string Memory)
    (armas : list Arma) (hashes nifs : list string) (keyword : string) :
  let t1 := each_addName hashes nifs t in
  let normalised hash := normalise redoMaybes (remembered t hash keyword) in
  answers redoMaybes t1 hashes keyword = normalised <$> hashes ∧
  relevantAnswers redoMaybes keywordTable t1 armas hashes keyword =
    normalised <$> relevantHashes keywordTable armas hashes keyword ∧
  verdictOf redoMaybes keywordTable t1 armas hashes keyword =
    match keywordTable !! keyword with
    | Some info =>
        verdict (type info)
          (normalised <$> relevantHashes keywordTable armas hashes keyword)
    | None => Ask
    end ∧
  ∀ answer,
    normalise redoMaybes answer =
      match answer with
      | Some MaybeYes => if redoMaybes then None else Some Yes
      | Some MaybeNo => if redoMaybes then None else Some No
      | Some Yes => Some Yes
      | Some No => Some No
      | None => None
      end.
Proof.
  intros t1 normalised.
  assert (Hrel : relevantAnswers redoMaybes keywordTable t1 armas hashes
                   keyword =
                 normalised <$>
                   relevantHashes keywordTable armas hashes keyword).
  { unfold t1. rewrite relevantAnswers_each_addName.
    apply relevantAnswers_relevantHashes. }
  split_and!.
  - unfold answers, t1. apply list_fmap_ext. intros i hash _.
    by rewrite remembered_each_addName.
  - exact Hrel.
  - unfold verdictOf. by rewrite Hrel.
  - by intros [[]|].
Qed.

(** ** Import merge *)

Lemma elem_of_foldl_Set_add (l acc : list string) (x : string) :
  x ∈ foldl Set_add acc l ↔ x ∈ acc ∨ x ∈ l.
Proof.
  revert acc. induction l as [|y l IH]; intros acc; simpl.
  - rewrite elem_of_nil. tauto.
  - rewrite IH, elem_of_cons. unfold Set_add.
    destruct (decide (y ∈ acc)) as [Hy|Hy].
    + split; [tauto|]. intros [?|[->|?]]; tauto.
    + rewrite elem_of_app, list_elem_of_singleton. tauto.
Qed.

Lemma NoDup_foldl_Set_add (l acc : list string) :
  NoDup acc → NoDup (foldl Set_add acc l).
Proof.
  revert acc. induction l as [|y l IH]; intros acc Hacc; simpl; [done|].
  apply IH. unfold Set_add. destruct (decide (y ∈ acc)) as [Hy|Hy]; [done|].
  apply NoDup_app. split_and!; [done| |apply NoDup_singleton].
  intros x Hx Hxy. apply list_elem_of_singleton in Hxy. by subst.
Qed.

Lemma foldl_Set_add_fresh (l acc : list string) :
  NoDup (acc ++ l) → foldl Set_add acc l = acc ++ l.
Proof.
  revert acc. induction l as [|y l IH]; intros acc Hnd; simpl.
  - by rewrite app_nil_r.
  - unfold Set_add at 2. rewrite decide_False.
    + rewrite IH; rewrite <- app_assoc; done.
    + apply NoDup_app in Hnd. destruct Hnd as (_ & Hdisj & _).
      intros Hy. apply (Hdisj y Hy). by left.
Qed.

Lemma foldl_Set_add_seen (l acc : list string) :
  (∀ x, x ∈ l → x ∈ acc) → foldl Set_add acc l = acc.
Proof.
  induction l as [|y l IH]; intros Hsub; simpl; [done|].
  unfold Set_add at 2. rewrite decide_True by (apply Hsub; by left).
  apply IH. intros x Hx. apply Hsub. by right.
Qed.

Lemma elem_of_Set_spread (l : list string) (x : string) :
  x ∈ Set_spread l ↔ x ∈ l.
Proof.
  unfold Set_spread. rewrite elem_of_foldl_Set_add, elem_of_nil. tauto.
Qed.

Lemma NoDup_Set_spread (l : list string) : NoDup (Set_spread l).
Proof. apply NoDup_foldl_Set_add, NoDup_nil_2. Qed.

Lemma Set_spread_NoDup (l : list string) : NoDup l → Set_spread l = l.
Proof. intros Hl. unfold Set_spread. by rewrite foldl_Set_add_fresh. Qed.

Lemma Set_spread_twice (l : list string) :
  NoDup l → Set_spread (l ++ l) = l.
Proof.
  intros Hl. unfold Set_spread. rewrite foldl_app.
  fold (Set_spread l). rewrite Set_spread_NoDup by done.
  by apply foldl_Set_add_seen.
Qed.

Lemma lookup_Object_assign (target source : gmap string Answer)
    (k : string) :
  Object_assign target source !! k =
    match source !! k with
    | Some a => Some a
    | None => target !! k
    end.
Proof.
  unfold Object_assign. rewrite lookup_union.
  by destruct (source !! k), (target !! k).
Qed.

(** What the loop of [importMemories] leaves under each hash. *)
Lemma lookup_merge (memories newMemories : gmap string Memory) (h : string) :
  merge memories newMemories !! h =
    match newMemories !! h with
    | None => memories !! h
    | Some new =>
        match memories !! h with
        | None => Some new
        | Some memory =>
            Some {| filenames :=
                      Set_spread (filenames memory ++ filenames new);
                    keywords :=
                      Object_assign (keywords new) (keywords memory) |}
        end
    end.
Proof.
  unfold merge. revert h.
  apply (map_fold_weak_ind
    (λ r (m : gmap string Memory), ∀ h, r !! h =
       match m !! h with
       | None => memories !! h
       | Some new =>
           match memories !! h with
           | None => Some new
           | Some memory =>
               Some {| filenames :=
                         Set_spread (filenames memory ++ filenames new);
                       keywords :=
                         Object_assign (keywords new) (keywords memory) |}
           end
       end)).
  - intros h. by rewrite lookup_empty.
  - intros i new m r Hi IH h.
    assert (Hr : r !! i = memories !! i) by (by rewrite IH, Hi).
    unfold merge_entry. rewrite Hr.
    destruct (decide (i = h)) as [->|Hne].
    + rewrite lookup_insert_eq.
      destruct (memories !! h); rewrite lookup_insert_eq; [done|].
      by destruct new.
    + rewrite (lookup_insert_ne m) by done. rewrite <- IH.
      destruct (memories !! i); by rewrite lookup_insert_ne.
Qed.

(** The store never holds a name twice under one hash: [addName] and the
    merge keep it so. *)
Lemma NoDup_storedNames_addName (hash nif : string) (t : gmap string Memory)
    (h : string) :
  NoDup (storedNames t h) → NoDup (storedNames (addName hash nif t) h).
Proof.
  rewrite storedNames_addName. intros Hnd.
  repeat case_decide; try done.
  apply NoDup_app. split_and!; [done| |apply NoDup_singleton].
  intros x Hx Hxy. apply list_elem_of_singleton in Hxy. by subst.
Qed.

Lemma NoDup_storedNames_merge (memories newMemories : gmap string Memory)
    (h : string) :
  NoDup (storedNames memories h) → NoDup (storedNames newMemories h) →
  NoDup (storedNames (merge memories newMemories) h).
Proof.
  unfold storedNames. rewrite lookup_merge.
  destruct (newMemories !! h) as [new|]; [|done].
  destruct (memories !! h) as [memory|]; simpl; [|done].
  intros _ _. apply NoDup_Set_spread.
Qed.

(** C6: the merge of [importMemories].  A hash unknown to the local store
    gets the imported memory as it is; a hash known to both gets the set
    union of the names (without repetition) and the imported answers
    overlaid by the local ones, so that the local answer stands wherever
    there is one; hashes absent from the import are kept.  Merging a store
    with itself gives the store back: the same hashes, the same answers
    and the same set of names under every hash, and the very same store
    when no name is stored twice under a hash (which [addName] and the
    merge maintain). *)
Theorem merge_spec (memories newMemories : gmap string Memory) :
  (∀ h, memories !! h = None →
        merge memories newMemories !! h = newMemories !! h) ∧
  (∀ h, newMemories !! h = None →
        merge memories newMemories !! h = memories !! h) ∧
  (∀ h memory new,
     memories !! h = Some memory → newMemories !! h = Some new →
     ∃ r, merge memories newMemories !! h = Some r ∧
       (∀ x, x ∈ filenames r ↔ x ∈ filenames memory ∨ x ∈ filenames new) ∧
       NoDup (filenames r) ∧
       (∀ k, keywords r !! k =
               match keywords memory !! k with
               | Some a => Some a
               | None => keywords new !! k
               end)) ∧
  sameStore (merge memories memories) memories ∧
  (map_Forall (λ _ m, NoDup (filenames m)) memories →
   merge memories memories = memories).
Proof.
  split_and!.
  - intros h Hh. rewrite lookup_merge, Hh. by destruct (newMemories !! h).
  - intros h Hh. by rewrite lookup_merge, Hh.
  - intros h memory new Hm Hn. rewrite lookup_merge, Hn, Hm.
    eexists. split; [reflexivity|]. simpl. split_and!.
    + intros x. by rewrite elem_of_Set_spread, elem_of_app.
    + apply NoDup_Set_spread.
    + intros k. apply lookup_Object_assign.
  - intros h. unfold storedKeywords, storedNames. rewrite lookup_merge.
    destruct (memories !! h) as [m|]; simpl; [|done].
    split_and!.
    + split; eauto.
    + unfold Object_assign. apply (idemp_L (∪)).
    + intros x. rewrite elem_of_Set_spread, elem_of_app. tauto.
  - intros Hset. apply map_eq. intros h. rewrite lookup_merge.
    destruct (memories !! h) as [m|] eqn:Hm; [|done].
    apply Hset in Hm. simpl in Hm. f_equal. destruct m as [fs ks]. simpl in *.
    f_equal.
    + by apply Set_spread_twice.
    + unfold Object_assign. apply (idemp_L (∪)).
Qed.

(** ** Learning step *)

Lemma hhashes_fmap (known : Answer) (g : string → Answered)
    (rh : list string) :
  hhashes known rh (g <$> rh) = filter (λ h, g h ≠ Some known) rh.
Proof.
  unfold hhashes. induction rh as [|h rh IH]; [done|].
  rewrite fmap_cons. cbn [zip_with]. rewrite !filter_cons. cbn [snd].
  destruct (decide (g h ≠ Some known)); [|done].
  rewrite fmap_cons. cbn [fst]. by rewrite IH.
Qed.

(** The list [hhashes] of the source is the list of ambiguous hashes. *)
Lemma hhashes_ambiguous (redoMaybes : bool)
    (keywordTable : gmap string KeywordInfo) (t : gmap string Memory)
    (armas : list Arma) (hashes : list string) (keyword : string)
    (known : Answer) :
  hhashes known (relevantHashes keywordTable armas hashes keyword)
    (relevantAnswers redoMaybes keywordTable t armas hashes keyword) =
  ambiguous redoMaybes keywordTable t armas hashes keyword known.
Proof. rewrite relevantAnswers_relevantHashes. apply hhashes_fmap. Qed.

Lemma relevantHashes_elem_of (keywordTable : gmap string KeywordInfo)
    (armas : list Arma) (hashes : list string) (keyword hash : string) :
  hash ∈ relevantHashes keywordTable armas hashes keyword → hash ∈ hashes.
Proof.
  unfold relevantHashes. destruct (keywordTable !! keyword).
  - apply relevantOnly_elem_of.
  - intros H. by apply elem_of_nil in H.
Qed.

Lemma remembered_addAnswer_all (keyword : string) (answer : Answer)
    (hashes : list string) (t : gmap string Memory) (h k : string) :
  remembered (addAnswer_all keyword answer hashes t) h k =
    if decide (h ∈ hashes ∧ keyword = k) then Some answer
    else remembered t h k.
Proof.
  unfold addAnswer_all. revert t.
  induction hashes as [|hash hashes IH]; intros t; cbn [foldl].
  - destruct (decide (h ∈ [] ∧ keyword = k)) as [[H _]|_]; [|done].
    by apply elem_of_nil in H.
  - rewrite IH, remembered_addAnswer.
    destruct (decide (h ∈ hashes ∧ keyword = k)) as [[Hin Hk]|Hn].
    + rewrite decide_True; [done|]. split; [by right|done].
    + destruct (decide (hash = h ∧ keyword = k)) as [[-> Hk]|Hn'].
      * rewrite decide_True; [done|]. split; [by left|done].
      * rewrite decide_False; [done|]. intros [Hin Hk].
        apply elem_of_cons in Hin. destruct Hin as [->|Hin]; tauto.
Qed.

Lemma storedNames_addAnswer_all (keyword : string) (answer : Answer)
    (hashes : list string) (t : gmap string Memory) (h : string) :
  storedNames (addAnswer_all keyword answer hashes t) h = storedNames t h.
Proof.
  unfold addAnswer_all. revert t.
  induction hashes as [|hash hashes IH]; intros t; simpl; [done|].
  rewrite IH. apply storedNames_addAnswer.
Qed.

(** C3: when the human answers [Yes] or [Maybe Yes] for an Exclusive
    keyword, the keyword is added to the record and the chosen answer is
    stored for that keyword under the hash of every component, relevant or
    not; no other answer and no name changes. *)
Theorem learn_Exclusive_positive (keywordTable : gmap string KeywordInfo)
    (armo : string) (hashes : list string)
    (relHashes : string → list string) (relAnswers : string → list Answered)
    (keyword : string) (info : KeywordInfo) (choice : Choice) (answer : Answer)
    (w : World)
    (Hinfo : keywordTable !! keyword = Some info)
    (Htype : type info = Exclusive)
    (Hchoice : answerOf choice = Some answer)
    (Hpos : answer = Yes ∨ answer = MaybeYes) :
  ∃ w', learn keywordTable armo hashes relHashes relAnswers
          (keyword, choice) w = (Returned, w') ∧
    addedKeywords w' = addedKeywords w ++ [(armo, keyword)] ∧
    memoryFile w' = memoryFile w ∧
    taggednifs w' = addAnswer_all keyword answer hashes (taggednifs w) ∧
    (∀ hash, hash ∈ hashes →
             remembered (taggednifs w') hash keyword = Some answer) ∧
    (∀ h k, h ∉ hashes ∨ k ≠ keyword →
            remembered (taggednifs w') h k = remembered (taggednifs w) h k) ∧
    (∀ h, storedNames (taggednifs w') h = storedNames (taggednifs w) h).
Proof.
  unfold learn. rewrite (keywordsAt_Some _ _ _ Hinfo), Htype.
  assert (Hw : ∃ w', ((Returned : Completion),
                 onMemories (addAnswer_all keyword answer hashes)
                   (AddKeyword armo keyword w)) = (Returned, w') ∧
                 addedKeywords w' = addedKeywords w ++ [(armo, keyword)] ∧
                 memoryFile w' = memoryFile w ∧
                 taggednifs w' =
                   addAnswer_all keyword answer hashes (taggednifs w)).
  { eexists. split; [reflexivity|]. by simpl. }
  destruct Hw as (w' & Heq & Hadded & Hfile & Ht).
  exists w'. split.
  { rewrite <- Heq.
    destruct Hpos as [->| ->], choice; simpl in Hchoice; try discriminate;
      reflexivity. }
  split; [done|]. split; [done|]. split; [done|]. rewrite Ht. split_and!.
  - intros hash Hin. rewrite remembered_addAnswer_all.
    by rewrite decide_True.
  - intros h k Hhk. rewrite remembered_addAnswer_all.
    rewrite decide_False; [done|]. intros [? ?]. destruct Hhk; by subst.
  - intros h. apply storedNames_addAnswer_all.
Qed.

(** The ambiguous hashes are the hashes of the ambiguous components. *)
Lemma ambiguous_components (redoMaybes : bool)
    (keywordTable : gmap string KeywordInfo) (t : gmap string Memory)
    (armas : list Arma) (hashes : list string) (keyword : string)
    (info : KeywordInfo) (known : Answer) :
  keywordTable !! keyword = Some info →
  ambiguous redoMaybes keywordTable t armas hashes keyword known =
    (ambiguousComponents redoMaybes t (irrelevantSlots info) armas hashes
       keyword known).*2.
Proof.
  intros Hinfo. unfold ambiguous, relevantHashes, ambiguousComponents.
  rewrite Hinfo. revert hashes.
  induction armas as [|arma armas IH]; intros [|hash hashes];
    try reflexivity.
  rewrite relevantOnly_cons. cbn [zip_with].
  destruct (isRelevant (irrelevantSlots info) arma) eqn:Hrel.
  - rewrite (filter_cons _ hash).
    destruct (decide (normalise redoMaybes (remembered t hash keyword) ≠
                      Some known)) as [Hn|Hn].
    + rewrite filter_cons_True by done. rewrite fmap_cons. simpl.
      by rewrite IH.
    + rewrite filter_cons_False by (by intros [_ ?]). apply IH.
  - rewrite filter_cons_False by (intros [? _]; simpl in *; congruence).
    apply IH.
Qed.

(** When every ARMA has a model path, the hash at the position of an ARMA
    is the hash of its nif. *)
Lemma components_hashed (sha1 : string → option string) (armas : list Arma)
    (hashes : list string) :
  (∀ arma, arma ∈ armas → arma_model arma ≠ "") →
  Promise_map sha1 (nifs_of armas) = Some hashes →
  length hashes = length armas ∧
  ∀ arma hash, (arma, hash) ∈ zip armas hashes →
               sha1 ("meshes\" +:+ arma_model arma) = Some hash.
Proof.
  intros Hmodels Hmap.
  assert (Hnifs : nifs_of armas =
                    (λ arma, "meshes\" +:+ arma_model arma) <$> armas).
  { unfold nifs_of. clear Hmap.
    induction armas as [|arma armas IH]; [done|].
    rewrite !fmap_cons, filter_cons_True by (apply Hmodels; by left).
    rewrite fmap_cons, IH; [done|]. intros a Ha. apply Hmodels. by right. }
  rewrite Hnifs in Hmap. apply mapM_Some in Hmap.
  split.
  - apply Forall2_length in Hmap. by rewrite length_fmap in Hmap.
  - intros arma hash Hin. apply list_elem_of_lookup in Hin.
    destruct Hin as [i Hi]. apply lookup_zip_Some in Hi.
    destruct Hi as [Harma Hhash].
    assert (Hnif : ((λ arma, "meshes\" +:+ arma_model arma) <$> armas) !! i =
                     Some ("meshes\" +:+ arma_model arma))
      by (by rewrite list_lookup_fmap, Harma).
    by apply (Forall2_lookup_lr _ _ _ _ _ _ Hmap Hnif Hhash).
Qed.

(** C2 (amended): when the human answers [No] or [Maybe No] for an
    Exclusive keyword, no keyword is added to the record, and the answer
    is attributed over the ambiguous components: the relevant components
    whose normalised answer was not [Yes], one entry for each component,
    so that a hash that two of them share counts twice.  With exactly one
    ambiguous component the chosen answer is stored for that keyword
    under its hash, and nothing else changes; with none, or with two or
    more, the memories are left as they were.  Every ARMA of the record
    has a model path here, so that each hash stands at the position of
    the ARMA it was computed for. *)
Theorem learn_Exclusive_negative (redoMaybes : bool)
    (keywordTable : gmap string KeywordInfo) (sha1 : string → option string)
    (armo : string) (armas : list Arma) (hashes : list string)
    (t : gmap string Memory) (keyword : string) (info : KeywordInfo)
    (choice : Choice) (answer : Answer) (w : World)
    (Hinfo : keywordTable !! keyword = Some info)
    (Htype : type info = Exclusive)
    (Hchoice : answerOf choice = Some answer)
    (Hneg : answer = No ∨ answer = MaybeNo)
    (Hmodels : ∀ arma, arma ∈ armas → arma_model arma ≠ "")
    (Hhash : Promise_map sha1 (nifs_of armas) = Some hashes) :
  let components :=
    ambiguousComponents redoMaybes t (irrelevantSlots info) armas hashes
      keyword Yes in
  length hashes = length armas ∧
  (∀ arma hash, (arma, hash) ∈ zip armas hashes →
                sha1 ("meshes\" +:+ arma_model arma) = Some hash) ∧
  ∃ w', learn keywordTable armo hashes
          (relevantHashes keywordTable armas hashes)
          (relevantAnswers redoMaybes keywordTable t armas hashes)
          (keyword, choice) w = (Returned, w') ∧
    addedKeywords w' = addedKeywords w ∧
    memoryFile w' = memoryFile w ∧
    (∀ arma hash,
       components = [(arma, hash)] →
       taggednifs w' = addAnswer keyword hash answer (taggednifs w) ∧
       remembered (taggednifs w') hash keyword = Some answer ∧
       (∀ h k, h ≠ hash ∨ k ≠ keyword →
          remembered (taggednifs w') h k = remembered (taggednifs w) h k)) ∧
    (length components ≠ 1 → taggednifs w' = taggednifs w).
Proof.
  intros components.
  destruct (components_hashed sha1 armas hashes Hmodels Hhash)
    as [Hlen Hreal].
  split; [exact Hlen|]. split; [exact Hreal|].
  unfold learn. rewrite (keywordsAt_Some _ _ _ Hinfo), Htype, hhashes_ambiguous.
  rewrite (ambiguous_components _ _ _ _ _ _ info) by done.
  fold components.
  exists (onMemories (addAnswer_single keyword answer components.*2) w).
  split.
  { destruct Hneg as [->| ->], choice; simpl in Hchoice; try discriminate;
      reflexivity. }
  split; [done|]. split; [done|]. simpl. split.
  - intros arma hash ->. simpl. split; [done|]. split.
    + rewrite remembered_addAnswer. by rewrite decide_True.
    + intros h k Hhk. rewrite remembered_addAnswer.
      rewrite decide_False; [done|]. intros [? ?]. destruct Hhk; by subst.
  - intros Hlen'. by destruct components as [|? [|? ?]].
Qed.

(** ** Frame properties of the loops of [patch] *)

Lemma forEach_cons {A S E : Type} (f : A → S → Outcome E * S) (x : A)
    (l : list A) (s : S) :
  forEach f (x :: l) s =
    match f x s with
    | (Returned, s') => forEach f l s'
    | (Thrown e, s') => (Thrown e, s')
    end.
Proof. reflexivity. Qed.

Lemma questions_cons (showMessageBox : nat → string → Choice)
    (keyword : string) (keywordsToAsk : list string) :
  questions showMessageBox (keyword :: keywordsToAsk) =
    (keyword, showMessageBox 0 keyword) ::
      questions (λ i, showMessageBox (S i)) keywordsToAsk.
Proof. reflexivity. Qed.

Lemma forEach_preserves {A S E : Type} (P : S → Prop)
    (f : A → S → Outcome E * S) :
  (∀ x s, P s → P (f x s).2) →
  ∀ l s, P s → P (forEach f l s).2.
Proof.
  intros Hf l. induction l as [|x l IH]; intros s Hs; simpl; [done|].
  specialize (Hf x s Hs). destruct (f x s) as [[|e] s']; simpl in *.
  - by apply IH.
  - done.
Qed.

Lemma forEach_preserves_elem {A S E : Type} (P : S → Prop)
    (f : A → S → Outcome E * S) (l : list A) :
  (∀ x s, x ∈ l → P s → P (f x s).2) →
  ∀ s, P s → P (forEach f l s).2.
Proof.
  induction l as [|x l IH]; intros Hf s Hs; simpl; [done|].
  pose proof (Hf x s (list_elem_of_here _ _) Hs) as Hx.
  destruct (f x s) as [[|e] s']; simpl in *; [|done].
  apply IH; [|done]. intros y s0 Hy. apply Hf. by right.
Qed.

Lemma relevancePass_frame (keywordTable : gmap string KeywordInfo)
    (armas : list Arma) (hashes keywordsToPatch : list string) (w : World) :
  sameButLog w
    (forEach (relevancePass keywordTable armas hashes) keywordsToPatch w).2.
Proof.
  apply (forEach_preserves (sameButLog w)); [|done].
  intros keyword s Hs. unfold relevancePass.
  destruct (keywordsAt keywordTable keyword); [| |done].
  - simpl. generalize (take (length hashes) armas). intros l.
    revert s Hs. induction l as [|arma l IH]; intros s Hs; simpl; [done|].
    apply IH. destruct Hs as (? & ? & ?). by repeat split.
  - apply (forEach_preserves (sameButLog w)); [|done].
    intros arma s0 (? & ? & ?). by repeat split.
Qed.

Lemma automatic_frame (keywordTable : gmap string KeywordInfo) (armo : string)
    (relevant : string → list Answered) (keywordsToPatch : list string)
    (s : World * list string) :
  let s' := (forEach (automatic keywordTable armo relevant)
               keywordsToPatch s).2 in
  taggednifs s'.1 = taggednifs s.1 ∧ memoryFile s'.1 = memoryFile s.1.
Proof.
  apply (forEach_preserves
           (λ s', taggednifs s'.1 = taggednifs s.1 ∧
                  memoryFile s'.1 = memoryFile s.1)); [|done].
  intros keyword s0 Hs0. unfold automatic, keywordsAt.
  destruct (keywordTable !! keyword) as [info|];
    [|by case_decide].
  by destruct (verdict (type info) (relevant keyword)).
Qed.

(** The automatic phase writes to the log and to the record only. *)
Lemma automaticPhase_frame (redoMaybes : bool)
    (keywordTable : gmap string KeywordInfo) (armo : Armo)
    (keywordsToPatch hashes : list string) (w : World) :
  let s := (automaticPhase redoMaybes keywordTable armo keywordsToPatch
              hashes w).2 in
  taggednifs s.1 = taggednifs w ∧ memoryFile s.1 = memoryFile w.
Proof.
  unfold automaticPhase.
  pose proof (relevancePass_frame keywordTable (armature armo) hashes
                keywordsToPatch w) as (Ht & Hf & _).
  destruct (forEach (relevancePass _ _ _) _ w) as [[|e] w1]; simpl in *;
    [|done].
  pose proof (automatic_frame keywordTable (editorid armo)
                (relevantAnswers redoMaybes keywordTable (taggednifs w)
                   (armature armo) hashes)
                keywordsToPatch (w1, [])) as [Ht' Hf'].
  simpl in *. by rewrite Ht', Hf'.
Qed.

(** A cancelled question leaves the world as it is. *)
Lemma learn_Cancel (keywordTable : gmap string KeywordInfo) (armo : string)
    (hashes : list string) (relHashes : string → list string)
    (relAnswers : string → list Answered) (keyword : string) (w : World) :
  (learn keywordTable armo hashes relHashes relAnswers
     (keyword, Choice_Cancel) w).2 = w ∧
  (learn keywordTable armo hashes relHashes relAnswers
     (keyword, Choice_Cancel) w).1 ≠ Returned.
Proof.
  unfold learn, keywordsAt. destruct (keywordTable !! keyword) as [info|];
    [|by case_decide].
  by destruct (type info).
Qed.

(** The learning never touches the memory file. *)
Lemma learn_memoryFile (keywordTable : gmap string KeywordInfo)
    (armo : string) (hashes : list string) (relHashes : string → list string)
    (relAnswers : string → list Answered) (q : string * Choice) (w : World) :
  memoryFile (learn keywordTable armo hashes relHashes relAnswers q w).2 =
    memoryFile w.
Proof.
  unfold learn, keywordsAt. destruct q as [keyword choice].
  destruct (keywordTable !! keyword) as [info|];
    [|by case_decide].
  by destruct (type info), choice.
Qed.

(** C10: until a human answer is learned, [patch] leaves the [keywords]
    field stored under every hash as it was: [addName] keeps it (and
    creates an unknown hash with no answer); so does the recording of the
    names of a record; the automatic phase, whatever its verdicts, leaves
    the memories untouched altogether; and a run of [patch] changes a
    stored answer only if a question was put to the human and answered
    with something else than [Cancel].  The import merge works on the
    memory file and leaves the memories of the process alone. *)
Theorem answers_change_only_by_learning (redoMaybes : bool)
    (keywordTable : gmap string KeywordInfo) (sha1 : string → option string)
    (showMessageBox : nat → string → Choice)
    (viewer : list string → Settled) (armo : Armo)
    (keywordsToPatch hashes : list string) (w : World)
    (hash nif : string) (t : gmap string Memory)
    (selected : option (gmap string Memory)) (h : string) :
  storedKeywords (addName hash nif t) h = storedKeywords t h ∧
  storedKeywords (taggednifs (recordNames armo hashes w)) h =
    storedKeywords (taggednifs w) h ∧
  taggednifs (automaticPhase redoMaybes keywordTable armo keywordsToPatch
                hashes w).2.1 = taggednifs w ∧
  (storedKeywords
     (taggednifs (patch redoMaybes keywordTable sha1 showMessageBox viewer armo
                    keywordsToPatch w).2) h = storedKeywords (taggednifs w) h ∨
   ∃ keyword,
     keywordsToAsk redoMaybes keywordTable sha1 armo keywordsToPatch w !! 0 =
       Some keyword ∧
     showMessageBox 0 keyword ≠ Choice_Cancel) ∧
  taggednifs (importMemories selected w) = taggednifs w.
Proof.
  split; [apply storedKeywords_addName|].
  split; [apply storedKeywords_each_addName|].
  split; [apply automaticPhase_frame|].
  split; [|by destruct selected].
  unfold patch, keywordsToAsk.
  case_bool_decide; [by left|].
  destruct (Promise_map sha1 _) as [hs|]; [|by left].
  unfold decideAndLearn.
  set (w1 := recordNames armo hs (logMessage (Checking (editorid armo)) w)).
  assert (Hw1 : storedKeywords (taggednifs w1) h = storedKeywords (taggednifs w) h)
    by apply storedKeywords_each_addName.
  pose proof (automaticPhase_frame redoMaybes keywordTable armo
                keywordsToPatch hs w1) as [Ht _].
  destruct (automaticPhase _ _ _ _ _ w1) as [[|e] [w2 ask]]; simpl in *.
  2:{ left. by rewrite Ht. }
  unfold askAndLearn. case_bool_decide; [left; simpl; by rewrite Ht|].
  destruct ask as [|keyword ask]; [done|].
  destruct (decide (showMessageBox 0 keyword = Choice_Cancel)) as [Hc|Hc].
  - left. rewrite questions_cons, forEach_cons, Hc.
    pose proof (learn_Cancel keywordTable (editorid armo) hs
                  (relevantHashes keywordTable (armature armo) hs)
                  (relevantAnswers redoMaybes keywordTable (taggednifs w1)
                     (armature armo) hs) keyword w2) as [Hw2 Hthrown].
    destruct (learn _ _ _ _ _ _ w2) as [[|e] w3]; simpl in *; [done|].
    subst w3. by rewrite Ht.
  - right. by exists keyword.
Qed.

(** C7 (amended): when the hashing of one nif of a record fails, [patch]
    logs the error and returns normally, and it has changed nothing else:
    no name is recorded, not even for the nifs whose hashing succeeded, no
    keyword is added and the memory file is not written. *)
Theorem patch_hash_failure (redoMaybes : bool)
    (keywordTable : gmap string KeywordInfo) (sha1 : string → option string)
    (showMessageBox : nat → string → Choice)
    (viewer : list string → Settled) (armo : Armo)
    (keywordsToPatch : list string) (w : World) (nif : string)
    (Hnif : nif ∈ nifs_of (armature armo))
    (Hfail : sha1 nif = None) :
  ∃ w', patch redoMaybes keywordTable sha1 showMessageBox viewer armo
          keywordsToPatch w = (Returned, w') ∧
    logged w' = logged w ++ [Checking (editorid armo); ErrorOpeningNif] ∧
    taggednifs w' = taggednifs w ∧
    memoryFile w' = memoryFile w ∧
    addedKeywords w' = addedKeywords w.
Proof.
  unfold patch.
  rewrite bool_decide_eq_false_2.
  2:{ intros Hlen. apply nil_length_inv in Hlen. rewrite Hlen in Hnif.
      by apply elem_of_nil in Hnif. }
  assert (Hmap : Promise_map sha1 (nifs_of (armature armo)) = None).
  { apply mapM_None, Exists_exists. by exists nif. }
  rewrite Hmap. eexists. split; [reflexivity|]. simpl.
  by rewrite <- app_assoc.
Qed.

(** ** The dialog and the learning loop *)

Lemma elem_of_questions (showMessageBox : nat → string → Choice)
    (asked : list string) (keyword : string) (choice : Choice) :
  (keyword, choice) ∈ questions showMessageBox asked ↔
  ∃ j, asked !! j = Some keyword ∧ choice = showMessageBox j keyword.
Proof.
  unfold questions. rewrite list_elem_of_lookup. split.
  - intros (j & Hj). apply lookup_zip_Some in Hj. destruct Hj as [Hk Hc].
    rewrite list_lookup_imap, Hk in Hc. simpl in Hc.
    exists j. split; [done|congruence].
  - intros (j & Hk & ->). exists j. apply lookup_zip_Some.
    split; [done|]. by rewrite list_lookup_imap, Hk.
Qed.

Lemma storedNames_learn (keywordTable : gmap string KeywordInfo)
    (armo : string) (hashes : list string) (relHashes : string → list string)
    (relAnswers : string → list Answered) (q : string * Choice) (w : World)
    (h : string) :
  storedNames
    (taggednifs (learn keywordTable armo hashes relHashes relAnswers q w).2) h =
  storedNames (taggednifs w) h.
Proof.
  unfold learn, keywordsAt. destruct q as [keyword choice].
  destruct (keywordTable !! keyword) as [info|];
    [|by case_decide].
  destruct (type info), choice; simpl;
    try done; try apply storedNames_addAnswer_all;
    unfold addAnswer_single;
    match goal with
    | |- context [hhashes ?a ?b ?c] => destruct (hhashes a b c) as [|? [|? ?]]
    end; try done; apply storedNames_addAnswer.
Qed.

(** Learning about one keyword leaves the answers and the tags of every
    other keyword alone. *)
Lemma learn_other_keyword (keywordTable : gmap string KeywordInfo)
    (armo : string) (hashes : list string) (relHashes : string → list string)
    (relAnswers : string → list Answered) (q : string * Choice) (w : World)
    (k : string) :
  q.1 ≠ k →
  let w' := (learn keywordTable armo hashes relHashes relAnswers q w).2 in
  (∀ h, remembered (taggednifs w') h k = remembered (taggednifs w) h k) ∧
  (∀ a, (a, k) ∈ addedKeywords w' → (a, k) ∈ addedKeywords w).
Proof.
  destruct q as [keyword choice]. simpl. intros Hne. unfold learn, keywordsAt.
  destruct (keywordTable !! keyword) as [info|];
    [|by case_decide].
  assert (Hall : ∀ answer h,
            remembered (addAnswer_all keyword answer hashes (taggednifs w)) h k
            = remembered (taggednifs w) h k).
  { intros answer h. rewrite remembered_addAnswer_all.
    rewrite decide_False; [done|]. by intros [_ ?]. }
  assert (Hone : ∀ answer hh h,
            remembered (addAnswer_single keyword answer hh (taggednifs w)) h k
            = remembered (taggednifs w) h k).
  { intros answer hh h. destruct hh as [|? [|? ?]]; simpl; try done.
    rewrite remembered_addAnswer. rewrite decide_False; [done|].
    by intros [_ ?]. }
  destruct (type info), choice; simpl; split; try done;
    try (intros h; apply Hall); try (intros h; apply Hone).
  all: intros a Ha; apply elem_of_app in Ha; destruct Ha as [Ha|Ha];
    [done|]; apply list_elem_of_singleton in Ha; congruence.
Qed.

(** The first cancelled question ends the loop with "Cancelled by user". *)
Lemma forEach_learn_thrown (keywordTable : gmap string KeywordInfo)
    (armo : string) (hashes : list string) (relHashes : string → list string)
    (relAnswers : string → list Answered) (qs : list (string * Choice))
    (w : World) (k : string) :
  (∀ q, q ∈ qs → is_Some (keywordTable !! q.1)) →
  (k, Choice_Cancel) ∈ qs →
  (forEach (learn keywordTable armo hashes relHashes relAnswers) qs w).1 =
    Thrown CancelledByUser.
Proof.
  revert w. induction qs as [|q qs IH]; intros w Hknown Hin.
  - by apply elem_of_nil in Hin.
  - rewrite forEach_cons.
    destruct (Hknown q) as [info Hinfo]; [by left|].
    destruct q as [keyword choice]. simpl in Hinfo.
    destruct (decide (choice = Choice_Cancel)) as [->|Hc].
    + unfold learn. rewrite (keywordsAt_Some _ _ _ Hinfo). by destruct (type info).
    + assert (Hret : ∃ w1, learn keywordTable armo hashes relHashes relAnswers
                             (keyword, choice) w = (Returned, w1)).
      { unfold learn. rewrite (keywordsAt_Some _ _ _ Hinfo).
        destruct (type info), choice; eauto;
          done. }
      destruct Hret as [w1 ->]. apply IH.
      * intros q Hq. apply Hknown. by right.
      * apply elem_of_cons in Hin. destruct Hin as [Heq|Hin]; [|done].
        congruence.
Qed.

(** What the automatic loop asks about, and what it tags. *)
Lemma automatic_asked (keywordTable : gmap string KeywordInfo) (armo : string)
    (relevant : string → list Answered) (keywordsToPatch : list string)
    (s : World * list string) (k : string) :
  k ∈ (forEach (automatic keywordTable armo relevant) keywordsToPatch s).2.2 →
  k ∈ s.2 ∨
  ∃ info, keywordTable !! k = Some info ∧
          verdict (type info) (relevant k) = Ask.
Proof.
  apply (forEach_preserves
           (λ s', k ∈ s'.2 → k ∈ s.2 ∨
              ∃ info, keywordTable !! k = Some info ∧
                      verdict (type info) (relevant k) = Ask)); [|by left].
  intros keyword s0 Hs0. unfold automatic, keywordsAt.
  destruct (keywordTable !! keyword) as [info|] eqn:Hinfo;
    [|by case_decide].
  destruct (verdict (type info) (relevant keyword)) eqn:Hv; simpl; try done.
  intros Hin. apply elem_of_app in Hin. destruct Hin as [Hin|Hin]; [auto|].
  apply list_elem_of_singleton in Hin. subst k. right. eauto.
Qed.

Lemma automatic_added (keywordTable : gmap string KeywordInfo) (armo : string)
    (relevant : string → list Answered) (keywordsToPatch : list string)
    (s : World * list string) (a k : string) :
  (a, k) ∈ addedKeywords
             (forEach (automatic keywordTable armo relevant)
                keywordsToPatch s).2.1 →
  (a, k) ∈ addedKeywords s.1 ∨
  ∃ info, keywordTable !! k = Some info ∧
          verdict (type info) (relevant k) = Apply.
Proof.
  apply (forEach_preserves
           (λ s', (a, k) ∈ addedKeywords s'.1 →
              (a, k) ∈ addedKeywords s.1 ∨
              ∃ info, keywordTable !! k = Some info ∧
                      verdict (type info) (relevant k) = Apply)); [|by left].
  intros keyword s0 Hs0. unfold automatic, keywordsAt.
  destruct (keywordTable !! keyword) as [info|] eqn:Hinfo;
    [|by case_decide].
  destruct (verdict (type info) (relevant keyword)) eqn:Hv; simpl; try done.
  intros Hin. apply elem_of_app in Hin. destruct Hin as [Hin|Hin]; [auto|].
  apply list_elem_of_singleton in Hin. inversion Hin; subst. right. eauto.
Qed.

Lemma automaticPhase_asked (redoMaybes : bool)
    (keywordTable : gmap string KeywordInfo) (armo : Armo)
    (keywordsToPatch hashes : list string) (w : World) (k : string) :
  k ∈ (automaticPhase redoMaybes keywordTable armo keywordsToPatch
         hashes w).2.2 →
  ∃ info, keywordTable !! k = Some info ∧
    verdict (type info)
      (relevantAnswers redoMaybes keywordTable (taggednifs w)
         (armature armo) hashes k) = Ask.
Proof.
  unfold automaticPhase.
  destruct (forEach (relevancePass _ _ _) _ w) as [[|e] w1]; simpl.
  - intros Hk. apply automatic_asked in Hk. destruct Hk as [Hk|Hk]; [|done].
    by apply elem_of_nil in Hk.
  - intros Hk. by apply elem_of_nil in Hk.
Qed.

Lemma automaticPhase_added (redoMaybes : bool)
    (keywordTable : gmap string KeywordInfo) (armo : Armo)
    (keywordsToPatch hashes : list string) (w : World) (a k : string) :
  (a, k) ∈ addedKeywords
             (automaticPhase redoMaybes keywordTable armo keywordsToPatch
                hashes w).2.1 →
  (a, k) ∈ addedKeywords w ∨
  ∃ info, keywordTable !! k = Some info ∧
    verdict (type info)
      (relevantAnswers redoMaybes keywordTable (taggednifs w)
         (armature armo) hashes k) = Apply.
Proof.
  unfold automaticPhase.
  pose proof (relevancePass_frame keywordTable (armature armo) hashes
                keywordsToPatch w) as (_ & _ & Hadd).
  destruct (forEach (relevancePass _ _ _) _ w) as [[|e] w1]; simpl in *.
  - intros Hk. apply automatic_added in Hk. simpl in Hk.
    by rewrite Hadd in Hk.
  - rewrite Hadd. auto.
Qed.

Lemma sublist_elem_of {A : Type} (l k : list A) (x : A) :
  sublist l k → x ∈ l → x ∈ k.
Proof. intros Hsub Hx. by apply (sublist_subseteq _ _ Hsub). Qed.

Lemma automatic_sublists (keywordTable : gmap string KeywordInfo)
    (armo : string) (relevant : string → list Answered)
    (keywordsToPatch : list string) (s : World * list string) :
  let v k := match keywordTable !! k with
             | Some info => verdict (type info) (relevant k)
             | None => Ask
             end in
  let s' := (forEach (automatic keywordTable armo relevant)
               keywordsToPatch s).2 in
  ∃ la lk,
    addedKeywords s'.1 = addedKeywords s.1 ++ ((λ k, (armo, k)) <$> la) ∧
    s'.2 = s.2 ++ lk ∧
    sublist la keywordsToPatch ∧ sublist lk keywordsToPatch ∧
    (∀ k, k ∈ la → v k = Apply) ∧ (∀ k, k ∈ lk → v k = Ask).
Proof.
  intros v. revert s.
  induction keywordsToPatch as [|k ks IH]; intros [w ask]; cbv zeta.
  - exists [], []. simpl. rewrite !app_nil_r. split_and!; try done.
    all: by intros ? ?%elem_of_nil.
  - rewrite forEach_cons.
    destruct (keywordTable !! k) as [info|] eqn:Hk.
    2:{ assert (Hstep : ∃ e, automatic keywordTable armo relevant k (w, ask) =
                  (Thrown e, (w, ask))).
        { unfold automatic, keywordsAt. rewrite Hk. case_decide; eauto. }
        destruct Hstep as [e Hstep].
        rewrite Hstep. exists [], []. simpl. rewrite !app_nil_r.
        split_and!; try done; try apply sublist_nil_l.
        all: by intros ? ?%elem_of_nil. }
    assert (Hv : v k = verdict (type info) (relevant k))
      by (unfold v; by rewrite Hk).
    destruct (verdict (type info) (relevant k)) eqn:Hverdict.
    + assert (Hstep : automatic keywordTable armo relevant k (w, ask) =
                (Returned,
                 (AddKeyword armo k
                    (logMessage match type info with
                                | Inclusive => OneKnownToBe k
                                | Exclusive => AllKnownToBe k
                                end w), ask)))
        by (unfold automatic; by rewrite (keywordsAt_Some _ _ _ Hk), Hverdict).
      rewrite Hstep.
      destruct (IH (AddKeyword armo k
                  (logMessage match type info with
                              | Inclusive => OneKnownToBe k
                              | Exclusive => AllKnownToBe k
                              end w), ask))
        as (la & lk & Hadd & Hask & Hsa & Hsk & Hva & Hvk).
      exists (k :: la), lk. simpl in *. split_and!.
      * rewrite Hadd. by rewrite <- app_assoc.
      * done.
      * by apply sublist_skip.
      * by apply sublist_cons.
      * intros k' Hk'. apply elem_of_cons in Hk'.
        destruct Hk' as [->|?]; auto.
      * done.
    + assert (Hstep : automatic keywordTable armo relevant k (w, ask) =
                (Returned, (logMessage (OneKnownToNotBe k) w, ask)))
        by (unfold automatic; by rewrite (keywordsAt_Some _ _ _ Hk), Hverdict).
      rewrite Hstep.
      destruct (IH (logMessage (OneKnownToNotBe k) w, ask))
        as (la & lk & Hadd & Hask & Hsa & Hsk & Hva & Hvk).
      exists la, lk. simpl in *. split_and!; try done;
        by apply sublist_cons.
    + assert (Hstep : automatic keywordTable armo relevant k (w, ask) =
                (Returned, (w, ask ++ [k])))
        by (unfold automatic; by rewrite (keywordsAt_Some _ _ _ Hk), Hverdict).
      rewrite Hstep.
      destruct (IH (w, ask ++ [k]))
        as (la & lk & Hadd & Hask & Hsa & Hsk & Hva & Hvk).
      exists la, (k :: lk). simpl in *. split_and!.
      * done.
      * rewrite Hask. by rewrite <- app_assoc.
      * by apply sublist_cons.
      * by apply sublist_skip.
      * done.
      * intros k' Hk'. apply elem_of_cons in Hk'.
        destruct Hk' as [->|?]; auto.
Qed.

Lemma automaticPhase_asked_sublist (redoMaybes : bool)
    (keywordTable : gmap string KeywordInfo) (armo : Armo)
    (keywordsToPatch hashes : list string) (w : World) :
  sublist (automaticPhase redoMaybes keywordTable armo keywordsToPatch
             hashes w).2.2 keywordsToPatch.
Proof.
  unfold automaticPhase.
  destruct (forEach (relevancePass _ _ _) _ w) as [[|e] w1]; simpl;
    [|apply sublist_nil_l].
  destruct (automatic_sublists keywordTable (editorid armo)
              (relevantAnswers redoMaybes keywordTable (taggednifs w)
                 (armature armo) hashes) keywordsToPatch (w1, []))
    as (la & lk & _ & -> & _ & Hsub & _).
  done.
Qed.

Lemma forEach_app {A S E : Type} (f : A → S → Outcome E * S)
    (l1 l2 : list A) (s : S) :
  forEach f (l1 ++ l2) s =
    match forEach f l1 s with
    | (Returned, s1) => forEach f l2 s1
    | (Thrown e, s1) => (Thrown e, s1)
    end.
Proof.
  revert s. induction l1 as [|x l1 IH]; intros s; [done|].
  rewrite <- app_comm_cons, !forEach_cons.
  destruct (f x s) as [[|e] s1]; [apply IH|done].
Qed.

(** The questions in front of the [i]-th one, the [i]-th one, and the
    rest. *)
Lemma questions_app (showMessageBox : nat → string → Choice)
    (l1 l2 : list string) :
  questions showMessageBox (l1 ++ l2) =
    questions showMessageBox l1 ++
    questions (λ j, showMessageBox (length l1 + j)) l2.
Proof.
  unfold questions. rewrite imap_app.
  apply zip_with_app. by rewrite length_imap.
Qed.

Lemma questions_split (showMessageBox : nat → string → Choice)
    (asked : list string) (i : nat) (k : string) :
  asked !! i = Some k →
  ∃ rest,
    questions showMessageBox asked =
      questions showMessageBox (take i asked) ++
      (k, showMessageBox i k) :: rest.
Proof.
  intros Hi. pose proof (lookup_lt_Some _ _ _ Hi) as Hlt.
  assert (Hsplit : questions showMessageBox asked =
            questions showMessageBox (take i asked ++ k :: drop (S i) asked))
    by (by rewrite take_drop_middle).
  rewrite Hsplit, questions_app, questions_cons.
  rewrite length_take, Nat.min_l by lia. rewrite Nat.add_0_r. eauto.
Qed.

Lemma questions_fst (showMessageBox : nat → string → Choice)
    (asked : list string) :
  (questions showMessageBox asked).*1 = asked.
Proof. unfold questions. apply fst_zip. by rewrite length_imap. Qed.

(** Questions that are all answered get the learning loop through. *)
Lemma forEach_learn_answered (keywordTable : gmap string KeywordInfo)
    (armo : string) (hashes : list string) (relHashes : string → list string)
    (relAnswers : string → list Answered) (qs : list (string * Choice))
    (w : World) :
  (∀ q, q ∈ qs → is_Some (keywordTable !! q.1) ∧ q.2 ≠ Choice_Cancel) →
  (forEach (learn keywordTable armo hashes relHashes relAnswers) qs w).1 =
    Returned.
Proof.
  revert w. induction qs as [|[k choice] qs IH]; intros w Hqs; [done|].
  rewrite forEach_cons.
  destruct (Hqs (k, choice)) as [[info Hinfo] Hchoice]; [by left|].
  simpl in Hinfo, Hchoice.
  assert (Hret : ∃ w1, learn keywordTable armo hashes relHashes relAnswers
                         (k, choice) w = (Returned, w1)).
  { unfold learn. rewrite (keywordsAt_Some _ _ _ Hinfo).
    destruct (type info), choice; eauto; done. }
  destruct Hret as [w1 ->]. apply IH. intros q Hq. apply Hqs. by right.
Qed.

(** The learning loop leaves the answers and the tags of the keywords it
    is not asked about alone. *)
Lemma forEach_learn_others (keywordTable : gmap string KeywordInfo)
    (armo : string) (hashes : list string) (relHashes : string → list string)
    (relAnswers : string → list Answered) (qs : list (string * Choice))
    (w : World) (k : string) :
  k ∉ qs.*1 →
  let w' := (forEach (learn keywordTable armo hashes relHashes relAnswers)
               qs w).2 in
  (∀ h, remembered (taggednifs w') h k = remembered (taggednifs w) h k) ∧
  (∀ a, (a, k) ∈ addedKeywords w' → (a, k) ∈ addedKeywords w).
Proof.
  intros Hk.
  apply (forEach_preserves_elem
           (λ s, (∀ h, remembered (taggednifs s) h k =
                       remembered (taggednifs w) h k) ∧
                 (∀ a, (a, k) ∈ addedKeywords s → (a, k) ∈ addedKeywords w)));
    [|done].
  intros q s Hq [Hrem Hadd].
  assert (Hne : q.1 ≠ k).
  { intros <-. apply Hk. apply list_elem_of_fmap. eauto. }
  destruct (learn_other_keyword keywordTable armo hashes relHashes
              relAnswers q s k Hne) as [Hrem' Hadd'].
  split.
  - intros h. by rewrite Hrem'.
  - intros a Ha. by apply Hadd, Hadd'.
Qed.

(** The first cancelled question ends [patch]: nothing is learned from it
    or from the questions after it. *)
Lemma patch_cancel_core (redoMaybes : bool)
    (keywordTable : gmap string KeywordInfo) (sha1 : string → option string)
    (showMessageBox : nat → string → Choice)
    (viewer : list string → Settled) (armo : Armo)
    (keywordsToPatch : list string) (w : World) (i : nat) (k : string)
    (Hasked : keywordsToAsk redoMaybes keywordTable sha1 armo
                keywordsToPatch w !! i = Some k)
    (Hcancel : showMessageBox i k = Choice_Cancel)
    (Hfirst : ∀ j kj,
       j < i →
       keywordsToAsk redoMaybes keywordTable sha1 armo keywordsToPatch w !! j =
         Some kj →
       showMessageBox j kj ≠ Choice_Cancel) :
  let asked := keywordsToAsk redoMaybes keywordTable sha1 armo
                 keywordsToPatch w in
  ∃ w', patch redoMaybes keywordTable sha1 showMessageBox viewer armo
          keywordsToPatch w = (Thrown CancelledByUser, w') ∧
    memoryFile w' = memoryFile w ∧
    (∀ k', k' ∉ take i asked →
       ∀ h, remembered (taggednifs w') h k' = remembered (taggednifs w) h k') ∧
    (∀ k', k' ∈ asked → k' ∉ take i asked →
       ∀ a, (a, k') ∈ addedKeywords w' → (a, k') ∈ addedKeywords w) ∧
    (NoDup keywordsToPatch →
       ∀ j kj, asked !! j = Some kj → showMessageBox j kj = Choice_Cancel →
               kj ∉ take i asked) ∧
    (NoDup keywordsToPatch →
     (∀ k', is_Some (keywordTable !! k') → k' = k) →
       (∀ a k', (a, k') ∈ addedKeywords w' → (a, k') ∈ addedKeywords w) ∧
       (∀ h k', remembered (taggednifs w') h k' =
                remembered (taggednifs w) h k')).
Proof.
  cbv zeta. revert Hasked Hfirst. unfold patch, keywordsToAsk.
  case_bool_decide; [done|].
  destruct (Promise_map sha1 _) as [hs|]; [|done].
  unfold decideAndLearn.
  remember (recordNames armo hs (logMessage (Checking (editorid armo)) w))
    as w1 eqn:Hw1.
  assert (Hw1t : taggednifs w1 =
                   each_addName hs (nifs_of (armature armo)) (taggednifs w))
    by (by subst w1).
  assert (Hw1f : memoryFile w1 = memoryFile w) by (by subst w1).
  assert (Hw1a : addedKeywords w1 = addedKeywords w) by (by subst w1).
  clear Hw1.
  pose proof (automaticPhase_frame redoMaybes keywordTable armo
                keywordsToPatch hs w1) as [Ht Hf].
  pose proof (automaticPhase_asked redoMaybes keywordTable armo
                keywordsToPatch hs w1) as Hknown.
  pose proof (automaticPhase_added redoMaybes keywordTable armo
                keywordsToPatch hs w1) as Hadded.
  pose proof (automaticPhase_asked_sublist redoMaybes keywordTable armo
                keywordsToPatch hs w1) as Hsub.
  destruct (automaticPhase _ _ _ _ _ w1) as [[|e] [w2 ask]]; simpl in *;
    [|done].
  intros Hasked Hfirst.
  unfold askAndLearn.
  rewrite bool_decide_eq_false_2.
  2:{ intros Hlen. apply nil_length_inv in Hlen. by subst ask. }
  set (f := learn keywordTable (editorid armo) hs
              (relevantHashes keywordTable (armature armo) hs)
              (relevantAnswers redoMaybes keywordTable (taggednifs w1)
                 (armature armo) hs)).
  destruct (questions_split showMessageBox ask i k Hasked) as [rest Hqs].
  rewrite Hqs, Hcancel, forEach_app.
  set (qs1 := questions showMessageBox (take i ask)).
  assert (Hbefore : ∀ q, q ∈ qs1 →
            ∃ j, j < i ∧ ask !! j = Some q.1 ∧ q.2 = showMessageBox j q.1).
  { intros [k' c] Hq. apply elem_of_questions in Hq.
    destruct Hq as (j & Hj & ->). apply lookup_take_Some in Hj.
    destruct Hj as [Hj Hlt]. exists j. done. }
  assert (Hret : (forEach f qs1 w2).1 = Returned).
  { apply forEach_learn_answered. intros q Hq.
    destruct (Hbefore q Hq) as (j & Hlt & Hj & Hc). split.
    - destruct (Hknown q.1) as (info & -> & _); [|done].
      apply list_elem_of_lookup. eauto.
    - rewrite Hc. by apply (Hfirst j). }
  assert (Hfile : memoryFile (forEach f qs1 w2).2 = memoryFile w2).
  { apply (forEach_preserves (λ s, memoryFile s = memoryFile w2)); [|done].
    intros q s Hs. unfold f. by rewrite learn_memoryFile. }
  pose proof (forEach_learn_others keywordTable (editorid armo) hs
                (relevantHashes keywordTable (armature armo) hs)
                (relevantAnswers redoMaybes keywordTable (taggednifs w1)
                   (armature armo) hs) qs1 w2) as Hothers.
  fold f in Hothers. cbv zeta in Hothers.
  destruct (forEach f qs1 w2) as [c w3]. simpl in Hret, Hfile, Hothers.
  subst c. rewrite forEach_cons.
  assert (Hthrow : f (k, Choice_Cancel) w3 = (Thrown CancelledByUser, w3)).
  { unfold f, learn. destruct (Hknown k) as (info & Hinfo & _).
    { apply list_elem_of_lookup. eauto. }
    rewrite (keywordsAt_Some _ _ _ Hinfo). by destruct (type info). }
  rewrite Hthrow. exists w3. split; [done|].
  split; [by rewrite Hfile, Hf|].
  assert (Hfst : qs1.*1 = take i ask) by apply questions_fst.
  assert (Hnodup : NoDup keywordsToPatch →
            ∀ j kj, ask !! j = Some kj → showMessageBox j kj = Choice_Cancel →
                    kj ∉ take i ask).
  { intros Hnodup j kj Hj Hc Hin.
    assert (Hnd : NoDup ask) by (by apply (sublist_NoDup ask keywordsToPatch)).
    apply list_elem_of_lookup in Hin. destruct Hin as [j' Hj'].
    apply lookup_take_Some in Hj'. destruct Hj' as [Hj' Hlt].
    pose proof (NoDup_lookup _ _ _ _ Hnd Hj' Hj). subst j'.
    by apply (Hfirst j kj). }
  assert (Hrems : ∀ k', k' ∉ take i ask →
            ∀ h, remembered (taggednifs w3) h k' =
                 remembered (taggednifs w) h k').
  { intros k' Hk' h. destruct (Hothers k') as [Hrem _]; [by rewrite Hfst|].
    rewrite Hrem, Ht, Hw1t. apply remembered_each_addName. }
  split_and!.
  - exact Hrems.
  - intros k' Hin Hk' a Ha.
    destruct (Hothers k') as [_ Hadd]; [by rewrite Hfst|].
    apply Hadd, Hadded in Ha. rewrite Hw1a in Ha.
    destruct Ha as [Ha|(info & Hinfo & Hv)]; [done|].
    destruct (Hknown k' Hin) as (info' & Hinfo' & Hv'). congruence.
  - exact Hnodup.
  - intros Hnd Hone.
    assert (Hnone : ∀ k', k' ∉ take i ask).
    { intros k' Hin. pose proof (subseteq_take i ask _ Hin) as Hin'.
      destruct (Hknown k' Hin') as (info & Hinfo & _).
      assert (k' = k) as -> by (apply Hone; eauto).
      by apply (Hnodup Hnd i k). }
    split.
    + intros a k' Ha.
      destruct (Hothers k') as [_ Hadd]; [rewrite Hfst; apply Hnone|].
      apply Hadd, Hadded in Ha. rewrite Hw1a in Ha.
      destruct Ha as [Ha|(info & Hinfo & Hv)]; [done|].
      assert (k' = k) as -> by (apply Hone; eauto).
      destruct (Hknown k) as (info' & Hinfo' & Hv').
      { apply list_elem_of_lookup. eauto. }
      congruence.
    + intros h k'. apply Hrems, Hnone.
Qed.

(** Every keyword [patch] asks about has a description in the table. *)
Lemma keywordsToAsk_described (redoMaybes : bool)
    (keywordTable : gmap string KeywordInfo) (sha1 : string → option string)
    (armo : Armo) (keywordsToPatch : list string) (w : World) (k : string) :
  k ∈ keywordsToAsk redoMaybes keywordTable sha1 armo keywordsToPatch w →
  is_Some (keywordTable !! k).
Proof.
  unfold keywordsToAsk.
  case_bool_decide; [by intros ?%elem_of_nil|].
  destruct (Promise_map sha1 _) as [hs|]; [|by intros ?%elem_of_nil].
  pose proof (automaticPhase_asked redoMaybes keywordTable armo
                keywordsToPatch hs
                (recordNames armo hs (logMessage (Checking (editorid armo)) w))
                k) as Hknown.
  destruct (automaticPhase _ _ _ _ _ _) as [[|e] [w2 ask]]; simpl in *;
    [|by intros ?%elem_of_nil].
  intros Hk. destruct (Hknown Hk) as (info & -> & _). done.
Qed.

(** Among the cancelled questions there is a first one. *)
Lemma first_cancelled (showMessageBox : nat → string → Choice)
    (asked : list string) (j : nat) (k : string) :
  asked !! j = Some k → showMessageBox j k = Choice_Cancel →
  ∃ i k0, i ≤ j ∧ asked !! i = Some k0 ∧
    showMessageBox i k0 = Choice_Cancel ∧
    ∀ j' kj, j' < i → asked !! j' = Some kj →
             showMessageBox j' kj ≠ Choice_Cancel.
Proof.
  intros Hj Hc.
  assert (Hbelow : ∀ n,
            (∀ j' kj, j' < n → asked !! j' = Some kj →
                      showMessageBox j' kj ≠ Choice_Cancel) ∨
            ∃ i k0, i < n ∧ asked !! i = Some k0 ∧
              showMessageBox i k0 = Choice_Cancel ∧
              ∀ j' kj, j' < i → asked !! j' = Some kj →
                       showMessageBox j' kj ≠ Choice_Cancel).
  { induction n as [|n [IH|(i & k0 & Hlt & Hrest)]].
    - left. intros j' kj Hlt. lia.
    - destruct (asked !! n) as [kn|] eqn:Hn.
      + destruct (decide (showMessageBox n kn = Choice_Cancel)) as [Hcn|Hcn].
        * right. exists n, kn. split; [lia|done].
        * left. intros j' kj Hlt Hj'.
          destruct (decide (j' = n)) as [->|Hne]; [congruence|].
          apply IH; [lia|done].
      + left. intros j' kj Hlt Hj'.
        destruct (decide (j' = n)) as [->|Hne]; [congruence|].
        apply IH; [lia|done].
    - right. exists i, k0. split; [lia|done]. }
  destruct (Hbelow (S j)) as [Hnone|(i & k0 & Hlt & Hrest)].
  - destruct (Hnone j k); [lia|done|done].
  - exists i, k0. split; [lia|done].
Qed.

(** C9 (amended): when a question of the record is answered [Cancel],
    [patch] throws "Cancelled by user" and does not write the memory
    file, which still holds what the earlier records saved.  Nothing is
    learned from the first cancelled question or from the questions after
    it: an answer is written only for the keywords asked about before
    that question, and a keyword that was asked about is added to the
    record only if it was asked about before that question.  When the
    list of keywords names no keyword twice, the cancelled keyword is not
    among those, so no answer is written for it and it is not added; and
    when moreover it is the only keyword of the table, as in the table
    of the source, the record gets no keyword at all and no answer
    changes.  (A list that names the keyword twice puts two questions on
    it, and what a [Yes] to the first has added and stored is not undone
    by cancelling the second.) *)
Theorem patch_cancel (redoMaybes : bool)
    (keywordTable : gmap string KeywordInfo) (sha1 : string → option string)
    (showMessageBox : nat → string → Choice)
    (viewer : list string → Settled) (armo : Armo)
    (keywordsToPatch : list string) (w : World) (j : nat) (k : string)
    (Hasked : keywordsToAsk redoMaybes keywordTable sha1 armo
                keywordsToPatch w !! j = Some k)
    (Hcancel : showMessageBox j k = Choice_Cancel) :
  let asked := keywordsToAsk redoMaybes keywordTable sha1 armo
                 keywordsToPatch w in
  ∃ w' i,
    patch redoMaybes keywordTable sha1 showMessageBox viewer armo
      keywordsToPatch w = (Thrown CancelledByUser, w') ∧
    memoryFile w' = memoryFile w ∧
    i ≤ j ∧
    (∃ k0, asked !! i = Some k0 ∧ showMessageBox i k0 = Choice_Cancel) ∧
    (∀ j' kj, j' < i → asked !! j' = Some kj →
              showMessageBox j' kj ≠ Choice_Cancel) ∧
    (∀ k', k' ∉ take i asked →
       ∀ h, remembered (taggednifs w') h k' = remembered (taggednifs w) h k') ∧
    (∀ k', k' ∈ asked → k' ∉ take i asked →
       ∀ a, (a, k') ∈ addedKeywords w' → (a, k') ∈ addedKeywords w) ∧
    (NoDup keywordsToPatch → k ∉ take i asked) ∧
    (NoDup keywordsToPatch →
     (∀ k', is_Some (keywordTable !! k') → k' = k) →
       (∀ a k', (a, k') ∈ addedKeywords w' → (a, k') ∈ addedKeywords w) ∧
       (∀ h k', remembered (taggednifs w') h k' =
                remembered (taggednifs w) h k')).
Proof.
  cbv zeta.
  destruct (first_cancelled showMessageBox _ j k Hasked Hcancel)
    as (i & k0 & Hle & Hi & Hc0 & Hfirst).
  destruct (patch_cancel_core redoMaybes keywordTable sha1 showMessageBox
              viewer armo keywordsToPatch w i k0 Hi Hc0 Hfirst)
    as (w' & Hw' & Hfile & Hrem & Hadd & Hnodup & Hone).
  exists w', i. split_and!; try done.
  - eauto.
  - intros Hnd. by apply (Hnodup Hnd j k).
  - intros Hnd Honly. apply Hone; [done|].
    intros k' Hk'. rewrite (Honly k' Hk'). symmetry. apply Honly.
    pose proof (keywordsToAsk_described redoMaybes keywordTable sha1 armo
                  keywordsToPatch w k0) as Hdesc.
    apply Hdesc. apply list_elem_of_lookup. eauto.
Qed.

(** A [patch] that returns has had no [Cancel] for an answer. *)
Lemma patch_returned_answered (redoMaybes : bool)
    (keywordTable : gmap string KeywordInfo) (sha1 : string → option string)
    (showMessageBox : nat → string → Choice)
    (viewer : list string → Settled) (armo : Armo)
    (keywordsToPatch : list string) (w : World) :
  (patch redoMaybes keywordTable sha1 showMessageBox viewer armo
     keywordsToPatch w).1 = Returned →
  ∀ j k, keywordsToAsk redoMaybes keywordTable sha1 armo keywordsToPatch w
           !! j = Some k →
         showMessageBox j k ≠ Choice_Cancel.
Proof.
  unfold patch, keywordsToAsk. intros Hret j k.
  case_bool_decide; [done|].
  destruct (Promise_map sha1 _) as [hs|]; [|done].
  unfold decideAndLearn in Hret.
  pose proof (automaticPhase_asked redoMaybes keywordTable armo
                keywordsToPatch hs
                (recordNames armo hs (logMessage (Checking (editorid armo)) w)))
    as Hknown.
  destruct (automaticPhase _ _ _ _ _ _) as [[|e] [w2 ask]]; simpl in *;
    [|done].
  intros Hj Hc. unfold askAndLearn in Hret.
  rewrite bool_decide_eq_false_2 in Hret.
  2:{ intros Hlen. apply nil_length_inv in Hlen. by subst ask. }
  pose proof (forEach_learn_thrown keywordTable (editorid armo) hs
                (relevantHashes keywordTable (armature armo) hs)
                (relevantAnswers redoMaybes keywordTable
                   (taggednifs
                      (recordNames armo hs
                         (logMessage (Checking (editorid armo)) w)))
                   (armature armo) hs)
                (questions showMessageBox ask) w2 k) as Hthrown.
  destruct (forEach _ (questions showMessageBox ask) w2) as [[|e] w3];
    simpl in *; [|done].
  discriminate Hthrown.
  - intros [k' c] Hq. apply elem_of_questions in Hq.
    destruct Hq as (j' & Hj' & _). simpl.
    destruct (Hknown k') as (info & -> & _); [|done].
    apply list_elem_of_lookup. eauto.
  - apply elem_of_questions. exists j. by rewrite Hc.
Qed.

(** C8 (amended): when [patch] has put at least one question to the human
    and no answer was [Cancel], the memory file holds the memories of the
    process as they are at that point, and with them the name of every
    nif of the record under its hash.  [patch] then returns normally,
    unless the viewer has failed; the file is written before the viewer
    is waited for. *)
Theorem patch_saves_after_learning (redoMaybes : bool)
    (keywordTable : gmap string KeywordInfo) (sha1 : string → option string)
    (showMessageBox : nat → string → Choice)
    (viewer : list string → Settled) (armo : Armo)
    (keywordsToPatch : list string) (w : World)
    (Hasked : keywordsToAsk redoMaybes keywordTable sha1 armo
                keywordsToPatch w ≠ [])
    (Hanswered : ∀ j k,
       keywordsToAsk redoMaybes keywordTable sha1 armo keywordsToPatch w !! j =
         Some k →
       showMessageBox j k ≠ Choice_Cancel) :
  let r := patch redoMaybes keywordTable sha1 showMessageBox viewer armo
             keywordsToPatch w in
  let w' := r.2 in
  memoryFile w' = taggednifs w' ∧
  (∀ nif hash, nif ∈ nifs_of (armature armo) → sha1 nif = Some hash →
               nif ∈ storedNames (memoryFile w') hash) ∧
  (r.1 = Returned ∨ r.1 = Thrown ViewerError).
Proof.
  cbv zeta. revert Hasked Hanswered. unfold patch, keywordsToAsk.
  case_bool_decide; [done|].
  destruct (Promise_map sha1 _) as [hs|] eqn:Hmap; [|done].
  unfold decideAndLearn.
  remember (recordNames armo hs (logMessage (Checking (editorid armo)) w))
    as w1 eqn:Hw1.
  assert (Hw1t : taggednifs w1 =
                   each_addName hs (nifs_of (armature armo)) (taggednifs w))
    by (by subst w1).
  clear Hw1.
  pose proof (automaticPhase_frame redoMaybes keywordTable armo
                keywordsToPatch hs w1) as [Ht _].
  pose proof (automaticPhase_asked redoMaybes keywordTable armo
                keywordsToPatch hs w1) as Hknown.
  destruct (automaticPhase _ _ _ _ _ w1) as [[|e] [w2 ask]]; simpl in *;
    [|done].
  intros Hasked Hanswered.
  unfold askAndLearn.
  rewrite bool_decide_eq_false_2.
  2:{ intros Hlen. by apply nil_length_inv in Hlen. }
  set (f := learn keywordTable (editorid armo) hs
              (relevantHashes keywordTable (armature armo) hs)
              (relevantAnswers redoMaybes keywordTable (taggednifs w1)
                 (armature armo) hs)).
  assert (Hnames : ∀ h,
            storedNames
              (taggednifs (forEach f (questions showMessageBox ask) w2).2) h =
            storedNames (taggednifs w2) h).
  { apply (forEach_preserves
             (λ s, ∀ h, storedNames (taggednifs s) h =
                        storedNames (taggednifs w2) h)); [|done].
    intros q s Hs h. unfold f. by rewrite storedNames_learn. }
  assert (Hret : (forEach f (questions showMessageBox ask) w2).1 = Returned).
  { apply forEach_learn_answered. intros [k c] Hq.
    apply elem_of_questions in Hq. destruct Hq as (j & Hj & ->). simpl. split.
    - destruct (Hknown k) as (info & -> & _); [|done].
      apply list_elem_of_lookup. eauto.
    - by apply Hanswered. }
  destruct (forEach f (questions showMessageBox ask) w2) as [c w3].
  simpl in Hret, Hnames. subst c. simpl. split; [done|]. split.
  - intros nif hash Hnif Hhash.
    apply list_elem_of_lookup in Hnif. destruct Hnif as [i Hi].
    apply mapM_Some in Hmap.
    destruct (Forall2_lookup_l _ _ _ _ _ Hmap Hi) as (hash' & Hhs & Hsha).
    assert (hash' = hash) by congruence. subst hash'.
    rewrite Hnames, Ht, Hw1t.
    by apply (each_addName_elem _ _ _ i).
  - destruct (viewer _); auto.
Qed.

(** ** The properties on concrete records *)

Ltac by_computation := apply (bool_decide_unpack _); vm_compute; exact I.

(** A record whose only ARMA is a helmet has no relevant answer for
    [SOS_Revealing]; [patch] gives it the keyword without asking. *)
Example patch_no_relevant_arma :
  (let r := patch false knownKeywords Scenario.readable
              (Scenario.always Choice_No)
              Scenario.closes Scenario.helm ["SOS_Revealing"]
              Scenario.nothing in
   (r.1, addedKeywords r.2)) = (Returned, [("Helm", "SOS_Revealing")]).
Proof. vm_compute. reflexivity. Qed.

(** The outfit when its first part is remembered as maybe revealing and
    its second part is not remembered: the rule reads one answer for each
    part, the unknown one included. *)
Example relevantAnswers_outfit :
  relevantAnswers false knownKeywords
    (each_addName ["h1"; "h2"] [Scenario.nifA; Scenario.nifB]
       Scenario.h1MaybeYes)
    (armature Scenario.outfit) ["h1"; "h2"] "SOS_Revealing" =
    [Some Yes; None] ∧
  relevantAnswers true knownKeywords
    (each_addName ["h1"; "h2"] [Scenario.nifA; Scenario.nifB]
       Scenario.h1MaybeYes)
    (armature Scenario.outfit) ["h1"; "h2"] "SOS_Revealing" =
    [None; None].
Proof. split; vm_compute; reflexivity. Qed.

Lemma merge_spec_witness :
  map_Forall (λ _ m, NoDup (filenames m)) Scenario.localStore ∧
  merge Scenario.localStore Scenario.localStore = Scenario.localStore ∧
  ∃ r, merge Scenario.localStore Scenario.importedStore !! "h1" = Some r ∧
       keywords r !! "K" = Some Yes.
Proof.
  assert (Hset : map_Forall (λ _ m, NoDup (filenames m)) Scenario.localStore)
    by by_computation.
  split; [exact Hset|].
  destruct (merge_spec Scenario.localStore Scenario.localStore)
    as (_ & _ & _ & _ & Hidem).
  split; [exact (Hidem Hset)|].
  destruct (merge_spec Scenario.localStore Scenario.importedStore)
    as (_ & _ & Hboth & _ & _).
  destruct (Hboth "h1" (mkMemory ["b"] ∅) (mkMemory ["a"] {[ "K" := Yes ]}))
    as (r & Hr & _ & _ & Hk); [reflexivity..|].
  exists r. split; [exact Hr|]. rewrite Hk. reflexivity.
Defined.

Lemma learn_Exclusive_positive_witness :
  knownKeywords !! "SOS_Revealing" = Some SOS_Revealing ∧
  type SOS_Revealing = Exclusive ∧
  answerOf Choice_MaybeYes = Some MaybeYes ∧
  (MaybeYes = Yes ∨ MaybeYes = MaybeYes) ∧
  ∃ w', learn knownKeywords "Outfit" ["h1"; "h2"] (λ _, []) (λ _, [])
          ("SOS_Revealing", Choice_MaybeYes) Scenario.nothing =
          (Returned, w') ∧
        addedKeywords w' = [("Outfit", "SOS_Revealing")] ∧
        remembered (taggednifs w') "h2" "SOS_Revealing" = Some MaybeYes.
Proof.
  assert (H1 : knownKeywords !! "SOS_Revealing" = Some SOS_Revealing)
    by reflexivity.
  assert (H2 : type SOS_Revealing = Exclusive) by reflexivity.
  assert (H3 : answerOf Choice_MaybeYes = Some MaybeYes) by reflexivity.
  assert (H4 : MaybeYes = Yes ∨ MaybeYes = MaybeYes) by (right; reflexivity).
  split_and!; [exact H1 | exact H2 | exact H3 | exact H4 |].
  destruct (learn_Exclusive_positive knownKeywords "Outfit" ["h1"; "h2"]
              (λ _, []) (λ _, []) "SOS_Revealing" SOS_Revealing
              Choice_MaybeYes MaybeYes Scenario.nothing H1 H2 H3 H4)
    as (w' & Hw' & Hadd & _ & _ & Hall & _).
  exists w'. split_and!; [exact Hw' | exact Hadd |].
  apply Hall. by_computation.
Defined.

Lemma learn_Exclusive_negative_witness :
  knownKeywords !! "SOS_Revealing" = Some SOS_Revealing ∧
  type SOS_Revealing = Exclusive ∧
  answerOf Choice_No = Some No ∧
  (No = No ∨ No = MaybeNo) ∧
  (∀ arma, arma ∈ armature Scenario.outfit → arma_model arma ≠ "") ∧
  Promise_map Scenario.readable (nifs_of (armature Scenario.outfit)) =
    Some ["h1"; "h2"] ∧
  ∃ w', learn knownKeywords "Outfit" ["h1"; "h2"]
          (relevantHashes knownKeywords (armature Scenario.outfit)
             ["h1"; "h2"])
          (relevantAnswers false knownKeywords Scenario.h1Yes
             (armature Scenario.outfit) ["h1"; "h2"])
          ("SOS_Revealing", Choice_No) Scenario.knowsA = (Returned, w') ∧
        addedKeywords w' = [] ∧
        remembered (taggednifs w') "h2" "SOS_Revealing" = Some No ∧
        remembered (taggednifs w') "h1" "SOS_Revealing" = Some Yes.
Proof.
  assert (H1 : knownKeywords !! "SOS_Revealing" = Some SOS_Revealing)
    by reflexivity.
  assert (H2 : type SOS_Revealing = Exclusive) by reflexivity.
  assert (H3 : answerOf Choice_No = Some No) by reflexivity.
  assert (H4 : No = No ∨ No = MaybeNo) by (left; reflexivity).
  assert (H5 : ∀ arma, arma ∈ armature Scenario.outfit →
                 arma_model arma ≠ "").
  { intros arma Hin. simpl in Hin. apply elem_of_cons in Hin.
    destruct Hin as [->|Hin]; [discriminate|].
    apply list_elem_of_singleton in Hin. subst arma. discriminate. }
  assert (H6 : Promise_map Scenario.readable
                 (nifs_of (armature Scenario.outfit)) = Some ["h1"; "h2"])
    by (vm_compute; reflexivity).
  split_and!; [exact H1 | exact H2 | exact H3 | exact H4 | exact H5
              | exact H6 |].
  destruct (learn_Exclusive_negative false knownKeywords Scenario.readable
              "Outfit" (armature Scenario.outfit) ["h1"; "h2"]
              Scenario.h1Yes "SOS_Revealing" SOS_Revealing Choice_No No
              Scenario.knowsA H1 H2 H3 H4 H5 H6)
    as (_ & _ & w' & Hw' & Hadd & _ & Hone & _).
  exists w'. split; [exact Hw'|]. split; [exact Hadd|].
  destruct (Hone Scenario.partB "h2") as (_ & Hh2 & Hother);
    [vm_compute; reflexivity|].
  split; [exact Hh2|].
  rewrite Hother; [vm_compute; reflexivity|]. left. discriminate.
Defined.

(** C2, as stated, fails: the two ARMAs of the pair share one model, and
    with it one hash, of which nothing is remembered.  It is the only
    ambiguous fingerprint; the human answers [No], and no answer is
    recorded for it, because the two components make two entries. *)
Lemma learn_Exclusive_negative_shared_hash :
  let r := patch false knownKeywords Scenario.readable
             (Scenario.always Choice_No) Scenario.closes Scenario.pair
             ["SOS_Revealing"] Scenario.nothing in
  let amb := ambiguous false knownKeywords ∅ (armature Scenario.pair)
               ["h1"; "h1"] "SOS_Revealing" Yes in
  Promise_map Scenario.readable (nifs_of (armature Scenario.pair)) =
    Some ["h1"; "h1"] ∧
  keywordsToAsk false knownKeywords Scenario.readable Scenario.pair
    ["SOS_Revealing"] Scenario.nothing = ["SOS_Revealing"] ∧
  r.1 = Returned ∧
  (∀ h, h ∈ amb ↔ h = "h1") ∧
  remembered (taggednifs r.2) "h1" "SOS_Revealing" = None ∧
  ¬ single_fingerprint_attributed_as_stated amb "SOS_Revealing" No
      (taggednifs r.2).
Proof.
  cbv zeta.
  assert (Hamb : ambiguous false knownKeywords ∅ (armature Scenario.pair)
                   ["h1"; "h1"] "SOS_Revealing" Yes = ["h1"; "h1"])
    by (vm_compute; reflexivity).
  assert (Hset : ∀ h, h ∈ ambiguous false knownKeywords ∅
                        (armature Scenario.pair) ["h1"; "h1"]
                        "SOS_Revealing" Yes ↔ h = "h1").
  { intros h. rewrite Hamb. rewrite !elem_of_cons, elem_of_nil. tauto. }
  assert (Hnone : remembered
                    (taggednifs
                       (patch false knownKeywords Scenario.readable
                          (Scenario.always Choice_No) Scenario.closes
                          Scenario.pair ["SOS_Revealing"]
                          Scenario.nothing).2)
                    "h1" "SOS_Revealing" = None)
    by (vm_compute; reflexivity).
  split; [vm_compute; reflexivity|]. split; [vm_compute; reflexivity|].
  split; [vm_compute; reflexivity|]. split; [exact Hset|].
  split; [exact Hnone|].
  intros Hstated. specialize (Hstated "h1" Hset).
  rewrite Hnone in Hstated. discriminate.
Qed.

Lemma patch_hash_failure_witness :
  Scenario.nifB ∈ nifs_of (armature Scenario.outfit) ∧
  Scenario.unreadableB Scenario.nifB = None ∧
  ∃ w', patch false knownKeywords Scenario.unreadableB
          (Scenario.always Choice_Yes)
          Scenario.closes Scenario.outfit ["SOS_Revealing"]
          Scenario.knowsA = (Returned, w') ∧
        logged w' = [Checking "Outfit"; ErrorOpeningNif] ∧
        taggednifs w' = Scenario.h1Yes ∧
        memoryFile w' = Scenario.h1Yes.
Proof.
  assert (Hnif : Scenario.nifB ∈ nifs_of (armature Scenario.outfit))
    by by_computation.
  assert (Hfail : Scenario.unreadableB Scenario.nifB = None) by reflexivity.
  split; [exact Hnif|]. split; [exact Hfail|].
  destruct (patch_hash_failure false knownKeywords Scenario.unreadableB
              (Scenario.always Choice_Yes)
              Scenario.closes Scenario.outfit ["SOS_Revealing"]
              Scenario.knowsA Scenario.nifB Hnif Hfail)
    as (w' & Hw' & Hlog & Ht & Hf & _).
  exists w'. split_and!; [exact Hw' | exact Hlog | exact Ht | exact Hf].
Defined.

(** C7, as stated, fails: the first part of the outfit is hashed (to [h1])
    and the second cannot be read; after [patch] the name of the first is
    not in the memories. *)
Lemma patch_hash_failure_drops_names :
  Scenario.unreadableB Scenario.nifA = Some "h1" ∧
  ¬ hashed_names_kept_as_stated Scenario.unreadableB Scenario.outfit
      (patch false knownKeywords Scenario.unreadableB
         (Scenario.always Choice_Yes)
         Scenario.closes Scenario.outfit ["SOS_Revealing"]
         Scenario.nothing).2.
Proof.
  split; [reflexivity|]. intros Hkept.
  assert (Hin : Scenario.nifA ∈ nifs_of (armature Scenario.outfit))
    by by_computation.
  specialize (Hkept Scenario.nifA "h1" Hin eq_refl).
  vm_compute in Hkept. inversion Hkept.
Qed.

Lemma patch_saves_after_learning_witness :
  keywordsToAsk false knownKeywords Scenario.readable Scenario.outfit
    ["SOS_Revealing"] Scenario.knowsA ≠ [] ∧
  (∀ j k,
     keywordsToAsk false knownKeywords Scenario.readable Scenario.outfit
       ["SOS_Revealing"] Scenario.knowsA !! j = Some k →
     Scenario.always Choice_No j k ≠ Choice_Cancel) ∧
  let r := patch false knownKeywords Scenario.readable
             (Scenario.always Choice_No) Scenario.closes Scenario.outfit
             ["SOS_Revealing"] Scenario.knowsA in
  memoryFile r.2 = taggednifs r.2 ∧
  Scenario.nifB ∈ storedNames (memoryFile r.2) "h2" ∧
  (r.1 = Returned ∨ r.1 = Thrown ViewerError).
Proof.
  assert (Hasked : keywordsToAsk false knownKeywords Scenario.readable
                     Scenario.outfit ["SOS_Revealing"] Scenario.knowsA ≠ [])
    by (vm_compute; discriminate).
  assert (Hanswered : ∀ j k,
            keywordsToAsk false knownKeywords Scenario.readable
              Scenario.outfit ["SOS_Revealing"] Scenario.knowsA !! j =
              Some k →
            Scenario.always Choice_No j k ≠ Choice_Cancel)
    by (intros j k _; discriminate).
  split; [exact Hasked|]. split; [exact Hanswered|].
  destruct (patch_saves_after_learning false knownKeywords Scenario.readable
              (Scenario.always Choice_No) Scenario.closes Scenario.outfit
              ["SOS_Revealing"] Scenario.knowsA Hasked Hanswered)
    as (Hsaved & Hnames & Hresult).
  split; [exact Hsaved|]. split; [|exact Hresult].
  apply Hnames; [by_computation | reflexivity].
Defined.

(** C8, as stated, fails: the top is known to be revealing under an older
    name; [patch] adds the keyword without asking and returns, the new
    name is in the memories of the process and not in the memory file. *)
Lemma patch_automatic_not_saved :
  let r := patch false knownKeywords Scenario.readable
             (Scenario.always Choice_No)
             Scenario.closes Scenario.top ["SOS_Revealing"]
             Scenario.knowsA in
  r.1 = Returned ∧
  Scenario.nifA ∈ storedNames (taggednifs r.2) "h1" ∧
  (Scenario.nifA ∉ storedNames (memoryFile r.2) "h1") ∧
  ¬ flushed_as_stated r.2.
Proof.
  assert (Hin : Scenario.nifA ∈ storedNames
            (taggednifs (patch false knownKeywords Scenario.readable
               (Scenario.always Choice_No)
               Scenario.closes Scenario.top ["SOS_Revealing"]
               Scenario.knowsA).2) "h1") by by_computation.
  assert (Hout : Scenario.nifA ∉ storedNames
            (memoryFile (patch false knownKeywords Scenario.readable
               (Scenario.always Choice_No)
               Scenario.closes Scenario.top ["SOS_Revealing"]
               Scenario.knowsA).2) "h1") by by_computation.
  simpl. split; [vm_compute; reflexivity|]. split; [exact Hin|].
  split; [exact Hout|].
  unfold flushed_as_stated. intros Heq. rewrite Heq in Hout. by apply Hout.
Qed.

Lemma patch_cancel_witness :
  keywordsToAsk false knownKeywords Scenario.readable Scenario.outfit
    ["SOS_Revealing"] Scenario.knowsA !! 0 = Some "SOS_Revealing" ∧
  Scenario.always Choice_Cancel 0 "SOS_Revealing" = Choice_Cancel ∧
  ∃ w', patch false knownKeywords Scenario.readable
          (Scenario.always Choice_Cancel) Scenario.closes Scenario.outfit
          ["SOS_Revealing"] Scenario.knowsA = (Thrown CancelledByUser, w') ∧
    memoryFile w' = Scenario.h1Yes ∧
    remembered (taggednifs w') "h2" "SOS_Revealing" = None ∧
    (∀ a k', (a, k') ∉ addedKeywords w').
Proof.
  assert (Hasked : keywordsToAsk false knownKeywords Scenario.readable
                     Scenario.outfit ["SOS_Revealing"] Scenario.knowsA !! 0 =
                   Some "SOS_Revealing") by (vm_compute; reflexivity).
  assert (Hcancel : Scenario.always Choice_Cancel 0 "SOS_Revealing" =
                    Choice_Cancel) by reflexivity.
  assert (Hnodup : NoDup ["SOS_Revealing"]) by by_computation.
  assert (Hone : ∀ k', is_Some (knownKeywords !! k') → k' = "SOS_Revealing").
  { intros k' [info Hinfo]. unfold knownKeywords in Hinfo.
    apply lookup_singleton_Some in Hinfo. by destruct Hinfo. }
  split; [exact Hasked|]. split; [exact Hcancel|].
  destruct (patch_cancel false knownKeywords Scenario.readable
              (Scenario.always Choice_Cancel) Scenario.closes Scenario.outfit
              ["SOS_Revealing"] Scenario.knowsA 0 "SOS_Revealing"
              Hasked Hcancel)
    as (w' & i & Hw' & Hfile & _ & _ & _ & _ & _ & _ & Hall).
  destruct (Hall Hnodup Hone) as [Hadd Hrem].
  exists w'. split_and!; [exact Hw' | exact Hfile | |].
  - rewrite Hrem. reflexivity.
  - intros a k' Ha. apply Hadd in Ha. by apply elem_of_nil in Ha.
Defined.

(** C9, as stated, fails when the list of keywords names [SOS_Revealing]
    twice: the robe is asked about it twice, the human says [Yes] to the
    first question and cancels the second; [patch] throws "Cancelled by
    user", and the record has got the cancelled keyword and [Yes] is in
    the memories for it. *)
Lemma patch_cancel_keeps_earlier_tag :
  let asked := keywordsToAsk false knownKeywords Scenario.readable
                 Scenario.robe ["SOS_Revealing"; "SOS_Revealing"]
                 Scenario.nothing in
  let r := patch false knownKeywords Scenario.readable
             Scenario.yesThenCancel Scenario.closes Scenario.robe
             ["SOS_Revealing"; "SOS_Revealing"] Scenario.nothing in
  asked = ["SOS_Revealing"; "SOS_Revealing"] ∧
  Scenario.yesThenCancel 1 "SOS_Revealing" = Choice_Cancel ∧
  r.1 = Thrown CancelledByUser ∧
  addedKeywords r.2 = [("Robe", "SOS_Revealing")] ∧
  remembered (taggednifs r.2) "h3" "SOS_Revealing" = Some Yes ∧
  ¬ no_answer_after_cancel_as_stated "SOS_Revealing" Scenario.nothing r.2 ∧
  ¬ no_tag_after_cancel_as_stated Scenario.nothing r.2.
Proof.
  assert (Hadd : addedKeywords
            (patch false knownKeywords Scenario.readable
               Scenario.yesThenCancel Scenario.closes Scenario.robe
               ["SOS_Revealing"; "SOS_Revealing"] Scenario.nothing).2 =
            [("Robe", "SOS_Revealing")]) by (vm_compute; reflexivity).
  assert (Hrem : remembered
            (taggednifs
               (patch false knownKeywords Scenario.readable
                  Scenario.yesThenCancel Scenario.closes Scenario.robe
                  ["SOS_Revealing"; "SOS_Revealing"] Scenario.nothing).2)
            "h3" "SOS_Revealing" = Some Yes) by (vm_compute; reflexivity).
  cbv zeta.
  split; [vm_compute; reflexivity|]. split; [reflexivity|].
  split; [vm_compute; reflexivity|]. split; [exact Hadd|].
  split; [exact Hrem|]. split.
  - unfold no_answer_after_cancel_as_stated. intros Hno.
    specialize (Hno "h3"). rewrite Hrem in Hno. discriminate.
  - unfold no_tag_after_cancel_as_stated. rewrite Hadd. discriminate.
Qed.

(** * Further properties of the code *)

(** ** [getFilesToPatch] and the filter *)

(** X1: [getFilesToPatch] drops the file [zEBD.esp] and nothing else: the
    other file names stay, in their order and as often as they occurred,
    and applying it again changes nothing. *)
Theorem getFilesToPatch_spec (filenames : list string) :
  ("zEBD.esp" ∉ getFilesToPatch filenames) ∧
  (∀ x, x ≠ "zEBD.esp" → x ∈ filenames → x ∈ getFilesToPatch filenames) ∧
  sublist (getFilesToPatch filenames) filenames ∧
  length filenames =
    length (getFilesToPatch filenames) +
    length (filter (λ x, x = "zEBD.esp") filenames) ∧
  getFilesToPatch (getFilesToPatch filenames) = getFilesToPatch filenames.
Proof.
  unfold getFilesToPatch. split_and!.
  - intros Hin. apply list_elem_of_filter in Hin. by destruct Hin.
  - intros x Hx Hin. by apply list_elem_of_filter.
  - apply sublist_filter.
  - induction filenames as [|x l IH]; [done|].
    rewrite !filter_cons. destruct (decide (x = "zEBD.esp")) as [->|Hx].
    + rewrite decide_False by (by intros ?). simpl. lia.
    + rewrite decide_True by done. simpl. lia.
  - rewrite list_filter_filter. apply list_filter_iff. tauto.
Qed.

Lemma removed_false (cond : KeywordInfo → bool)
    (infos : list TableValue) (keyword : string) :
  removed cond infos keyword = false ↔
  ∀ info, Described info ∈ infos → id info = keyword → cond info = false.
Proof.
  unfold removed, some. induction infos as [|v infos IH]; simpl.
  - split; [|done]. intros _ info Hin. by apply elem_of_nil in Hin.
  - rewrite orb_false_iff, IH. split.
    + intros [Hv Hrest] info Hin Hid.
      apply elem_of_cons in Hin. destruct Hin as [<-|Hin]; [|by apply Hrest].
      rewrite andb_false_iff in Hv. destruct Hv as [?|Hv]; [done|].
      by apply bool_decide_eq_false in Hv.
    + intros Hall. split.
      * destruct v as [info| |]; [|done|done]. apply andb_false_iff.
        destruct (decide (id info = keyword)) as [Hid|Hid].
        -- left. apply Hall; [by left|done].
        -- right. by apply bool_decide_eq_false.
      * intros info Hin. apply Hall. by right.
Qed.

Lemma filter_all {A : Type} (P : A → Prop) `{!∀ x, Decision (P x)}
    (l : list A) :
  (∀ x, P x) → filter P l = l.
Proof.
  intros HP. induction l as [|x l IH]; [done|].
  rewrite filter_cons_True by done. by rewrite IH.
Qed.

(** A round of removals over descriptions gets through and leaves the
    keywords that no description removes. *)
Lemma forEach_removeIf_described (cond : KeywordInfo → bool)
    (atInherited : Outcome FilterResult) (infos : list TableValue)
    (l : list string) :
  (∀ v, v ∈ infos → ∃ info, v = Described info) →
  forEach (removeIf cond atInherited) infos l =
    (Returned, filter (λ k, removed cond infos k = false) l).
Proof.
  revert l. induction infos as [|v infos IH]; intros l Hdesc.
  - simpl. f_equal. symmetry. by apply filter_all.
  - rewrite forEach_cons.
    destruct (Hdesc v) as [info ->]; [by left|]. simpl.
    rewrite IH by (intros v Hv; apply Hdesc; by right).
    f_equal. unfold removed, some. simpl.
    destruct (cond info); simpl; [|done].
    unfold removeKeyword. rewrite list_filter_filter.
    apply list_filter_iff. intros k. rewrite orb_false_iff.
    rewrite bool_decide_eq_false. split; intros [? ?]; split; try done;
      by intros ->.
Qed.

Lemma forEach_removeIf_subseteq (cond : KeywordInfo → bool)
    (atInherited : Outcome FilterResult) (infos : list TableValue)
    (l : list string) (k : string) :
  k ∈ (forEach (removeIf cond atInherited) infos l).2 → k ∈ l.
Proof.
  apply (forEach_preserves (λ l', k ∈ l' → k ∈ l)); [|done].
  intros v l' Hl'. unfold removeIf. destruct v as [info| |]; [|done|done].
  simpl. destruct (cond info); [|done]. unfold removeKeyword.
  intros Hk. apply list_elem_of_filter in Hk. destruct Hk as [_ Hk].
  by apply Hl'.
Qed.

Lemma Described_in_localsKeywords (keywordTable : gmap string KeywordInfo)
    (settingsKeywords : list string) (info : KeywordInfo) :
  Described info ∈ localsKeywords keywordTable settingsKeywords ↔
  ∃ key, key ∈ settingsKeywords ∧ keywordTable !! key = Some info.
Proof.
  unfold localsKeywords. rewrite list_elem_of_fmap. split.
  - intros (k & Hk & Hin). symmetry in Hk.
    apply keywordsAt_Described in Hk. eauto.
  - intros (k & Hin & Hk). exists k. split; [|done].
    symmetry. by apply keywordsAt_Some.
Qed.

Lemma localsKeywords_described (keywordTable : gmap string KeywordInfo)
    (settingsKeywords : list string) :
  (∀ key, key ∈ settingsKeywords → is_Some (keywordTable !! key)) →
  ∀ v, v ∈ localsKeywords keywordTable settingsKeywords →
       ∃ info, v = Described info.
Proof.
  intros Hknown v Hv. unfold localsKeywords in Hv.
  apply list_elem_of_fmap in Hv. destruct Hv as (key & -> & Hkey).
  destruct (Hknown key Hkey) as [info Hinfo]. exists info.
  by apply keywordsAt_Some.
Qed.

Lemma firstUndescribed_None (keywordTable : gmap string KeywordInfo)
    (settingsKeywords : list string) :
  firstUndescribed keywordTable settingsKeywords = None ↔
  ∀ key, key ∈ settingsKeywords → is_Some (keywordTable !! key).
Proof.
  unfold firstUndescribed.
  induction settingsKeywords as [|key l IH]; simpl.
  - split; [|done]. intros _ key Hin. by apply elem_of_nil in Hin.
  - rewrite filter_cons. destruct (decide (keywordTable !! key = None)) as [Hk|Hk].
    + simpl. split; [done|]. intros Hall.
      destruct (Hall key) as [? ?]; [by left|congruence].
    + rewrite IH. split.
      * intros Hall key' Hin. apply elem_of_cons in Hin.
        destruct Hin as [->|Hin]; [|by apply Hall].
        by apply not_eq_None_Some.
      * intros Hall key' Hin. apply Hall. by right.
Qed.

Lemma firstUndescribed_Some (keywordTable : gmap string KeywordInfo)
    (settingsKeywords : list string) (key : string) :
  firstUndescribed keywordTable settingsKeywords = Some key →
  key ∈ settingsKeywords ∧ keywordTable !! key = None.
Proof.
  unfold firstUndescribed. intros Hhead.
  apply head_Some_elem_of in Hhead.
  apply list_elem_of_filter in Hhead. by destruct Hhead.
Qed.

(** The first round gets through the descriptions and ends at the first
    configured keyword that has none. *)
Lemma forEach_removeIf_first (keywordTable : gmap string KeywordInfo)
    (cond : KeywordInfo → bool) (settingsKeywords l : list string) :
  (forEach (removeIf cond (Thrown HostDecides))
     (localsKeywords keywordTable settingsKeywords) l).1 =
    match firstUndescribed keywordTable settingsKeywords with
    | None => Returned
    | Some key =>
        Thrown (if decide (key ∈ Object_prototype) then HostDecides
                else FilterThrown TypeError)
    end.
Proof.
  unfold firstUndescribed, localsKeywords. revert l.
  induction settingsKeywords as [|key sk IH]; intros l; [done|].
  rewrite fmap_cons, forEach_cons, filter_cons. unfold keywordsAt at 1.
  destruct (keywordTable !! key) as [info|] eqn:Hk.
  - destruct (decide (Some info = None)); [done|]. simpl. apply IH.
  - destruct (decide (None = None)); [|done]. simpl.
    by destruct (decide (key ∈ Object_prototype)).
Qed.

Lemma alreadyHas_false (record : ArmoRecord) (info : KeywordInfo) :
  alreadyHas record info = false ↔ id info ∉ record_keywords record.
Proof. unfold alreadyHas. apply bool_decide_eq_false. Qed.

Lemma hasSkipSlot_false (flags : list BodySlot) (info : KeywordInfo) :
  hasSkipSlot flags info = false ↔
  ∀ flag, flag ∈ flags → flag ∉ skipSlots info.
Proof.
  unfold hasSkipSlot. rewrite <- not_true_iff_false, some_Exists.
  rewrite <- Forall_Exists_neg, Forall_forall. reflexivity.
Qed.

Lemma lacksRelevantSlot_false (flags : list BodySlot) (info : KeywordInfo) :
  lacksRelevantSlot flags info = false ↔
  ∃ flag, flag ∈ flags ∧ flag ∈ relevantSlots info.
Proof.
  unfold lacksRelevantSlot. rewrite negb_false_iff, some_Exists.
  apply Exists_exists.
Qed.

Lemma filterRecord_described (keywordTable : gmap string KeywordInfo)
    (settingsKeywords : list string) (record : ArmoRecord)
    (d : gmap string (list string)) :
  (∀ key, key ∈ settingsKeywords → is_Some (keywordTable !! key)) →
  let infos := localsKeywords keywordTable settingsKeywords in
  let keep cond l := filter (λ k, removed cond infos k = false) l in
  let leave (b : bool) l := (Keep b, <[record_editorid record := l]> d) in
  let l1 := keep (alreadyHas record) settingsKeywords in
  filterRecord keywordTable settingsKeywords record d =
    if bool_decide (length l1 = 0) then leave false l1
    else if negb (record_hasArmature record) then leave false l1
    else if negb (some (λ el : bool * Arma, el.1) (record_Armature record))
    then leave false l1
    else match getBodyTemplate record with
         | None => leave false l1
         | Some flags =>
             let l2 := keep (hasSkipSlot flags) l1 in
             if bool_decide (length l2 = 0) then leave false l2
             else
               let l3 := keep (lacksRelevantSlot flags) l2 in
               if bool_decide (length l3 = 0) then leave false l3
               else leave true l3
         end.
Proof.
  intros Hknown infos keep leave l1. unfold filterRecord.
  pose proof (localsKeywords_described _ _ Hknown) as Hdesc.
  fold infos in Hdesc |- *.
  rewrite (forEach_removeIf_described _ _ _ _ Hdesc).
  fold (keep (alreadyHas record) settingsKeywords). fold l1.
  cbv iota beta.
  repeat (case_bool_decide; [done|]).
  destruct (negb (record_hasArmature record)); [done|].
  destruct (negb (some _ _)); [done|].
  destruct (getBodyTemplate record) as [flags|]; [|done].
  rewrite (forEach_removeIf_described _ _ _ _ Hdesc).
  cbv iota beta. fold (keep (hasSkipSlot flags) l1).
  case_bool_decide; [done|].
  rewrite (forEach_removeIf_described _ _ _ _ Hdesc).
  cbv iota beta. done.
Qed.

(** Without a description for some configured keyword the first round
    does not get through, whatever the record is. *)
Lemma filterRecord_undescribed (keywordTable : gmap string KeywordInfo)
    (settingsKeywords : list string) (record : ArmoRecord)
    (d : gmap string (list string)) (key : string) :
  firstUndescribed keywordTable settingsKeywords = Some key →
  (filterRecord keywordTable settingsKeywords record d).1 =
    if decide (key ∈ Object_prototype) then HostDecides
    else FilterThrown TypeError.
Proof.
  intros Hfirst. unfold filterRecord.
  pose proof (forEach_removeIf_first keywordTable (alreadyHas record)
                settingsKeywords settingsKeywords) as Hround.
  rewrite Hfirst in Hround.
  destruct (forEach (removeIf (alreadyHas record) _) _ settingsKeywords)
    as [c l1].
  simpl in Hround. by subst c.
Qed.

Lemma filterRecord_Keep_known (keywordTable : gmap string KeywordInfo)
    (settingsKeywords : list string) (record : ArmoRecord)
    (d d' : gmap string (list string)) (b : bool) :
  filterRecord keywordTable settingsKeywords record d = (Keep b, d') →
  ∀ key, key ∈ settingsKeywords → is_Some (keywordTable !! key).
Proof.
  intros Hkeep. apply firstUndescribed_None.
  destruct (firstUndescribed keywordTable settingsKeywords) as [key|] eqn:Hfirst;
    [|done].
  apply (filterRecord_undescribed _ _ record d) in Hfirst.
  rewrite Hkeep in Hfirst. simpl in Hfirst. by case_decide.
Qed.

Lemma filterRecord_accepts_core (keywordTable : gmap string KeywordInfo)
    (settingsKeywords : list string) (record : ArmoRecord)
    (d d' : gmap string (list string))
    (Hkeep : filterRecord keywordTable settingsKeywords record d =
               (Keep true, d')) :
  record_hasArmature record = true ∧
  (∃ el, el ∈ record_Armature record ∧ el.1 = true) ∧
  (∀ key, key ∈ settingsKeywords → is_Some (keywordTable !! key)) ∧
  ∃ flags ks,
    getBodyTemplate record = Some flags ∧
    d' = <[record_editorid record := ks]> d ∧
    ks ≠ [] ∧
    sublist ks settingsKeywords ∧
    ∀ k, k ∈ ks ↔
      k ∈ settingsKeywords ∧
      ∀ key info,
        key ∈ settingsKeywords → keywordTable !! key = Some info →
        id info = k →
        (id info ∉ record_keywords record) ∧
        (∀ flag, flag ∈ flags → flag ∉ skipSlots info) ∧
        (∃ flag, flag ∈ flags ∧ flag ∈ relevantSlots info).
Proof.
  pose proof (filterRecord_Keep_known _ _ _ _ _ _ Hkeep) as Hknown.
  rewrite filterRecord_described in Hkeep by done. cbv zeta in Hkeep.
  set (infos := localsKeywords keywordTable settingsKeywords) in *.
  case_bool_decide; [done|].
  destruct (record_hasArmature record); simpl in Hkeep; [|done].
  destruct (some _ (record_Armature record)) eqn:Hrace; simpl in Hkeep;
    [|done].
  destruct (getBodyTemplate record) as [flags|]; [|done].
  case_bool_decide; [done|].
  case_bool_decide as Hlen; [done|].
  injection Hkeep as <-.
  split; [done|]. split.
  { unfold some in Hrace. apply existsb_exists in Hrace.
    destruct Hrace as (el & Hin & Hel). exists el.
    split; [by apply list_elem_of_In|done]. }
  split; [done|].
  eexists flags, _. split; [done|]. split; [done|]. split.
  { intros Hnil. apply Hlen. by rewrite Hnil. }
  split.
  { etrans; [apply sublist_filter|]. etrans; apply sublist_filter. }
  intros k. rewrite !list_elem_of_filter, !removed_false. split.
  - intros (H3 & H2 & H1 & Hin). split; [done|].
    intros key info Hkey Hinfo Hid.
    assert (Hsome : Described info ∈ infos)
      by (apply Described_in_localsKeywords; eauto).
    split_and!.
    + by apply alreadyHas_false, H1.
    + by apply hasSkipSlot_false, H2.
    + by apply lacksRelevantSlot_false, H3.
  - intros [Hin Hall].
    split_and!; [| | |done]; intros info Hsome Hid;
      apply Described_in_localsKeywords in Hsome;
      destruct Hsome as (key & Hkey & Hinfo);
      destruct (Hall key info Hkey Hinfo Hid) as (Ha & Hs & Hr).
    + by apply lacksRelevantSlot_false.
    + by apply hasSkipSlot_false.
    + by apply alreadyHas_false.
Qed.

(** X2: when the filter accepts a record, the record has an [Armature]
    element with an ARMA of the default race and a body template, and the
    list left for [patch] under its editor id is not empty and holds, in
    the order of the settings, exactly the configured keywords that no
    configured keyword description rules out: the record does not carry
    the keyword yet, none of its flags is a skip slot, and one of its
    flags is a relevant slot.  All configured keywords are in the table. *)
Theorem filterRecord_accepts (keywordTable : gmap string KeywordInfo)
    (settingsKeywords : list string) (record : ArmoRecord)
    (d d' : gmap string (list string))
    (Hkeep : filterRecord keywordTable settingsKeywords record d =
               (Keep true, d')) :
  record_hasArmature record = true ∧
  (∃ el, el ∈ record_Armature record ∧ el.1 = true) ∧
  (∀ key, key ∈ settingsKeywords → is_Some (keywordTable !! key)) ∧
  ∃ flags ks,
    getBodyTemplate record = Some flags ∧
    d' = <[record_editorid record := ks]> d ∧
    ks ≠ [] ∧
    sublist ks settingsKeywords ∧
    ∀ k, k ∈ ks ↔
      k ∈ settingsKeywords ∧
      ∀ key info,
        key ∈ settingsKeywords → keywordTable !! key = Some info →
        id info = k →
        (id info ∉ record_keywords record) ∧
        (∀ flag, flag ∈ flags → flag ∉ skipSlots info) ∧
        (∃ flag, flag ∈ flags ∧ flag ∈ relevantSlots info).
Proof. by apply (filterRecord_accepts_core _ _ _ d). Qed.

(** X4: a keyword the record already carries is never left for [patch]:
    whatever the filter returns, the list it leaves under the editor id of
    the record holds no configured keyword whose id is on the record. *)
Theorem filterRecord_skips_present (keywordTable : gmap string KeywordInfo)
    (settingsKeywords : list string) (record : ArmoRecord)
    (d d' : gmap string (list string)) (b : bool) (key : string)
    (info : KeywordInfo)
    (Hkeep : filterRecord keywordTable settingsKeywords record d =
               (Keep b, d'))
    (Hkey : key ∈ settingsKeywords)
    (Hinfo : keywordTable !! key = Some info)
    (Hhas : id info ∈ record_keywords record) :
  ∃ ks, d' !! record_editorid record = Some ks ∧ sublist ks settingsKeywords ∧
        id info ∉ ks.
Proof.
  pose proof (filterRecord_Keep_known _ _ _ _ _ _ Hkeep) as Hknown.
  rewrite filterRecord_described in Hkeep by done. cbv zeta in Hkeep.
  set (infos := localsKeywords keywordTable settingsKeywords) in *.
  remember (filter (λ k, removed (alreadyHas record) infos k = false)
              settingsKeywords) as l1 eqn:Hl1.
  assert (Hl1' : sublist l1 settingsKeywords ∧ id info ∉ l1).
  { subst l1. split; [apply sublist_filter|].
    intros Hin. apply list_elem_of_filter in Hin. destruct Hin as [Hrem _].
    rewrite removed_false in Hrem.
    assert (Hsome : Described info ∈ infos)
      by (apply Described_in_localsKeywords; eauto).
    specialize (Hrem info Hsome eq_refl).
    by apply alreadyHas_false in Hrem. }
  clear Hl1. destruct Hl1' as [Hsub1 Hnot1].
  assert (Hdone : ∀ l, sublist l l1 →
            ∃ ks, <[record_editorid record := l]> d !! record_editorid record
                  = Some ks ∧ sublist ks settingsKeywords ∧ id info ∉ ks).
  { intros l Hsub. exists l. rewrite lookup_insert_eq.
    split; [done|]. split; [by etrans|].
    intros Hin. apply Hnot1. by eapply sublist_subseteq. }
  case_bool_decide; [injection Hkeep as _ <-; by apply Hdone|].
  destruct (record_hasArmature record); simpl in Hkeep;
    [|injection Hkeep as _ <-; by apply Hdone].
  destruct (some _ (record_Armature record)); simpl in Hkeep;
    [|injection Hkeep as _ <-; by apply Hdone].
  destruct (getBodyTemplate record) as [flags|];
    [|injection Hkeep as _ <-; by apply Hdone].
  case_bool_decide;
    [injection Hkeep as _ <-; apply Hdone, sublist_filter|].
  assert (Hsub3 : sublist
            (filter (λ k, removed (lacksRelevantSlot flags) infos k = false)
               (filter (λ k, removed (hasSkipSlot flags) infos k = false) l1))
            l1) by (etrans; apply sublist_filter).
  case_bool_decide; injection Hkeep as _ <-; by apply Hdone.
Qed.

Lemma firstUndescribed_lookup (keywordTable : gmap string KeywordInfo)
    (settingsKeywords : list string) (key : string) :
  firstUndescribed keywordTable settingsKeywords = Some key →
  ∃ i, settingsKeywords !! i = Some key ∧ keywordTable !! key = None ∧
       ∀ j key', j < i → settingsKeywords !! j = Some key' →
                 is_Some (keywordTable !! key').
Proof.
  unfold firstUndescribed.
  induction settingsKeywords as [|k l IH]; [done|].
  rewrite filter_cons.
  destruct (decide (keywordTable !! k = None)) as [Hk|Hk]; simpl.
  - intros [= ->]. exists 0. split; [done|]. split; [done|]. lia.
  - intros Hhead. destruct (IH Hhead) as (i & Hi & Hnone & Hbefore).
    exists (S i). split; [done|]. split; [done|].
    intros [|j] key' Hlt; simpl.
    + intros [= <-]. by apply not_eq_None_Some.
    + apply Hbefore. lia.
Qed.

(** X5: which way the filter ends is settled by the first configured
    keyword that has no description in the table, whatever the record is.
    With a description for every configured keyword the filter returns a
    boolean.  Otherwise the first round ends at that keyword: when its
    name is nowhere, destructuring [undefined] throws a [TypeError]; when
    it names a property of [Object.prototype], the filter calls
    [xelib.HasKeyword(armo, undefined)] and the host decides.  The filter
    throws nothing but that [TypeError]. *)
Theorem filterRecord_throws (keywordTable : gmap string KeywordInfo)
    (settingsKeywords : list string) (record : ArmoRecord)
    (d : gmap string (list string)) :
  match firstUndescribed keywordTable settingsKeywords with
  | None => ∃ b, (filterRecord keywordTable settingsKeywords record d).1 = Keep b
  | Some key =>
      (filterRecord keywordTable settingsKeywords record d).1 =
        if decide (key ∈ Object_prototype) then HostDecides
        else FilterThrown TypeError
  end ∧
  (firstUndescribed keywordTable settingsKeywords = None ↔
   ∀ key, key ∈ settingsKeywords → is_Some (keywordTable !! key)) ∧
  (∀ key, firstUndescribed keywordTable settingsKeywords = Some key →
     ∃ i, settingsKeywords !! i = Some key ∧ keywordTable !! key = None ∧
          ∀ j key', j < i → settingsKeywords !! j = Some key' →
                    is_Some (keywordTable !! key')) ∧
  (∀ e, (filterRecord keywordTable settingsKeywords record d).1 =
          FilterThrown e →
        e = TypeError).
Proof.
  assert (Hends :
    match firstUndescribed keywordTable settingsKeywords with
    | None =>
        ∃ b, (filterRecord keywordTable settingsKeywords record d).1 = Keep b
    | Some key =>
        (filterRecord keywordTable settingsKeywords record d).1 =
          if decide (key ∈ Object_prototype) then HostDecides
          else FilterThrown TypeError
    end).
  { destruct (firstUndescribed keywordTable settingsKeywords) as [key|]
      eqn:Hfirst; [by apply filterRecord_undescribed|].
    pose proof (proj1 (firstUndescribed_None _ _) Hfirst) as Hknown.
    rewrite filterRecord_described by done. cbv zeta.
    case_bool_decide; [by eexists|].
    destruct (record_hasArmature record); simpl; [|by eexists].
    destruct (some _ (record_Armature record)); simpl; [|by eexists].
    destruct (getBodyTemplate record) as [flags|]; [|by eexists].
    case_bool_decide; [by eexists|].
    case_bool_decide; by eexists. }
  split; [exact Hends|]. split; [apply firstUndescribed_None|].
  split; [apply firstUndescribed_lookup|].
  intros e He.
  destruct (firstUndescribed keywordTable settingsKeywords) as [key|].
  - rewrite Hends in He. by case_decide; simplify_eq.
  - destruct Hends as [b Hb]. congruence.
Qed.

(** ** The automatic phase *)

Lemma forEach_relevancePass_known (keywordTable : gmap string KeywordInfo)
    (armas : list Arma) (hashes keywordsToPatch : list string) (w : World) :
  (∀ k, k ∈ keywordsToPatch → is_Some (keywordTable !! k)) →
  (forEach (relevancePass keywordTable armas hashes) keywordsToPatch w).1 =
    Returned.
Proof.
  revert w. induction keywordsToPatch as [|k ks IH]; intros w Hknown; [done|].
  rewrite forEach_cons. unfold relevancePass at 1.
  destruct (Hknown k) as [info Hinfo]; [by left|].
  rewrite (keywordsAt_Some _ _ _ Hinfo).
  apply IH. intros k' Hk'. apply Hknown. by right.
Qed.

Lemma every_spec {A : Type} (p : A → bool) (l : list A) :
  every p l = true ↔ ∀ x, x ∈ l → p x = true.
Proof.
  unfold every. rewrite forallb_forall.
  split; intros Hall x Hx; apply Hall; by apply list_elem_of_In.
Qed.

Lemma every_false {A : Type} (p : A → bool) (l : list A) :
  every p l = false ↔ ∃ x, x ∈ l ∧ p x = false.
Proof.
  unfold every. induction l as [|x l IH]; simpl.
  - split; [done|]. intros (x & Hx & _). by apply elem_of_nil in Hx.
  - rewrite andb_false_iff, IH. split.
    + intros [Hx|(y & Hy & Hpy)]; [exists x|exists y]; split; try done;
        [by left|by right].
    + intros (y & Hy & Hpy). apply elem_of_cons in Hy.
      destruct Hy as [->|Hy]; [by left|]. right. eauto.
Qed.

(** How the second loop ends for one keyword, and for all of them. *)
Lemma relevancePass_result (keywordTable : gmap string KeywordInfo)
    (armas : list Arma) (hashes : list string) (keyword : string) (w : World) :
  (relevancePass keywordTable armas hashes keyword w).1 =
    if getsThrough keywordTable armas hashes keyword then Returned
    else Thrown TypeError.
Proof.
  unfold relevancePass, getsThrough.
  destruct (keywordsAt keywordTable keyword); [done| |done].
  generalize (take (length hashes) armas). intros l. revert w.
  induction l as [|arma l IH]; intros w; [done|].
  rewrite forEach_cons. unfold every. simpl.
  destruct (bool_decide (arma_flags arma = [])); simpl; [apply IH|done].
Qed.

Lemma forEach_relevancePass_result (keywordTable : gmap string KeywordInfo)
    (armas : list Arma) (hashes keywordsToPatch : list string) (w : World) :
  (forEach (relevancePass keywordTable armas hashes) keywordsToPatch w).1 =
    if every (getsThrough keywordTable armas hashes) keywordsToPatch
    then Returned else Thrown TypeError.
Proof.
  revert w. induction keywordsToPatch as [|k ks IH]; intros w; [done|].
  rewrite forEach_cons.
  pose proof (relevancePass_result keywordTable armas hashes k w) as Hk.
  destruct (relevancePass keywordTable armas hashes k w) as [c w1].
  simpl in Hk. subst c. unfold every. simpl.
  destruct (getsThrough keywordTable armas hashes k); simpl; [apply IH|done].
Qed.

Lemma getsThrough_false (keywordTable : gmap string KeywordInfo)
    (armas : list Arma) (hashes : list string) (keyword : string) :
  getsThrough keywordTable armas hashes keyword = false →
  keywordTable !! keyword = None ∧
  (keyword ∈ Object_prototype →
   ∃ arma, arma ∈ take (length hashes) armas ∧ arma_flags arma ≠ []).
Proof.
  unfold getsThrough, keywordsAt.
  destruct (keywordTable !! keyword); [done|]. case_decide.
  - intros Hevery. split; [done|]. intros _.
    apply not_true_iff_false in Hevery.
    rewrite (every_Forall (λ arma, arma_flags arma = [])) in Hevery.
    apply not_Forall_Exists in Hevery; [|apply _].
    apply Exists_exists in Hevery. destruct Hevery as (arma & Hin & Hflags).
    by exists arma.
  - done.
Qed.

Lemma getsThrough_Undefined (keywordTable : gmap string KeywordInfo)
    (armas : list Arma) (hashes : list string) (keyword : string) :
  keywordTable !! keyword = None → keyword ∉ Object_prototype →
  getsThrough keywordTable armas hashes keyword = false.
Proof.
  intros Hnone Hproto. unfold getsThrough.
  by rewrite (proj2 (keywordsAt_Undefined _ _) (conj Hnone Hproto)).
Qed.

Lemma getsThrough_true (keywordTable : gmap string KeywordInfo)
    (armas : list Arma) (hashes : list string) (keyword : string) :
  getsThrough keywordTable armas hashes keyword = true →
  keywordsAt keywordTable keyword ≠ Undefined.
Proof. unfold getsThrough. by destruct (keywordsAt keywordTable keyword). Qed.

(** The automatic loop over known keywords: it asks about the keywords
    whose verdict is [Ask] and tags those whose verdict is [Apply]. *)
Lemma forEach_automatic_known (keywordTable : gmap string KeywordInfo)
    (armo : string) (relevant : string → list Answered)
    (keywordsToPatch : list string) (s : World * list string) :
  (∀ k, k ∈ keywordsToPatch → is_Some (keywordTable !! k)) →
  let v k := match keywordTable !! k with
             | Some info => verdict (type info) (relevant k)
             | None => Ask
             end in
  ∃ w', forEach (automatic keywordTable armo relevant) keywordsToPatch s =
          (Returned, (w', s.2 ++ filter (λ k, v k = Ask) keywordsToPatch)) ∧
        addedKeywords w' =
          addedKeywords s.1 ++
          ((λ k, (armo, k)) <$> filter (λ k, v k = Apply) keywordsToPatch).
Proof.
  intros Hknown v. revert s.
  induction keywordsToPatch as [|k ks IH]; intros [w ask].
  - exists w. simpl. by rewrite !app_nil_r.
  - rewrite forEach_cons. unfold automatic at 1.
    assert (Hks : ∀ k', k' ∈ ks → is_Some (keywordTable !! k'))
      by (intros k' Hk'; apply Hknown; by right).
    destruct (Hknown k) as [info Hinfo]; [by left|].
    rewrite (keywordsAt_Some _ _ _ Hinfo). rewrite !filter_cons.
    assert (Hv : v k = verdict (type info) (relevant k))
      by (unfold v; by rewrite Hinfo).
    rewrite Hv.
    destruct (verdict (type info) (relevant k)); simpl.
    + destruct (IH Hks (AddKeyword armo k
                  (logMessage match type info with
                              | Inclusive => OneKnownToBe k
                              | Exclusive => AllKnownToBe k
                              end w), ask)) as (w' & -> & Hadd).
      exists w'. split; [done|]. rewrite Hadd. simpl.
      by rewrite <- app_assoc.
    + destruct (IH Hks (logMessage (OneKnownToNotBe k) w, ask))
        as (w' & -> & Hadd).
      exists w'. split; [done|]. by rewrite Hadd.
    + destruct (IH Hks (w, ask ++ [k])) as (w' & -> & Hadd).
      exists w'. simpl. split; [by rewrite <- app_assoc|]. by rewrite Hadd.
Qed.

(** X7: when every keyword left for the record is in the table, the
    automatic phase does not throw; it asks, in the order of the list,
    about exactly the keywords whose verdict over the remembered answers
    is [Ask], adds to the record exactly those whose verdict is [Apply],
    and leaves the memories and the memory file alone.  The verdicts are
    those over the memories as they were before the record was touched. *)
Theorem automaticPhase_spec (redoMaybes : bool)
    (keywordTable : gmap string KeywordInfo) (sha1 : string → option string)
    (armo : Armo) (keywordsToPatch hashes : list string) (w : World)
    (Hnifs : nifs_of (armature armo) ≠ [])
    (Hhash : Promise_map sha1 (nifs_of (armature armo)) = Some hashes)
    (Hknown : ∀ k, k ∈ keywordsToPatch → is_Some (keywordTable !! k)) :
  let v := verdictOf redoMaybes keywordTable (taggednifs w) (armature armo)
             hashes in
  let w1 := recordNames armo hashes (logMessage (Checking (editorid armo)) w) in
  keywordsToAsk redoMaybes keywordTable sha1 armo keywordsToPatch w =
    filter (λ k, v k = Ask) keywordsToPatch ∧
  ∃ w',
    automaticPhase redoMaybes keywordTable armo keywordsToPatch hashes w1 =
      (Returned, (w', filter (λ k, v k = Ask) keywordsToPatch)) ∧
    addedKeywords w' =
      addedKeywords w ++
      ((λ k, (editorid armo, k)) <$> filter (λ k, v k = Apply) keywordsToPatch) ∧
    taggednifs w' = taggednifs w1 ∧
    memoryFile w' = memoryFile w.
Proof.
  intros v w1.
  assert (Hv : ∀ k, v k =
            match keywordTable !! k with
            | Some info =>
                verdict (type info)
                  (relevantAnswers redoMaybes keywordTable (taggednifs w1)
                     (armature armo) hashes k)
            | None => Ask
            end).
  { intros k. unfold v, verdictOf. unfold w1. simpl.
    by rewrite relevantAnswers_each_addName. }
  assert (Hauto : ∃ w',
    automaticPhase redoMaybes keywordTable armo keywordsToPatch hashes w1 =
      (Returned, (w', filter (λ k, v k = Ask) keywordsToPatch)) ∧
    addedKeywords w' =
      addedKeywords w ++
      ((λ k, (editorid armo, k)) <$> filter (λ k, v k = Apply) keywordsToPatch)).
  { unfold automaticPhase.
    pose proof (forEach_relevancePass_known keywordTable (armature armo)
                  hashes keywordsToPatch w1 Hknown) as Hret.
    pose proof (relevancePass_frame keywordTable (armature armo) hashes
                  keywordsToPatch w1) as (_ & _ & Hadd1).
    destruct (forEach (relevancePass _ _ _) _ w1) as [c w2]. simpl in *.
    subst c.
    destruct (forEach_automatic_known keywordTable (editorid armo)
                (relevantAnswers redoMaybes keywordTable (taggednifs w1)
                   (armature armo) hashes)
                keywordsToPatch (w2, []) Hknown) as (w' & Heq & Hadd).
    exists w'. simpl in *. split.
    - rewrite Heq. do 2 f_equal. apply list_filter_iff. intros k.
      by rewrite Hv.
    - rewrite Hadd, Hadd1. f_equal. f_equal. apply list_filter_iff.
      intros k. by rewrite Hv. }
  destruct Hauto as (w' & Heq & Hadd).
  pose proof (automaticPhase_frame redoMaybes keywordTable armo
                keywordsToPatch hashes w1) as [Ht Hf].
  rewrite Heq in Ht, Hf. simpl in Ht, Hf.
  split.
  - unfold keywordsToAsk. rewrite bool_decide_eq_false_2.
    2:{ intros Hlen. by apply nil_length_inv in Hlen. }
    rewrite Hhash. fold w1. by rewrite Heq.
  - exists w'. split_and!; done.
Qed.

(** ** What [patch] throws *)

(** The third loop after the second got through: no keyword is without
    a value, and only the [undefined] type of an inherited value makes it
    throw. *)
Lemma forEach_automatic_thrown (keywordTable : gmap string KeywordInfo)
    (armo : string) (relevant : string → list Answered)
    (keywordsToPatch : list string) (s : World * list string) (e : Error) :
  (∀ k, k ∈ keywordsToPatch → keywordsAt keywordTable k ≠ Undefined) →
  (forEach (automatic keywordTable armo relevant) keywordsToPatch s).1 =
    Thrown e →
  e = InvalidKeywordType ∧
  ∃ k, k ∈ keywordsToPatch ∧ keywordsAt keywordTable k = Inherited.
Proof.
  revert s. induction keywordsToPatch as [|k ks IH]; intros s Hdef; [done|].
  rewrite forEach_cons. unfold automatic at 1.
  destruct (keywordsAt keywordTable k) as [info| |] eqn:Hk.
  - destruct (verdict (type info) (relevant k)); intros Hthrown;
      apply IH in Hthrown;
      try (intros k' Hk'; apply Hdef; by right);
      destruct Hthrown as (-> & k' & Hin & Hk');
      (split; [done|]); exists k'; (split; [by right|done]).
  - intros [= <-]. split; [done|]. exists k. split; [by left|done].
  - exfalso. apply (Hdef k); [by left|done].
Qed.

Lemma forEach_learn_thrown_inv (keywordTable : gmap string KeywordInfo)
    (armo : string) (hashes : list string) (relHashes : string → list string)
    (relAnswers : string → list Answered) (qs : list (string * Choice))
    (w : World) (e : Error) :
  (forEach (learn keywordTable armo hashes relHashes relAnswers) qs w).1 =
    Thrown e →
  ∃ q, q ∈ qs ∧
    ((e ≠ CancelledByUser ∧ keywordTable !! q.1 = None) ∨
     (e = CancelledByUser ∧ q.2 = Choice_Cancel)).
Proof.
  revert w. induction qs as [|[k choice] qs IH]; intros w; [done|].
  rewrite forEach_cons.
  destruct (learn _ _ _ _ _ (k, choice) w) as [[|e'] w1] eqn:Hlearn.
  - intros Hthrown. apply IH in Hthrown. destruct Hthrown as (q & Hq & Hor).
    exists q. split; [by right|done].
  - simpl. intros [= ->]. exists (k, choice). split; [by left|].
    unfold learn, keywordsAt in Hlearn.
    destruct (keywordTable !! k) as [info|] eqn:Hk.
    + right. destruct (type info), choice; simplify_eq; done.
    + left. by case_decide; simplify_eq.
Qed.

(** The memories are saved only when the learning loop got through. *)
Lemma askAndLearn_result (redoMaybes : bool)
    (keywordTable : gmap string KeywordInfo)
    (showMessageBox : nat → string → Choice)
    (viewer : list string → Settled) (armo : Armo) (hashes : list string)
    (t : gmap string Memory) (ask : list string) (w : World) :
  let learned :=
    forEach (learn keywordTable (editorid armo) hashes
               (relevantHashes keywordTable (armature armo) hashes)
               (relevantAnswers redoMaybes keywordTable t (armature armo)
                  hashes))
            (questions showMessageBox ask) w in
  let r := askAndLearn redoMaybes keywordTable showMessageBox viewer armo
             hashes t ask w in
  (ask = [] ∧ r = (Returned, w)) ∨
  (ask ≠ [] ∧
   ((∃ e, learned.1 = Thrown e ∧ r = (Thrown e, learned.2) ∧
          memoryFile r.2 = memoryFile w) ∨
    (learned.1 = Returned ∧ r.2 = saveMemories learned.2 ∧
     ((viewer (nifs_of (armature armo)) = Fulfilled ∧ r.1 = Returned) ∨
      (viewer (nifs_of (armature armo)) = Rejected ∧
       r.1 = Thrown ViewerError))))).
Proof.
  intros learned r. unfold r, askAndLearn. case_bool_decide as Hlen.
  - left. by apply nil_length_inv in Hlen.
  - right. split; [by intros ->|]. fold learned.
    assert (Hfile : memoryFile learned.2 = memoryFile w).
    { apply (forEach_preserves (λ s, memoryFile s = memoryFile w)); [|done].
      intros q s Hs. by rewrite learn_memoryFile. }
    destruct learned as [[|e] w1]; simpl in *.
    + right. split; [done|]. split; [done|].
      destruct (viewer (nifs_of (armature armo))); [left|right]; done.
    + left. by exists e.
Qed.

Lemma patch_throws_core (redoMaybes : bool)
    (keywordTable : gmap string KeywordInfo) (sha1 : string → option string)
    (showMessageBox : nat → string → Choice)
    (viewer : list string → Settled) (armo : Armo)
    (keywordsToPatch : list string) (w : World) (e : Error)
    (Hthrown : (patch redoMaybes keywordTable sha1 showMessageBox viewer armo
                  keywordsToPatch w).1 = Thrown e) :
  let w' := (patch redoMaybes keywordTable sha1 showMessageBox viewer armo
               keywordsToPatch w).2 in
  let asked := keywordsToAsk redoMaybes keywordTable sha1 armo
                 keywordsToPatch w in
  (e = TypeError ∧ memoryFile w' = memoryFile w ∧
   addedKeywords w' = addedKeywords w ∧
   ∃ k, k ∈ keywordsToPatch ∧ keywordTable !! k = None ∧
        (k ∈ Object_prototype →
         ∃ arma, arma ∈ armature armo ∧ arma_flags arma ≠ [])) ∨
  (e = InvalidKeywordType ∧ memoryFile w' = memoryFile w ∧
   ∃ k, k ∈ keywordsToPatch ∧ keywordTable !! k = None ∧
        k ∈ Object_prototype) ∨
  (e = CancelledByUser ∧ memoryFile w' = memoryFile w ∧
   ∃ j k, asked !! j = Some k ∧ showMessageBox j k = Choice_Cancel) ∨
  (e = ViewerError ∧ memoryFile w' = taggednifs w' ∧
   viewer (nifs_of (armature armo)) = Rejected ∧ asked ≠ [] ∧
   ∀ j k, asked !! j = Some k → showMessageBox j k ≠ Choice_Cancel).
Proof.
  revert Hthrown. unfold patch, keywordsToAsk.
  case_bool_decide; [done|].
  destruct (Promise_map sha1 _) as [hs|]; [|done].
  unfold decideAndLearn.
  remember (recordNames armo hs (logMessage (Checking (editorid armo)) w))
    as w1 eqn:Hw1.
  assert (Hw1f : memoryFile w1 = memoryFile w) by (by subst w1).
  assert (Hw1a : addedKeywords w1 = addedKeywords w) by (by subst w1).
  clear Hw1.
  pose proof (automaticPhase_frame redoMaybes keywordTable armo
                keywordsToPatch hs w1) as [_ Hf].
  pose proof (automaticPhase_asked redoMaybes keywordTable armo
                keywordsToPatch hs w1) as Hasked.
  destruct (automaticPhase _ _ _ _ _ w1) as [[|e'] [w2 ask]] eqn:Hauto;
    simpl in *.
  - pose proof (askAndLearn_result redoMaybes keywordTable showMessageBox
                  viewer armo hs (taggednifs w1) ask w2) as Hres.
    pose proof (forEach_learn_thrown_inv keywordTable (editorid armo) hs
                  (relevantHashes keywordTable (armature armo) hs)
                  (relevantAnswers redoMaybes keywordTable (taggednifs w1)
                     (armature armo) hs)
                  (questions showMessageBox ask) w2) as Hinv.
    pose proof (forEach_learn_thrown keywordTable (editorid armo) hs
                  (relevantHashes keywordTable (armature armo) hs)
                  (relevantAnswers redoMaybes keywordTable (taggednifs w1)
                     (armature armo) hs)
                  (questions showMessageBox ask) w2) as Hcanc.
    cbv zeta in Hres.
    destruct (forEach _ (questions showMessageBox ask) w2) as [c w3].
    destruct Hres as [[-> Hr]|[Hne [(e1 & Hc & Hr & Hfile)|(Hc & Hr & Hv)]]].
    + rewrite Hr. done.
    + simpl in Hc. rewrite Hr in Hfile |- *. simpl in Hfile |- *.
      intros [= ->]. subst c.
      destruct (Hinv e eq_refl) as ([k choice] & Hq & Hor).
      apply elem_of_questions in Hq. destruct Hq as (j & Hj & ->).
      simpl in Hor. destruct Hor as [[_ Hnone]|[-> Hcancel]].
      * destruct (Hasked k) as (info & Hinfo & _); [|congruence].
        apply list_elem_of_lookup. eauto.
      * right. right. left. split; [done|].
        split; [by rewrite Hfile, Hf|]. eauto.
    + simpl in Hc. intros Hthrown.
      destruct Hv as [[_ Hret]|[Hrej Hthr]]; [congruence|].
      rewrite Hthr in Hthrown. injection Hthrown as <-.
      right. right. right. split; [done|]. rewrite Hr. simpl.
      split; [done|]. split; [done|]. split; [done|].
      intros j k Hj Hcancel. subst c.
      assert (Hq : (k, Choice_Cancel) ∈ questions showMessageBox ask).
      { apply elem_of_questions. exists j. by rewrite Hcancel. }
      assert (Hknown : ∀ q, q ∈ questions showMessageBox ask →
                is_Some (keywordTable !! q.1)).
      { intros [k' c'] Hq'. apply elem_of_questions in Hq'.
        destruct Hq' as (j' & Hj' & _). simpl.
        destruct (Hasked k') as (info & -> & _); [|done].
        apply list_elem_of_lookup. eauto. }
      specialize (Hcanc k Hknown Hq). discriminate.
  - intros [= ->]. unfold automaticPhase in Hauto.
    pose proof (forEach_relevancePass_result keywordTable (armature armo) hs
                  keywordsToPatch w1) as Hrel.
    pose proof (relevancePass_frame keywordTable (armature armo) hs
                  keywordsToPatch w1) as (_ & _ & Hadd).
    destruct (forEach (relevancePass _ _ _) _ w1) as [[|e1] w1'];
      simpl in Hrel.
    + destruct (every _ keywordsToPatch) eqn:Hevery; [|done].
      rewrite every_spec in Hevery.
      pose proof (forEach_automatic_thrown keywordTable (editorid armo)
                    (relevantAnswers redoMaybes keywordTable (taggednifs w1)
                       (armature armo) hs) keywordsToPatch (w1', []) e)
        as Haut.
      rewrite Hauto in Haut.
      destruct Haut as (-> & k & Hin & Hk); [|done|].
      { intros k Hk. by apply (getsThrough_true _ (armature armo) hs), Hevery. }
      right. left. split; [done|]. split; [by rewrite Hf|].
      apply keywordsAt_Inherited in Hk. destruct Hk as [Hnone Hproto].
      by exists k.
    + simplify_eq. destruct (every _ keywordsToPatch) eqn:Hevery; [done|].
      injection Hrel as <-. left. split; [done|].
      simpl in Hadd.
      split; [by rewrite Hf|]. split; [by rewrite Hadd|].
      apply every_false in Hevery. destruct Hevery as (k & Hin & Hk).
      apply getsThrough_false in Hk.
      destruct Hk as [Hnone Hflags]. exists k. split; [done|].
      split; [done|]. intros Hproto.
      destruct (Hflags Hproto) as (arma & Harma & Hfl). exists arma.
      split; [|done]. by apply (subseteq_take (length hs)).
Qed.


(** ** Which keywords [patch] adds *)

Lemma automatic_in (keywordTable : gmap string KeywordInfo) (armo : string)
    (relevant : string → list Answered) (keywordsToPatch : list string)
    (s : World * list string) (a k : string) :
  let s' := (forEach (automatic keywordTable armo relevant)
               keywordsToPatch s).2 in
  (k ∈ s'.2 → k ∈ s.2 ∨ k ∈ keywordsToPatch) ∧
  ((a, k) ∈ addedKeywords s'.1 →
   (a, k) ∈ addedKeywords s.1 ∨ (a = armo ∧ k ∈ keywordsToPatch)).
Proof.
  apply (forEach_preserves_elem
           (λ s', (k ∈ s'.2 → k ∈ s.2 ∨ k ∈ keywordsToPatch) ∧
                  ((a, k) ∈ addedKeywords s'.1 →
                   (a, k) ∈ addedKeywords s.1 ∨
                   (a = armo ∧ k ∈ keywordsToPatch)))); [|auto].
  intros x s0 Hx [Hask Hadd]. unfold automatic, keywordsAt.
  destruct (keywordTable !! x) as [info|]; [|by case_decide].
  destruct (verdict (type info) (relevant x)); simpl; split; try done.
  - intros Hin. apply elem_of_app in Hin. destruct Hin as [Hin|Hin]; [auto|].
    apply list_elem_of_singleton in Hin. simplify_eq. auto.
  - intros Hin. apply elem_of_app in Hin. destruct Hin as [Hin|Hin]; [auto|].
    apply list_elem_of_singleton in Hin. subst k. auto.
Qed.

Lemma automaticPhase_in (redoMaybes : bool)
    (keywordTable : gmap string KeywordInfo) (armo : Armo)
    (keywordsToPatch hashes : list string) (w : World) (a k : string) :
  let s' := (automaticPhase redoMaybes keywordTable armo keywordsToPatch
               hashes w).2 in
  (k ∈ s'.2 → k ∈ keywordsToPatch) ∧
  ((a, k) ∈ addedKeywords s'.1 →
   (a, k) ∈ addedKeywords w ∨ (a = editorid armo ∧ k ∈ keywordsToPatch)).
Proof.
  unfold automaticPhase.
  pose proof (relevancePass_frame keywordTable (armature armo) hashes
                keywordsToPatch w) as (_ & _ & Hadd).
  destruct (forEach (relevancePass _ _ _) _ w) as [[|e] w1]; simpl in *.
  - pose proof (automatic_in keywordTable (editorid armo)
                  (relevantAnswers redoMaybes keywordTable (taggednifs w)
                     (armature armo) hashes)
                  keywordsToPatch (w1, []) a k) as [Hask Hin].
    simpl in *. rewrite Hadd in Hin. split; [|done].
    intros Hk. destruct (Hask Hk) as [Hnil|?]; [|done].
    by apply elem_of_nil in Hnil.
  - rewrite Hadd. split; [|auto]. intros Hk. by apply elem_of_nil in Hk.
Qed.

Lemma learn_added (keywordTable : gmap string KeywordInfo) (armo : string)
    (hashes : list string) (relHashes : string → list string)
    (relAnswers : string → list Answered) (q : string * Choice) (w : World)
    (a k : string) :
  (a, k) ∈ addedKeywords
             (learn keywordTable armo hashes relHashes relAnswers q w).2 →
  (a, k) ∈ addedKeywords w ∨
  (a = armo ∧ k = q.1 ∧
   (q.2 = Choice_Yes ∨ q.2 = Choice_MaybeYes) ∧
   ∃ info, keywordTable !! k = Some info ∧ type info = Exclusive).
Proof.
  unfold learn, keywordsAt. destruct q as [keyword choice].
  destruct (keywordTable !! keyword) as [info|] eqn:Hinfo;
    [|case_decide; auto].
  destruct (type info) eqn:Htype, choice; simpl; auto.
  all: intros Hin; apply elem_of_app in Hin; destruct Hin as [Hin|Hin];
    [auto|]; apply list_elem_of_singleton in Hin; simplify_eq;
    right; split_and!; eauto.
Qed.

Lemma forEach_learn_added (keywordTable : gmap string KeywordInfo)
    (armo : string) (hashes : list string) (relHashes : string → list string)
    (relAnswers : string → list Answered) (qs : list (string * Choice))
    (w : World) (a k : string) :
  (a, k) ∈ addedKeywords
             (forEach (learn keywordTable armo hashes relHashes relAnswers)
                qs w).2 →
  (a, k) ∈ addedKeywords w ∨
  (a = armo ∧
   (∃ choice, (k, choice) ∈ qs ∧
              (choice = Choice_Yes ∨ choice = Choice_MaybeYes)) ∧
   ∃ info, keywordTable !! k = Some info ∧ type info = Exclusive).
Proof.
  apply (forEach_preserves_elem
           (λ s, (a, k) ∈ addedKeywords s →
                 (a, k) ∈ addedKeywords w ∨
                 (a = armo ∧
                  (∃ choice, (k, choice) ∈ qs ∧
                     (choice = Choice_Yes ∨ choice = Choice_MaybeYes)) ∧
                  ∃ info, keywordTable !! k = Some info ∧
                          type info = Exclusive))); [|auto].
  intros [k' choice] s Hq Hs Hin. apply learn_added in Hin. simpl in Hin.
  destruct Hin as [Hin|(-> & -> & Hpos & Hinfo)]; [auto|].
  right. split; [done|]. split; [|done]. eauto.
Qed.

Lemma patch_adds_core (redoMaybes : bool)
    (keywordTable : gmap string KeywordInfo) (sha1 : string → option string)
    (showMessageBox : nat → string → Choice)
    (viewer : list string → Settled) (armo : Armo)
    (keywordsToPatch : list string) (w : World) (a k : string)
    (Hadded : (a, k) ∈ addedKeywords
                (patch redoMaybes keywordTable sha1 showMessageBox viewer armo
                   keywordsToPatch w).2) :
  (a, k) ∈ addedKeywords w ∨
  (a = editorid armo ∧ k ∈ keywordsToPatch ∧
   ∃ info, keywordTable !! k = Some info ∧
     (k ∈ keywordsToAsk redoMaybes keywordTable sha1 armo keywordsToPatch w →
      type info = Exclusive ∧
      ∃ j, keywordsToAsk redoMaybes keywordTable sha1 armo keywordsToPatch w
             !! j = Some k ∧
           (showMessageBox j k = Choice_Yes ∨
            showMessageBox j k = Choice_MaybeYes))).
Proof.
  revert Hadded. unfold patch, keywordsToAsk.
  case_bool_decide; [auto|].
  destruct (Promise_map sha1 _) as [hs|]; [|auto].
  unfold decideAndLearn.
  remember (recordNames armo hs (logMessage (Checking (editorid armo)) w))
    as w1 eqn:Hw1.
  assert (Hw1a : addedKeywords w1 = addedKeywords w) by (by subst w1).
  clear Hw1.
  pose proof (automaticPhase_in redoMaybes keywordTable armo keywordsToPatch
                hs w1 a k) as [Hask Hin].
  pose proof (automaticPhase_asked redoMaybes keywordTable armo
                keywordsToPatch hs w1 k) as Hverdict.
  pose proof (automaticPhase_added redoMaybes keywordTable armo
                keywordsToPatch hs w1 a k) as Happly.
  rewrite Hw1a in Hin, Happly.
  assert (Hauto : ∀ w2 ask,
            (automaticPhase redoMaybes keywordTable armo keywordsToPatch hs
               w1).2 = (w2, ask) →
            (a, k) ∈ addedKeywords w2 →
            (a, k) ∈ addedKeywords w ∨
            (a = editorid armo ∧ k ∈ keywordsToPatch ∧
             ∃ info, keywordTable !! k = Some info ∧
               (k ∈ ask →
                type info = Exclusive ∧
                ∃ j, ask !! j = Some k ∧
                     (showMessageBox j k = Choice_Yes ∨
                      showMessageBox j k = Choice_MaybeYes)))).
  { intros w2 ask Heq Hk. rewrite Heq in Hin, Hverdict, Happly. simpl in *.
    destruct (Hin Hk) as [?|[-> Hkws]]; [auto|].
    destruct (Happly Hk) as [?|(info & Hinfo & Hv)]; [auto|].
    right. split; [done|]. split; [done|]. exists info. split; [done|].
    intros Hasked. destruct (Hverdict Hasked) as (info' & Hinfo' & Hv').
    congruence. }
  destruct (automaticPhase _ _ _ _ _ w1) as [[|e] [w2 ask]]; simpl in *.
  2:{ intros Hk. destruct (Hauto w2 ask eq_refl Hk) as [?|(? & ? & info & ? & _)];
        [auto|].
      right. split; [done|]. split; [done|]. exists info. split; [done|].
      intros Hnil. by apply elem_of_nil in Hnil. }
  unfold askAndLearn. case_bool_decide as Hlen.
  { simpl. by apply Hauto. }
  set (f := learn keywordTable (editorid armo) hs
              (relevantHashes keywordTable (armature armo) hs)
              (relevantAnswers redoMaybes keywordTable (taggednifs w1)
                 (armature armo) hs)).
  pose proof (forEach_learn_added keywordTable (editorid armo) hs
                (relevantHashes keywordTable (armature armo) hs)
                (relevantAnswers redoMaybes keywordTable (taggednifs w1)
                   (armature armo) hs)
                (questions showMessageBox ask) w2 a k) as Hlearn.
  fold f in Hlearn.
  assert (Hfinal : (a, k) ∈ addedKeywords
                     (forEach f (questions showMessageBox ask) w2).2 →
            (a, k) ∈ addedKeywords w ∨
            (a = editorid armo ∧ k ∈ keywordsToPatch ∧
             ∃ info, keywordTable !! k = Some info ∧
               (k ∈ ask →
                type info = Exclusive ∧
                ∃ j, ask !! j = Some k ∧
                     (showMessageBox j k = Choice_Yes ∨
                      showMessageBox j k = Choice_MaybeYes)))).
  { intros Hk. destruct (Hlearn Hk) as [Hk2|(-> & (choice & Hq & Hpos) & Hex)].
    - by apply (Hauto w2 ask).
    - destruct Hex as (info & Hinfo & Htype).
      apply elem_of_questions in Hq. destruct Hq as (j & Hj & ->).
      right. split; [done|]. split.
      { apply Hask. apply list_elem_of_lookup. eauto. }
      exists info. split; [done|]. intros _. split; [done|]. eauto. }
  destruct (forEach f (questions showMessageBox ask) w2) as [[|e] w3];
    simpl in *; done.
Qed.

(** X11: [patch] adds keywords to the record it is called for only, and
    only keywords that the filter left for it and that are in the table;
    a keyword it asked about is added only if it is Exclusive and the
    human answered [Yes] or [Maybe Yes] (an Inclusive keyword is never
    added on an answer of the human). *)
Theorem patch_adds (redoMaybes : bool)
    (keywordTable : gmap string KeywordInfo) (sha1 : string → option string)
    (showMessageBox : nat → string → Choice)
    (viewer : list string → Settled) (armo : Armo)
    (keywordsToPatch : list string) (w : World) (a k : string)
    (Hadded : (a, k) ∈ addedKeywords
                (patch redoMaybes keywordTable sha1 showMessageBox viewer armo
                   keywordsToPatch w).2) :
  (a, k) ∈ addedKeywords w ∨
  (a = editorid armo ∧ k ∈ keywordsToPatch ∧
   ∃ info, keywordTable !! k = Some info ∧
     (k ∈ keywordsToAsk redoMaybes keywordTable sha1 armo keywordsToPatch w →
      type info = Exclusive ∧
      ∃ j, keywordsToAsk redoMaybes keywordTable sha1 armo keywordsToPatch w
             !! j = Some k ∧
           (showMessageBox j k = Choice_Yes ∨
            showMessageBox j k = Choice_MaybeYes))).
Proof. by apply (patch_adds_core _ _ _ _ viewer). Qed.

(** ** A keyword without a description *)

Lemma forEach_automatic_Inherited (keywordTable : gmap string KeywordInfo)
    (armo : string) (relevant : string → list Answered)
    (keywordsToPatch : list string) (s : World * list string) (k : string) :
  (∀ k', k' ∈ keywordsToPatch → keywordsAt keywordTable k' ≠ Undefined) →
  k ∈ keywordsToPatch → keywordsAt keywordTable k = Inherited →
  (forEach (automatic keywordTable armo relevant) keywordsToPatch s).1 =
    Thrown InvalidKeywordType.
Proof.
  revert s. induction keywordsToPatch as [|k' ks IH]; intros s Hdef Hin Hk.
  - by apply elem_of_nil in Hin.
  - rewrite forEach_cons. unfold automatic at 1.
    destruct (keywordsAt keywordTable k') as [info| |] eqn:Hk'.
    + assert (Hks : k ∈ ks).
      { apply elem_of_cons in Hin. destruct Hin as [->|Hin]; [congruence|done]. }
      destruct (verdict (type info) (relevant k')); apply IH; try done;
        intros k0 Hk0; apply Hdef; by right.
    + done.
    + exfalso. apply (Hdef k'); [by left|done].
Qed.

(** X9: a keyword left for the record that has no description in the
    table makes [patch] throw once the nifs are hashed: the names of the
    nifs are then recorded in the memories of the process, nothing is
    asked and the memory file is not written.  When the name is nowhere,
    or when one of the ARMAs the second loop looks at has a flag, that
    loop throws a [TypeError] and nothing is added to the record.
    Otherwise the name is one of [Object.prototype] and the third loop
    throws the error of [invalidKeywordType]; what it has added by then
    are keywords of the list with a description and the verdict
    [Apply]. *)
Theorem patch_unknown_keyword (redoMaybes : bool)
    (keywordTable : gmap string KeywordInfo) (sha1 : string → option string)
    (showMessageBox : nat → string → Choice)
    (viewer : list string → Settled) (armo : Armo)
    (keywordsToPatch hashes : list string) (w : World) (k : string)
    (Hnifs : nifs_of (armature armo) ≠ [])
    (Hhash : Promise_map sha1 (nifs_of (armature armo)) = Some hashes)
    (Hin : k ∈ keywordsToPatch)
    (Hunknown : keywordTable !! k = None) :
  ∃ e w', patch redoMaybes keywordTable sha1 showMessageBox viewer armo
            keywordsToPatch w = (Thrown e, w') ∧
    taggednifs w' =
      each_addName hashes (nifs_of (armature armo)) (taggednifs w) ∧
    memoryFile w' = memoryFile w ∧
    keywordsToAsk redoMaybes keywordTable sha1 armo keywordsToPatch w = [] ∧
    (e = TypeError ∧ addedKeywords w' = addedKeywords w ∨
     e = InvalidKeywordType ∧ k ∈ Object_prototype ∧
     ∀ a k', (a, k') ∈ addedKeywords w' →
       (a, k') ∈ addedKeywords w ∨
       (a = editorid armo ∧ k' ∈ keywordsToPatch ∧
        is_Some (keywordTable !! k') ∧
        verdictOf redoMaybes keywordTable (taggednifs w) (armature armo)
          hashes k' = Apply)) ∧
    (k ∉ Object_prototype → e = TypeError) ∧
    ((∃ arma, arma ∈ take (length hashes) (armature armo) ∧
              arma_flags arma ≠ []) →
     e = TypeError).
Proof.
  unfold patch, keywordsToAsk.
  rewrite bool_decide_eq_false_2.
  2:{ intros Hlen. by apply nil_length_inv in Hlen. }
  rewrite Hhash. unfold decideAndLearn.
  set (w1 := recordNames armo hashes (logMessage (Checking (editorid armo)) w)).
  pose proof (automaticPhase_frame redoMaybes keywordTable armo
                keywordsToPatch hashes w1) as [Ht Hf].
  pose proof (automaticPhase_added redoMaybes keywordTable armo
                keywordsToPatch hashes w1) as Hadded.
  pose proof (automaticPhase_in redoMaybes keywordTable armo
                keywordsToPatch hashes w1) as Hwhere.
  assert (Hends :
    ∃ e s, automaticPhase redoMaybes keywordTable armo keywordsToPatch
             hashes w1 = (Thrown e, s) ∧
      (e = TypeError ∧ addedKeywords s.1 = addedKeywords w ∧
       every (getsThrough keywordTable (armature armo) hashes)
         keywordsToPatch = false ∨
       e = InvalidKeywordType ∧
       every (getsThrough keywordTable (armature armo) hashes)
         keywordsToPatch = true)).
  { unfold automaticPhase.
    pose proof (forEach_relevancePass_result keywordTable (armature armo)
                  hashes keywordsToPatch w1) as Hrel.
    pose proof (relevancePass_frame keywordTable (armature armo) hashes
                  keywordsToPatch w1) as (_ & _ & Hadd).
    destruct (forEach (relevancePass _ _ _) _ w1) as [c w1'].
    simpl in Hrel, Hadd. subst c.
    destruct (every _ keywordsToPatch) eqn:Hevery.
    - rewrite every_spec in Hevery.
      assert (Hdef : ∀ k', k' ∈ keywordsToPatch →
                keywordsAt keywordTable k' ≠ Undefined).
      { intros k' Hk'.
        by apply (getsThrough_true _ (armature armo) hashes), Hevery. }
      assert (Hk : keywordsAt keywordTable k = Inherited).
      { specialize (Hdef k Hin). unfold keywordsAt in *.
        rewrite Hunknown in *. by case_decide. }
      pose proof (forEach_automatic_Inherited keywordTable (editorid armo)
                    (relevantAnswers redoMaybes keywordTable (taggednifs w1)
                       (armature armo) hashes)
                    keywordsToPatch (w1', []) k Hdef Hin Hk) as Hthrown.
      destruct (forEach (automatic _ _ _) _ (w1', [])) as [c s].
      simpl in Hthrown. subst c. exists InvalidKeywordType, s.
      split; [done|]. by right.
    - exists TypeError, (w1', []). split; [done|]. left.
      split; [done|]. split; [|done]. simpl. by rewrite Hadd. }
  destruct Hends as (e & s & Hauto & Hcases).
  rewrite Hauto in Ht, Hf, Hadded, Hwhere |- *. simpl in *.
  exists e, s.1. split; [done|]. split; [done|]. split; [done|].
  split; [done|]. split; [|split].
  - destruct Hcases as [(-> & Hadd & _)|(-> & Hevery)]; [by left|right].
    split; [done|]. rewrite every_spec in Hevery.
    split.
    { specialize (Hevery k Hin). apply getsThrough_true in Hevery.
      unfold keywordsAt in Hevery. rewrite Hunknown in Hevery.
      by case_decide. }
    intros a k' Hk'. destruct (Hwhere a k') as [_ Hw].
    destruct (Hadded a k' Hk') as [?|(info & Hinfo & Hv)]; [by left|].
    destruct (Hw Hk') as [?|[-> Hkin]]; [by left|]. right.
    split; [done|]. split; [done|]. split; [by rewrite Hinfo|].
    unfold verdictOf. rewrite Hinfo.
    by rewrite relevantAnswers_each_addName in Hv.
  - intros Hproto. destruct Hcases as [(-> & _)|(-> & Hevery)]; [done|].
    rewrite every_spec in Hevery. specialize (Hevery k Hin).
    by rewrite getsThrough_Undefined in Hevery.
  - intros (arma & Harma & Hflags).
    destruct Hcases as [(-> & _)|(-> & Hevery)]; [done|].
    rewrite every_spec in Hevery. specialize (Hevery k Hin).
    unfold getsThrough, keywordsAt in Hevery. rewrite Hunknown in Hevery.
    case_decide; [|done]. rewrite every_spec in Hevery.
    specialize (Hevery arma Harma). by apply bool_decide_eq_true in Hevery.
Qed.

(** ** Learning for Inclusive keywords *)

(** X13: when the human answers [Yes] or [Maybe Yes] for an Inclusive
    keyword, no keyword is added to the record.  The list of ambiguous
    hashes has one entry for each relevant ARMA whose hash has a
    normalised answer other than [No], so a hash that two such ARMAs
    share is in it twice.  When this list has exactly one entry, the
    chosen answer is stored for that keyword under that hash and nothing
    else changes; when it has no entry or more than one, the memories
    are left as they were. *)
Theorem learn_Inclusive_positive (redoMaybes : bool)
    (keywordTable : gmap string KeywordInfo) (armo : string)
    (armas : list Arma) (hashes : list string) (t : gmap string Memory)
    (keyword : string) (info : KeywordInfo) (choice : Choice) (answer : Answer)
    (w : World)
    (Hinfo : keywordTable !! keyword = Some info)
    (Htype : type info = Inclusive)
    (Hchoice : answerOf choice = Some answer)
    (Hpos : answer = Yes ∨ answer = MaybeYes) :
  ∃ w', learn keywordTable armo hashes
          (relevantHashes keywordTable armas hashes)
          (relevantAnswers redoMaybes keywordTable t armas hashes)
          (keyword, choice) w = (Returned, w') ∧
    addedKeywords w' = addedKeywords w ∧
    memoryFile w' = memoryFile w ∧
    (∀ hash,
       ambiguous redoMaybes keywordTable t armas hashes keyword No = [hash] →
       taggednifs w' = addAnswer keyword hash answer (taggednifs w) ∧
       remembered (taggednifs w') hash keyword = Some answer ∧
       (∀ h k, h ≠ hash ∨ k ≠ keyword →
          remembered (taggednifs w') h k = remembered (taggednifs w) h k)) ∧
    (length (ambiguous redoMaybes keywordTable t armas hashes keyword No) ≠ 1 →
       taggednifs w' = taggednifs w).
Proof.
  unfold learn. rewrite (keywordsAt_Some _ _ _ Hinfo), Htype, hhashes_ambiguous.
  set (amb := ambiguous redoMaybes keywordTable t armas hashes keyword No).
  exists (onMemories (addAnswer_single keyword answer amb) w).
  split.
  { destruct Hpos as [->| ->], choice; simpl in Hchoice; try discriminate;
      reflexivity. }
  split; [done|]. split; [done|]. simpl. split.
  - intros hash ->. simpl. split; [done|]. split.
    + rewrite remembered_addAnswer. by rewrite decide_True.
    + intros h k Hhk. rewrite remembered_addAnswer.
      rewrite decide_False; [done|]. intros [? ?]. destruct Hhk; by subst.
  - intros Hlen. by destruct amb as [|? [|? ?]].
Qed.

(** X14: when the human answers [No] or [Maybe No] for an Inclusive
    keyword, no keyword is added to the record and the chosen answer is
    stored for that keyword under the hash of every component, relevant or
    not; no other answer and no name changes. *)
Theorem learn_Inclusive_negative (keywordTable : gmap string KeywordInfo)
    (armo : string) (hashes : list string)
    (relHashes : string → list string) (relAnswers : string → list Answered)
    (keyword : string) (info : KeywordInfo) (choice : Choice) (answer : Answer)
    (w : World)
    (Hinfo : keywordTable !! keyword = Some info)
    (Htype : type info = Inclusive)
    (Hchoice : answerOf choice = Some answer)
    (Hneg : answer = No ∨ answer = MaybeNo) :
  ∃ w', learn keywordTable armo hashes relHashes relAnswers
          (keyword, choice) w = (Returned, w') ∧
    addedKeywords w' = addedKeywords w ∧
    memoryFile w' = memoryFile w ∧
    taggednifs w' = addAnswer_all keyword answer hashes (taggednifs w) ∧
    (∀ hash, hash ∈ hashes →
             remembered (taggednifs w') hash keyword = Some answer) ∧
    (∀ h k, h ∉ hashes ∨ k ≠ keyword →
            remembered (taggednifs w') h k = remembered (taggednifs w) h k) ∧
    (∀ h, storedNames (taggednifs w') h = storedNames (taggednifs w) h).
Proof.
  unfold learn. rewrite (keywordsAt_Some _ _ _ Hinfo), Htype.
  exists (onMemories (addAnswer_all keyword answer hashes) w).
  split.
  { destruct Hneg as [->| ->], choice; simpl in Hchoice; try discriminate;
      reflexivity. }
  split; [done|]. split; [done|]. split; [done|]. simpl. split_and!.
  - intros hash Hin. rewrite remembered_addAnswer_all.
    by rewrite decide_True.
  - intros h k Hhk. rewrite remembered_addAnswer_all.
    rewrite decide_False; [done|]. intros [? ?]. destruct Hhk; by subst.
  - intros h. apply storedNames_addAnswer_all.
Qed.

(** ** From one run to the next *)

Lemma ambiguous_relevant (redoMaybes : bool)
    (keywordTable : gmap string KeywordInfo) (t : gmap string Memory)
    (armas : list Arma) (hashes : list string) (keyword : string)
    (known : Answer) (hash : string) :
  hash ∈ ambiguous redoMaybes keywordTable t armas hashes keyword known →
  hash ∈ relevantHashes keywordTable armas hashes keyword.
Proof.
  unfold ambiguous. intros Hin. apply list_elem_of_filter in Hin.
  by destruct Hin.
Qed.

Lemma elem_of_relevantAnswers (redoMaybes : bool)
    (keywordTable : gmap string KeywordInfo) (t : gmap string Memory)
    (armas : list Arma) (hashes : list string) (keyword : string)
    (a : Answered) :
  a ∈ relevantAnswers redoMaybes keywordTable t armas hashes keyword ↔
  ∃ hash, hash ∈ relevantHashes keywordTable armas hashes keyword ∧
          a = normalise redoMaybes (remembered t hash keyword).
Proof.
  rewrite relevantAnswers_relevantHashes, list_elem_of_fmap.
  split; intros (hash & ? & ?); eauto.
Qed.

Lemma Forall_relevantAnswers (redoMaybes : bool)
    (keywordTable : gmap string KeywordInfo) (t : gmap string Memory)
    (armas : list Arma) (hashes : list string) (keyword : string)
    (a : Answered) :
  Forall (λ x, x = a)
    (relevantAnswers redoMaybes keywordTable t armas hashes keyword) ↔
  ∀ hash, hash ∈ relevantHashes keywordTable armas hashes keyword →
          normalise redoMaybes (remembered t hash keyword) = a.
Proof.
  rewrite relevantAnswers_relevantHashes, Forall_fmap, Forall_forall.
  reflexivity.
Qed.

(** X15: what is learned for an Exclusive keyword decides the next run.
    Once [Yes] (or [Maybe Yes], when [redoMaybes] is off) is stored under
    every hash of the record, the verdict is [Apply]: the record is tagged
    without a question.  With [redoMaybes] on, a stored [Maybe Yes] under
    every hash leads to the question again as soon as one component is
    relevant.  Once [No] (or [Maybe No], with [redoMaybes] off) is stored
    under one relevant hash, the verdict is [Skip]. *)
Theorem Exclusive_learned_verdict (redoMaybes : bool)
    (keywordTable : gmap string KeywordInfo) (t : gmap string Memory)
    (armas : list Arma) (hashes : list string) (keyword : string)
    (info : KeywordInfo) (answer : Answer)
    (Hinfo : keywordTable !! keyword = Some info)
    (Htype : type info = Exclusive) :
  (normalise redoMaybes (Some answer) = Some Yes →
   verdictOf redoMaybes keywordTable
     (addAnswer_all keyword answer hashes t) armas hashes keyword = Apply) ∧
  (normalise redoMaybes (Some answer) = None →
   relevantHashes keywordTable armas hashes keyword ≠ [] →
   verdictOf redoMaybes keywordTable
     (addAnswer_all keyword answer hashes t) armas hashes keyword = Ask) ∧
  (∀ hash,
     normalise redoMaybes (Some answer) = Some No →
     hash ∈ relevantHashes keywordTable armas hashes keyword →
     verdictOf redoMaybes keywordTable
       (addAnswer keyword hash answer t) armas hashes keyword = Skip).
Proof.
  unfold verdictOf. rewrite Hinfo, Htype.
  assert (Hall : ∀ hash,
            hash ∈ relevantHashes keywordTable armas hashes keyword →
            remembered (addAnswer_all keyword answer hashes t) hash keyword =
              Some answer).
  { intros hash Hin. apply relevantHashes_elem_of in Hin.
    rewrite remembered_addAnswer_all. by rewrite decide_True. }
  split_and!.
  - intros Hnorm. rewrite verdict_Exclusive_cases.
    rewrite decide_True; [done|]. apply Forall_relevantAnswers.
    intros hash Hin. by rewrite Hall.
  - intros Hnorm Hne. rewrite verdict_Exclusive_cases.
    assert (Hex : ∃ hash,
              hash ∈ relevantHashes keywordTable armas hashes keyword).
    { destruct (relevantHashes keywordTable armas hashes keyword)
        as [|hash rest]; [done|]. exists hash. by left. }
    destruct Hex as [hash Hin].
    rewrite decide_False.
    2:{ rewrite Forall_relevantAnswers. intros HF.
        specialize (HF hash Hin). rewrite Hall in HF by done. congruence. }
    rewrite decide_False; [done|].
    rewrite elem_of_relevantAnswers. intros (h & Hh & Heq).
    rewrite Hall in Heq by done. congruence.
  - intros hash Hnorm Hin. rewrite verdict_Exclusive_cases.
    assert (Hrem : remembered (addAnswer keyword hash answer t) hash keyword =
                     Some answer).
    { rewrite remembered_addAnswer. by rewrite decide_True. }
    rewrite decide_False.
    2:{ rewrite Forall_relevantAnswers. intros HF.
        specialize (HF hash Hin). rewrite Hrem in HF. congruence. }
    rewrite decide_True; [done|].
    apply elem_of_relevantAnswers. exists hash. split; [done|].
    by rewrite Hrem.
Qed.

(** X16: the same for an Inclusive keyword.  Once [No] (or [Maybe No],
    with [redoMaybes] off) is stored under every hash of the record, the
    verdict is [Skip]; once [Yes] (or [Maybe Yes], with [redoMaybes] off)
    is stored under one relevant hash, the verdict is [Apply]. *)
Theorem Inclusive_learned_verdict (redoMaybes : bool)
    (keywordTable : gmap string KeywordInfo) (t : gmap string Memory)
    (armas : list Arma) (hashes : list string) (keyword : string)
    (info : KeywordInfo) (answer : Answer)
    (Hinfo : keywordTable !! keyword = Some info)
    (Htype : type info = Inclusive) :
  (normalise redoMaybes (Some answer) = Some No →
   verdictOf redoMaybes keywordTable
     (addAnswer_all keyword answer hashes t) armas hashes keyword = Skip) ∧
  (∀ hash,
     normalise redoMaybes (Some answer) = Some Yes →
     hash ∈ relevantHashes keywordTable armas hashes keyword →
     verdictOf redoMaybes keywordTable
       (addAnswer keyword hash answer t) armas hashes keyword = Apply).
Proof.
  unfold verdictOf. rewrite Hinfo, Htype. split.
  - intros Hnorm. rewrite verdict_Inclusive_cases.
    assert (HF : Forall (λ a, a = Some No)
              (relevantAnswers redoMaybes keywordTable
                 (addAnswer_all keyword answer hashes t) armas hashes keyword)).
    { apply Forall_relevantAnswers. intros hash Hin.
      apply relevantHashes_elem_of in Hin.
      rewrite remembered_addAnswer_all. by rewrite decide_True. }
    rewrite decide_False.
    2:{ by apply (Forall_eq_excludes (Some No) (Some Yes)). }
    by rewrite decide_True.
  - intros hash Hnorm Hin. rewrite verdict_Inclusive_cases.
    rewrite decide_True; [done|].
    apply elem_of_relevantAnswers. exists hash. split; [done|].
    rewrite remembered_addAnswer. by rewrite decide_True.
Qed.

Lemma normalise_true_definite (answer : option Answer) (a : Answer) :
  normalise true answer = Some a →
  answer = Some a ∧ normalise false answer = Some a.
Proof. destruct answer as [[]|]; simpl; intros [= <-]; done. Qed.

(** X17: [redoMaybes] only turns automatic verdicts into questions: a
    keyword that is decided without a question when [redoMaybes] is on gets
    the same verdict when it is off. *)
Theorem redoMaybes_only_asks_more (keywordTable : gmap string KeywordInfo)
    (t : gmap string Memory) (armas : list Arma) (hashes : list string)
    (keyword : string)
    (Hdecided : verdictOf true keywordTable t armas hashes keyword ≠ Ask) :
  verdictOf false keywordTable t armas hashes keyword =
  verdictOf true keywordTable t armas hashes keyword.
Proof.
  revert Hdecided. unfold verdictOf.
  destruct (keywordTable !! keyword) as [info|] eqn:Hinfo; [|done].
  set (rel := relevantHashes keywordTable armas hashes keyword).
  assert (Hall : ∀ a : Answer,
            Forall (λ x, x = Some a)
              (relevantAnswers true keywordTable t armas hashes keyword) →
            Forall (λ x, x = Some a)
              (relevantAnswers false keywordTable t armas hashes keyword)).
  { intros a. rewrite !Forall_relevantAnswers. intros HF hash Hin.
    by apply normalise_true_definite, HF. }
  assert (Hsome : ∀ a : Answer,
            Some a ∈ relevantAnswers true keywordTable t armas hashes keyword →
            Some a ∈ relevantAnswers false keywordTable t armas hashes keyword).
  { intros a. rewrite !elem_of_relevantAnswers. intros (hash & Hin & Heq).
    exists hash. split; [done|]. symmetry.
    by apply normalise_true_definite. }
  destruct (type info).
  - rewrite !verdict_Inclusive_cases.
    destruct (decide (Some Yes ∈ relevantAnswers true _ _ _ _ _)) as [HY|HY].
    { intros _. by rewrite decide_True by (by apply Hsome). }
    destruct (decide (Forall _ (relevantAnswers true _ _ _ _ _)))
      as [HN|HN]; [|done].
    intros _. apply Hall in HN.
    rewrite decide_False
      by (by apply (Forall_eq_excludes (Some No) (Some Yes))).
    by rewrite decide_True.
  - rewrite !verdict_Exclusive_cases.
    destruct (decide (Forall _ (relevantAnswers true _ _ _ _ _)))
      as [HY|HY].
    { intros _. by rewrite decide_True by (by apply Hall). }
    destruct (decide (Some No ∈ relevantAnswers true _ _ _ _ _)) as [HN|HN];
      [|done].
    intros _. apply Hsome in HN.
    rewrite decide_False.
    2:{ intros HF. by apply (Forall_eq_excludes (Some Yes) (Some No)) in HF. }
    by rewrite decide_True.
Qed.

(** ** More on the import merge *)

Lemma foldl_Set_add_spread (l acc : list string) :
  foldl Set_add acc (Set_spread l) = foldl Set_add acc l.
Proof.
  induction l as [|x l IH] using rev_ind; [done|].
  unfold Set_spread. rewrite !foldl_app. simpl. fold (Set_spread l).
  unfold Set_add at 2.
  destruct (decide (x ∈ Set_spread l)) as [Hx|Hx].
  - rewrite IH. unfold Set_add. rewrite decide_True; [done|].
    apply elem_of_foldl_Set_add. right. by apply elem_of_Set_spread.
  - rewrite foldl_app. simpl. by rewrite IH.
Qed.

Lemma Set_spread_app_l (l k : list string) :
  Set_spread (Set_spread l ++ k) = Set_spread (l ++ k).
Proof.
  unfold Set_spread at 1 3. rewrite !foldl_app. f_equal.
  apply foldl_Set_add_spread.
Qed.

Lemma Set_spread_app_r (l k : list string) :
  Set_spread (l ++ Set_spread k) = Set_spread (l ++ k).
Proof.
  unfold Set_spread at 1 3. rewrite !foldl_app.
  apply foldl_Set_add_spread.
Qed.

(** X20: importing two files one after the other gives the same store as
    importing their merge: [merge] is associative.  An empty import leaves
    the store as it is, and an import into an empty store gives the
    imported file. *)
Theorem merge_assoc (a b c : gmap string Memory) :
  merge (merge a b) c = merge a (merge b c) ∧
  merge a ∅ = a ∧
  merge ∅ a = a.
Proof.
  split_and!.
  - apply map_eq. intros h. rewrite !lookup_merge.
    destruct (a !! h) as [ma|], (b !! h) as [mb|], (c !! h) as [mc|];
      simpl; try done.
    f_equal. f_equal.
    + by rewrite Set_spread_app_l, Set_spread_app_r, app_assoc.
    + unfold Object_assign. by rewrite (assoc_L (∪)).
  - apply map_eq. intros h. by rewrite lookup_merge, lookup_empty.
  - apply map_eq. intros h. rewrite lookup_merge, lookup_empty.
    by destruct (a !! h).
Qed.

Lemma is_Some_merge (a b : gmap string Memory) (h : string) :
  is_Some (merge a b !! h) ↔ is_Some (a !! h) ∨ is_Some (b !! h).
Proof.
  rewrite lookup_merge.
  destruct (a !! h), (b !! h); split; eauto.
  intros [[? ?]|[? ?]]; done.
Qed.

Lemma elem_of_storedNames_merge (a b : gmap string Memory) (h x : string) :
  x ∈ storedNames (merge a b) h ↔ x ∈ storedNames a h ∨ x ∈ storedNames b h.
Proof.
  unfold storedNames. rewrite lookup_merge.
  destruct (a !! h) as [ma|], (b !! h) as [mb|]; simpl;
    rewrite ?elem_of_Set_spread, ?elem_of_app, ?elem_of_nil; tauto.
Qed.

Lemma remembered_merge (a b : gmap string Memory) (h k : string) :
  remembered (merge a b) h k =
    match remembered a h k with
    | Some x => Some x
    | None => remembered b h k
    end.
Proof.
  unfold remembered. rewrite lookup_merge.
  destruct (a !! h) as [ma|], (b !! h) as [mb|]; simpl; try done.
  - apply lookup_Object_assign.
  - by destruct (keywords ma !! k).
Qed.

(** X21: merging in the other direction gives the same hashes and, under
    each hash, the same set of names; the answer for a hash and a keyword
    is the local one when there is one and the imported one otherwise, so
    the two directions differ only where both stores have an answer. *)
Theorem merge_comm (a b : gmap string Memory) (h : string) :
  (is_Some (merge a b !! h) ↔ is_Some (a !! h) ∨ is_Some (b !! h)) ∧
  (is_Some (merge a b !! h) ↔ is_Some (merge b a !! h)) ∧
  (∀ x, x ∈ storedNames (merge a b) h ↔
        x ∈ storedNames a h ∨ x ∈ storedNames b h) ∧
  (∀ x, x ∈ storedNames (merge a b) h ↔ x ∈ storedNames (merge b a) h) ∧
  (∀ k, remembered (merge a b) h k =
          match remembered a h k with
          | Some x => Some x
          | None => remembered b h k
          end) ∧
  (∀ k, remembered a h k = None ∨ remembered b h k = None →
        remembered (merge a b) h k = remembered (merge b a) h k).
Proof.
  split_and!.
  - apply is_Some_merge.
  - rewrite !is_Some_merge. tauto.
  - apply elem_of_storedNames_merge.
  - intros x. rewrite !elem_of_storedNames_merge. tauto.
  - apply remembered_merge.
  - intros k Hnone. rewrite !remembered_merge.
    destruct Hnone as [-> | ->]; by destruct (remembered _ h k).
Qed.

(** ** The store only grows *)

Lemma grows_refl (t : gmap string Memory) : grows t t.
Proof. by intros h. Qed.

Lemma grows_trans (t1 t2 t3 : gmap string Memory) :
  grows t1 t2 → grows t2 t3 → grows t1 t3.
Proof.
  intros H12 H23 h. destruct (H12 h) as (Ha & Hb & Hc).
  destruct (H23 h) as (Ha' & Hb' & Hc'). split_and!; eauto.
Qed.

Lemma grows_addName (hash nif : string) (t : gmap string Memory) :
  grows t (addName hash nif t).
Proof.
  intros h. split_and!.
  - apply addName_is_Some.
  - intros x. apply storedNames_addName_mono.
  - intros k. by rewrite !remembered_stored, storedKeywords_addName.
Qed.

Lemma grows_addAnswer (keyword hash : string) (answer : Answer)
    (t : gmap string Memory) :
  grows t (addAnswer keyword hash answer t).
Proof.
  intros h. split_and!.
  - unfold addAnswer. intros Hh.
    destruct (decide (hash = h)) as [->|Hne].
    + rewrite lookup_insert_eq. eauto.
    + by rewrite lookup_insert_ne.
  - intros x. by rewrite storedNames_addAnswer.
  - intros k. rewrite remembered_addAnswer. case_decide; eauto.
Qed.

Lemma grows_each_addName (hashes nifs : list string) (t : gmap string Memory) :
  grows t (each_addName hashes nifs t).
Proof.
  unfold each_addName. generalize (zip hashes nifs). intros l. revert t.
  induction l as [|p l IH]; intros t; simpl; [apply grows_refl|].
  eapply grows_trans; [apply grows_addName|apply IH].
Qed.

Lemma grows_addAnswer_all (keyword : string) (answer : Answer)
    (hashes : list string) (t : gmap string Memory) :
  grows t (addAnswer_all keyword answer hashes t).
Proof.
  unfold addAnswer_all. revert t.
  induction hashes as [|hash hashes IH]; intros t; simpl; [apply grows_refl|].
  eapply grows_trans; [apply grows_addAnswer|apply IH].
Qed.

Lemma grows_learn (keywordTable : gmap string KeywordInfo) (armo : string)
    (hashes : list string) (relHashes : string → list string)
    (relAnswers : string → list Answered) (q : string * Choice) (w : World) :
  grows (taggednifs w)
    (taggednifs (learn keywordTable armo hashes relHashes relAnswers q w).2).
Proof.
  unfold learn, keywordsAt. destruct q as [keyword choice].
  destruct (keywordTable !! keyword) as [info|];
    [|case_decide; apply grows_refl].
  destruct (type info), choice; simpl;
    try apply grows_refl; try apply grows_addAnswer_all;
    unfold addAnswer_single;
    match goal with
    | |- context [hhashes ?a ?b ?c] => destruct (hhashes a b c) as [|? [|? ?]]
    end; try apply grows_refl; apply grows_addAnswer.
Qed.

(** What [patch] has done to the memories and to the file when it ends,
    whichever way it ends. *)
Lemma patch_memories (redoMaybes : bool)
    (keywordTable : gmap string KeywordInfo) (sha1 : string → option string)
    (showMessageBox : nat → string → Choice)
    (viewer : list string → Settled) (armo : Armo)
    (keywordsToPatch : list string) (w : World) :
  let w' := (patch redoMaybes keywordTable sha1 showMessageBox viewer armo
               keywordsToPatch w).2 in
  grows (taggednifs w) (taggednifs w') ∧
  (memoryFile w' = memoryFile w ∨ memoryFile w' = taggednifs w') ∧
  ((∀ h, storedNames (taggednifs w') h = storedNames (taggednifs w) h) ∨
   ∃ hashes, ∀ h,
     storedNames (taggednifs w') h =
     storedNames
       (each_addName hashes (nifs_of (armature armo)) (taggednifs w)) h).
Proof.
  unfold patch.
  case_bool_decide; [simpl; split_and!; auto using grows_refl|].
  destruct (Promise_map sha1 _) as [hs|];
    [|simpl; split_and!; auto using grows_refl].
  unfold decideAndLearn.
  remember (recordNames armo hs (logMessage (Checking (editorid armo)) w))
    as w1 eqn:Hw1.
  assert (Hw1t : taggednifs w1 =
                   each_addName hs (nifs_of (armature armo)) (taggednifs w))
    by (by subst w1).
  assert (Hw1f : memoryFile w1 = memoryFile w) by (by subst w1).
  clear Hw1.
  pose proof (automaticPhase_frame redoMaybes keywordTable armo
                keywordsToPatch hs w1) as [Ht Hf].
  assert (Hg1 : grows (taggednifs w) (taggednifs w1))
    by (rewrite Hw1t; apply grows_each_addName).
  destruct (automaticPhase _ _ _ _ _ w1) as [[|e] [w2 ask]]; simpl in *.
  2:{ rewrite Ht, Hf. split_and!; [done|auto|].
      right. exists hs. intros h. by rewrite Hw1t. }
  unfold askAndLearn. case_bool_decide.
  { simpl. rewrite Ht, Hf. split_and!; [done|auto|].
    right. exists hs. intros h. by rewrite Hw1t. }
  set (f := learn keywordTable (editorid armo) hs
              (relevantHashes keywordTable (armature armo) hs)
              (relevantAnswers redoMaybes keywordTable (taggednifs w1)
                 (armature armo) hs)).
  assert (Hinv : let w3 := (forEach f (questions showMessageBox ask) w2).2 in
            grows (taggednifs w2) (taggednifs w3) ∧
            memoryFile w3 = memoryFile w2 ∧
            ∀ h, storedNames (taggednifs w3) h = storedNames (taggednifs w2) h).
  { apply (forEach_preserves
             (λ s, grows (taggednifs w2) (taggednifs s) ∧
                   memoryFile s = memoryFile w2 ∧
                   ∀ h, storedNames (taggednifs s) h =
                        storedNames (taggednifs w2) h)).
    - intros q s (Hg & Hfile & Hn). unfold f. split_and!.
      + eapply grows_trans; [exact Hg|apply grows_learn].
      + by rewrite learn_memoryFile.
      + intros h. by rewrite storedNames_learn.
    - split_and!; [apply grows_refl|done|done]. }
  destruct (forEach f (questions showMessageBox ask) w2) as [[|e] w3];
    simpl in *; destruct Hinv as (Hg & Hfile & Hn); rewrite Ht in Hg, Hn.
  - split_and!; [by eapply grows_trans|by right|].
    right. exists hs. intros h. by rewrite Hn, Hw1t.
  - split_and!; [by eapply grows_trans|left; by rewrite Hfile, Hf|].
    right. exists hs. intros h. by rewrite Hn, Hw1t.
Qed.

Lemma NoDup_storedNames_each_addName (hashes nifs : list string)
    (t : gmap string Memory) (h : string) :
  NoDup (storedNames t h) → NoDup (storedNames (each_addName hashes nifs t) h).
Proof.
  unfold each_addName. generalize (zip hashes nifs). intros l. revert t.
  induction l as [|p l IH]; intros t Hnd; simpl; [done|].
  by apply IH, NoDup_storedNames_addName.
Qed.

(** X23: the store is append-only.  [patch] never drops a hash or a name
    from the memories of the process, and never removes an answer (it may
    replace it); the memory file it leaves is the file it found or the
    memories of the process.  The merge of an import keeps every hash,
    name and answered keyword of both stores. *)
Theorem store_only_grows (redoMaybes : bool)
    (keywordTable : gmap string KeywordInfo) (sha1 : string → option string)
    (showMessageBox : nat → string → Choice)
    (viewer : list string → Settled) (armo : Armo)
    (keywordsToPatch : list string) (w : World)
    (memories newMemories : gmap string Memory) :
  let w' := (patch redoMaybes keywordTable sha1 showMessageBox viewer armo
               keywordsToPatch w).2 in
  grows (taggednifs w) (taggednifs w') ∧
  (memoryFile w' = memoryFile w ∨ memoryFile w' = taggednifs w') ∧
  grows memories (merge memories newMemories) ∧
  grows newMemories (merge memories newMemories).
Proof.
  pose proof (patch_memories redoMaybes keywordTable sha1 showMessageBox
                viewer armo keywordsToPatch w) as (Hg & Hf & _).
  split; [exact Hg|]. split; [exact Hf|].
  split; intros h; split_and!.
  - intros Hh. apply is_Some_merge. by left.
  - intros x Hx. apply elem_of_storedNames_merge. by left.
  - intros k. rewrite remembered_merge.
    by destruct (remembered memories h k).
  - intros Hh. apply is_Some_merge. by right.
  - intros x Hx. apply elem_of_storedNames_merge. by right.
  - intros k. rewrite remembered_merge.
    by destruct (remembered memories h k).
Qed.

(** X24: if no name is stored twice under a hash, neither in the memories
    of the process nor in the memory file nor in an imported file, this
    stays so after [patch] (in the memories and in the file) and after an
    import. *)
Theorem names_not_repeated (redoMaybes : bool)
    (keywordTable : gmap string KeywordInfo) (sha1 : string → option string)
    (showMessageBox : nat → string → Choice)
    (viewer : list string → Settled) (armo : Armo)
    (keywordsToPatch : list string) (w : World)
    (newMemories : gmap string Memory)
    (Ht : ∀ h, NoDup (storedNames (taggednifs w) h))
    (Hf : ∀ h, NoDup (storedNames (memoryFile w) h))
    (Hnew : ∀ h, NoDup (storedNames newMemories h)) :
  let w' := (patch redoMaybes keywordTable sha1 showMessageBox viewer armo
               keywordsToPatch w).2 in
  (∀ h, NoDup (storedNames (taggednifs w') h)) ∧
  (∀ h, NoDup (storedNames (memoryFile w') h)) ∧
  (∀ h, NoDup (storedNames
                 (memoryFile (importMemories (Some newMemories) w)) h)).
Proof.
  pose proof (patch_memories redoMaybes keywordTable sha1 showMessageBox
                viewer armo keywordsToPatch w) as (_ & Hfile & Hnames).
  simpl in *.
  assert (Ht' : ∀ h, NoDup (storedNames
            (taggednifs (patch redoMaybes keywordTable sha1 showMessageBox viewer
                           armo keywordsToPatch w).2) h)).
  { intros h. destruct Hnames as [Hn|[hs Hn]]; rewrite Hn; [done|].
    by apply NoDup_storedNames_each_addName. }
  split; [done|]. split.
  - intros h. destruct Hfile as [-> | ->]; done.
  - intros h. by apply NoDup_storedNames_merge.
Qed.

(** ** [addAnswer] and [addName] *)

(** X18: [addAnswer] stores the answer whatever was stored before (a
    "maybe" answer replaces a definite one as well), so the last answer
    written for a hash and a keyword is the one remembered; it leaves the
    names and all other answers alone, and for an unknown hash it creates
    the memory with no name. *)
Theorem addAnswer_spec (keyword hash : string) (a1 a2 : Answer)
    (t : gmap string Memory) :
  remembered (addAnswer keyword hash a2 t) hash keyword = Some a2 ∧
  addAnswer keyword hash a2 (addAnswer keyword hash a1 t) =
    addAnswer keyword hash a2 t ∧
  (∀ h k, h ≠ hash ∨ k ≠ keyword →
     remembered (addAnswer keyword hash a2 t) h k = remembered t h k) ∧
  (∀ h, storedNames (addAnswer keyword hash a2 t) h = storedNames t h) ∧
  (t !! hash = None →
   addAnswer keyword hash a2 t !! hash =
     Some {| filenames := []; keywords := {[ keyword := a2 ]} |}).
Proof.
  split_and!.
  - rewrite remembered_addAnswer. by rewrite decide_True.
  - unfold addAnswer. rewrite lookup_insert_eq. simpl.
    rewrite insert_insert_eq. by rewrite insert_insert_eq.
  - intros h k Hhk. rewrite remembered_addAnswer.
    rewrite decide_False; [done|]. intros [? ?]. destruct Hhk; by subst.
  - intros h. apply storedNames_addAnswer.
  - intros Hnone. unfold addAnswer. rewrite Hnone, lookup_insert_eq. simpl.
    by rewrite insert_empty.
Qed.

(** X19: [addName] records a name once: the name is among the names of
    the hash afterwards, the names already there stay in front in their
    order, recording the same name again changes nothing, and for an
    unknown hash it creates the memory with this one name and no answer. *)
Theorem addName_spec (hash nif : string) (t : gmap string Memory) :
  (∀ h x, x ∈ storedNames (addName hash nif t) h ↔
          x ∈ storedNames t h ∨ (h = hash ∧ x = nif)) ∧
  (∀ h, storedNames t h `prefix_of` storedNames (addName hash nif t) h) ∧
  addName hash nif (addName hash nif t) = addName hash nif t ∧
  (∀ h, h ≠ hash → addName hash nif t !! h = t !! h) ∧
  (t !! hash = None →
   addName hash nif t !! hash =
     Some {| filenames := [nif]; keywords := ∅ |}).
Proof.
  split_and!.
  - intros h x. rewrite storedNames_addName.
    destruct (decide (hash = h)) as [->|Hne].
    + destruct (decide (nif ∈ storedNames t h)) as [Hin|Hin].
      * split; [auto|]. intros [?|[_ ->]]; done.
      * rewrite elem_of_app, list_elem_of_singleton. split.
        -- intros [?| ->]; auto.
        -- intros [?|[_ ->]]; auto.
    + split; [auto|]. intros [?|[-> _]]; done.
  - intros h. rewrite storedNames_addName.
    repeat case_decide; try done. by apply prefix_app_r.
  - unfold addName. rewrite lookup_insert_eq. simpl.
    rewrite insert_insert_eq. f_equal.
    generalize (filenames (default {| filenames := []; keywords := ∅ |}
                             (t !! hash))).
    intros fs. f_equal.
    destruct (decide (nif ∈ fs)) as [Hin|Hin].
    + by destruct (decide (nif ∈ fs)).
    + destruct (decide (nif ∈ fs ++ [nif])) as [|Hn]; [done|].
      exfalso. apply Hn. rewrite elem_of_app. right.
      by apply list_elem_of_singleton.
  - intros h Hne. unfold addName. by rewrite lookup_insert_ne.
  - intros Hnone. unfold addName. by rewrite Hnone, lookup_insert_eq.
Qed.

(** ** Import and the running process *)

(** X22: an import works on the memory file only.  Importing the same
    file a second time changes nothing but repetitions of names; an
    [initialize] after the import loads the merged memories; a save of the
    memories of the process with no [initialize] in between overwrites the
    file and with it what was imported; a dismissed file dialog leaves
    everything as it is. *)
Theorem importMemories_spec (newMemories : gmap string Memory) (w : World) :
  sameStore
    (memoryFile (importMemories (Some newMemories)
                   (importMemories (Some newMemories) w)))
    (memoryFile (importMemories (Some newMemories) w)) ∧
  taggednifs (initialize (importMemories (Some newMemories) w)) =
    merge (memoryFile w) newMemories ∧
  memoryFile (saveMemories (importMemories (Some newMemories) w)) =
    taggednifs w ∧
  importMemories None w = w.
Proof.
  split_and!; [|done..]. simpl. intros h. split_and!.
  - rewrite !is_Some_merge. tauto.
  - apply map_eq. intros k. rewrite <- !remembered_stored.
    rewrite !remembered_merge.
    by destruct (remembered (memoryFile w) h k),
                (remembered newMemories h k).
  - intros x. rewrite !elem_of_storedNames_merge. tauto.
Qed.

(** ** The filter and [patch] together *)

(** X6: for a table keyed by the keyword ids, patching a record the
    filter accepted ends in one of three ways: [patch] returns, it throws
    "Cancelled by user", or it is rejected with the error of the viewer.
    No keyword without a description and no missing list makes it throw.
    [patch] takes the entry of the record out of [locals.keywordsToPatch];
    and every keyword it adds is added to this record, is one of the
    configured keywords, and is not a keyword the record carried
    already. *)
Theorem filter_then_patch (redoMaybes : bool)
    (keywordTable : gmap string KeywordInfo) (sha1 : string → option string)
    (showMessageBox : nat → string → Choice)
    (viewer : list string → Settled)
    (settingsKeywords : list string) (record : ArmoRecord)
    (d d' : gmap string (list string)) (w : World)
    (Hid : ∀ key info, keywordTable !! key = Some info → id info = key)
    (Hkeep : filterRecord keywordTable settingsKeywords record d =
               (Keep true, d')) :
  let r := patchRecord redoMaybes keywordTable sha1 showMessageBox viewer
             record (w, d') in
  (r.1 = Returned ∨ r.1 = Thrown CancelledByUser ∨
   r.1 = Thrown ViewerError) ∧
  r.2.2 = delete (record_editorid record) d ∧
  ∀ a k, (a, k) ∈ addedKeywords r.2.1 →
         (a, k) ∈ addedKeywords w ∨
         (a = record_editorid record ∧ k ∈ settingsKeywords ∧
          k ∉ record_keywords record).
Proof.
  destruct (filterRecord_accepts_core keywordTable settingsKeywords record
              d d' Hkeep)
    as (_ & _ & Hknown & flags & ks & _ & -> & _ & Hsub & Hks).
  unfold patchRecord. simpl. rewrite lookup_insert_eq. simpl.
  assert (Hdescribed : ∀ k, k ∈ ks → keywordTable !! k ≠ None).
  { intros k Hk. apply Hks in Hk. destruct Hk as [Hk _].
    destruct (Hknown k Hk) as [? ?]. congruence. }
  split_and!.
  - destruct (patch redoMaybes keywordTable sha1 showMessageBox viewer
                (armoOf record) ks w).1 as [|e] eqn:Hr; [by left|].
    apply patch_throws_core in Hr. cbv zeta in Hr.
    destruct Hr as [(_ & _ & _ & k & Hk & Hnone & _)|
                    [(_ & _ & k & Hk & Hnone & _)|
                     [(-> & _)|(-> & _)]]]; auto.
    + by destruct (Hdescribed k Hk).
    + by destruct (Hdescribed k Hk).
  - apply delete_insert_eq.
  - intros a k Hadded. apply patch_adds_core in Hadded.
    destruct Hadded as [?|(-> & Hk & _)]; [auto|]. right.
    apply Hks in Hk. destruct Hk as [Hk Hall].
    split; [done|]. split; [done|].
    destruct (Hknown k Hk) as [info Hinfo].
    pose proof (Hid k info Hinfo) as Hidk.
    destruct (Hall k info Hk Hinfo Hidk) as (Hnot & _). by rewrite Hidk in Hnot.
Qed.

(** ** The further properties on concrete records *)

Lemma NoDup_storedNames_map_Forall (t : gmap string Memory) :
  map_Forall (λ _ m, NoDup (filenames m)) t → ∀ h, NoDup (storedNames t h).
Proof.
  intros Hall h. unfold storedNames.
  destruct (t !! h) as [m|] eqn:Hm; simpl; [|constructor].
  by apply (Hall h m).
Qed.

Lemma known_SOS_Revealing (k : string) :
  k ∈ ["SOS_Revealing"] → is_Some (knownKeywords !! k).
Proof.
  intros Hk. apply list_elem_of_singleton in Hk. subst k. by eexists.
Qed.

Lemma filterRecord_accepts_witness :
  (filterRecord knownKeywords ["SOS_Revealing"] Sample.robe ∅).1 = Keep true ∧
  ∃ ks, (filterRecord knownKeywords ["SOS_Revealing"] Sample.robe ∅).2 =
          <[ "Robe" := ks ]> ∅ ∧
        "SOS_Revealing" ∈ ks.
Proof.
  assert (Hkeep : filterRecord knownKeywords ["SOS_Revealing"] Sample.robe ∅ =
            (Keep true,
             (filterRecord knownKeywords ["SOS_Revealing"] Sample.robe ∅).2)).
  { rewrite (surjective_pairing (filterRecord _ _ _ _)) at 1. f_equal. }
  split; [reflexivity|].
  destruct (filterRecord_accepts _ _ _ _ _ Hkeep)
    as (_ & _ & _ & flags & ks & Hflags & Hd & _ & _ & Hks).
  exists ks. split; [exact Hd|]. apply Hks. split; [by_computation|].
  intros key info Hkey Hinfo Hid.
  apply list_elem_of_singleton in Hkey. subst key.
  assert (Hi : Some info = Some SOS_Revealing)
    by (rewrite <- Hinfo; reflexivity).
  injection Hi as ->.
  assert (Hfl : Some flags = Some [BodySlot.Body; BodySlot.Head])
    by (rewrite <- Hflags; reflexivity).
  injection Hfl as ->. split_and!.
  - by_computation.
  - apply hasSkipSlot_false. reflexivity.
  - exists BodySlot.Body. split; by_computation.
Defined.

Lemma filterRecord_skips_present_witness :
  filterRecord knownKeywords ["SOS_Revealing"] Sample.taggedRobe ∅ =
    (Keep false,
     (filterRecord knownKeywords ["SOS_Revealing"] Sample.taggedRobe ∅).2) ∧
  "SOS_Revealing" ∈ ["SOS_Revealing"] ∧
  knownKeywords !! "SOS_Revealing" = Some SOS_Revealing ∧
  id SOS_Revealing ∈ record_keywords Sample.taggedRobe ∧
  ∃ ks, (filterRecord knownKeywords ["SOS_Revealing"] Sample.taggedRobe ∅).2
          !! "Robe" = Some ks ∧
        "SOS_Revealing" ∉ ks.
Proof.
  assert (Hkeep :
    filterRecord knownKeywords ["SOS_Revealing"] Sample.taggedRobe ∅ =
      (Keep false,
       (filterRecord knownKeywords ["SOS_Revealing"] Sample.taggedRobe ∅).2)).
  { rewrite (surjective_pairing (filterRecord _ _ _ _)) at 1. f_equal. }
  assert (Hkey : "SOS_Revealing" ∈ ["SOS_Revealing"]) by by_computation.
  assert (Hinfo : knownKeywords !! "SOS_Revealing" = Some SOS_Revealing)
    by reflexivity.
  assert (Hhas : id SOS_Revealing ∈ record_keywords Sample.taggedRobe)
    by by_computation.
  split_and!; [exact Hkeep | exact Hkey | exact Hinfo | exact Hhas |].
  destruct (filterRecord_skips_present _ _ _ _ _ _ _ _ Hkeep Hkey Hinfo Hhas)
    as (ks & Hks & _ & Hnot).
  exists ks. split; [exact Hks | exact Hnot].
Defined.

Lemma automaticPhase_spec_witness :
  nifs_of (armature Scenario.outfit) ≠ [] ∧
  Promise_map Scenario.readable (nifs_of (armature Scenario.outfit)) =
    Some ["h1"; "h2"] ∧
  (∀ k, k ∈ ["SOS_Revealing"] → is_Some (knownKeywords !! k)) ∧
  keywordsToAsk false knownKeywords Scenario.readable Scenario.outfit
    ["SOS_Revealing"] Scenario.knowsA =
  filter (λ k, verdictOf false knownKeywords Scenario.h1Yes
                 (armature Scenario.outfit) ["h1"; "h2"] k = Ask)
         ["SOS_Revealing"].
Proof.
  assert (Hnifs : nifs_of (armature Scenario.outfit) ≠ [])
    by (vm_compute; discriminate).
  assert (Hhash : Promise_map Scenario.readable
                    (nifs_of (armature Scenario.outfit)) = Some ["h1"; "h2"])
    by (vm_compute; reflexivity).
  split; [exact Hnifs|]. split; [exact Hhash|].
  split; [exact known_SOS_Revealing|].
  exact (proj1 (automaticPhase_spec false knownKeywords Scenario.readable
                  Scenario.outfit ["SOS_Revealing"] ["h1"; "h2"]
                  Scenario.knowsA Hnifs Hhash known_SOS_Revealing)).
Defined.


(** A name of [Object.prototype] in the list, on a record whose only ARMA
    has no flag: the second loop gets through, the third one tags the
    record with the keyword in front and then throws. *)
Lemma patch_unknown_keyword_witness :
  nifs_of (armature Scenario.cloak) ≠ [] ∧
  Promise_map Scenario.readable (nifs_of (armature Scenario.cloak)) =
    Some ["h1"] ∧
  "constructor" ∈ ["SOS_Revealing"; "constructor"] ∧
  knownKeywords !! "constructor" = None ∧
  ∃ e w', patch false knownKeywords Scenario.readable
            (Scenario.always Choice_Yes) Scenario.closes Scenario.cloak
            ["SOS_Revealing"; "constructor"] Scenario.nothing =
            (Thrown e, w') ∧
          memoryFile w' = ∅ ∧
          keywordsToAsk false knownKeywords Scenario.readable Scenario.cloak
            ["SOS_Revealing"; "constructor"] Scenario.nothing = [].
Proof.
  assert (Hnifs : nifs_of (armature Scenario.cloak) ≠ [])
    by (vm_compute; discriminate).
  assert (Hhash : Promise_map Scenario.readable
                    (nifs_of (armature Scenario.cloak)) = Some ["h1"])
    by (vm_compute; reflexivity).
  assert (Hin : "constructor" ∈ ["SOS_Revealing"; "constructor"])
    by by_computation.
  assert (Hnone : knownKeywords !! "constructor" = None) by reflexivity.
  split_and!; [exact Hnifs | exact Hhash | exact Hin | exact Hnone |].
  destruct (patch_unknown_keyword false knownKeywords Scenario.readable
              (Scenario.always Choice_Yes) Scenario.closes Scenario.cloak
              ["SOS_Revealing"; "constructor"] ["h1"] Scenario.nothing
              "constructor" Hnifs Hhash Hin Hnone)
    as (e & w' & Hw' & _ & Hf & Hask & _).
  exists e, w'. split_and!; [exact Hw' | exact Hf | exact Hask].
Defined.

(** On that input the error is the one of [invalidKeywordType], and the
    record has got [SOS_Revealing] by then; with a flag on the ARMA the
    second loop throws a [TypeError] before anything is added; so it does
    for a name that is nowhere. *)
Example patch_inherited_keyword :
  (let r := patch false knownKeywords Scenario.readable
              (Scenario.always Choice_Yes) Scenario.closes Scenario.cloak
              ["SOS_Revealing"; "constructor"] Scenario.nothing in
   (r.1, addedKeywords r.2)) =
    (Thrown InvalidKeywordType, [("Cloak", "SOS_Revealing")]) ∧
  (let r := patch false knownKeywords Scenario.readable
              (Scenario.always Choice_Yes) Scenario.closes Scenario.top
              ["SOS_Revealing"; "constructor"] Scenario.nothing in
   (r.1, addedKeywords r.2)) = (Thrown TypeError, []) ∧
  (let r := patch false knownKeywords Scenario.readable
              (Scenario.always Choice_Yes) Scenario.closes Scenario.cloak
              ["SOS_Revealing"; "ArmorHelmet"] Scenario.nothing in
   (r.1, addedKeywords r.2)) = (Thrown TypeError, []).
Proof. split_and!; vm_compute; reflexivity. Qed.

Lemma patch_adds_witness :
  ("Top", "SOS_Revealing") ∈
    addedKeywords
      (patch false knownKeywords Scenario.readable
        (Scenario.always Choice_No) Scenario.closes
         Scenario.top ["SOS_Revealing"] Scenario.knowsA).2 ∧
  (("Top", "SOS_Revealing") ∈ addedKeywords Scenario.knowsA ∨
   "Top" = editorid Scenario.top ∧ "SOS_Revealing" ∈ ["SOS_Revealing"]).
Proof.
  assert (Hadded : ("Top", "SOS_Revealing") ∈
            addedKeywords
              (patch false knownKeywords Scenario.readable
                 (Scenario.always Choice_No)
                 Scenario.closes Scenario.top ["SOS_Revealing"]
                 Scenario.knowsA).2) by by_computation.
  split; [exact Hadded|].
  destruct (patch_adds false knownKeywords Scenario.readable
              (Scenario.always Choice_No)
              Scenario.closes Scenario.top ["SOS_Revealing"]
              Scenario.knowsA "Top" "SOS_Revealing" Hadded)
    as [Hold|(Ha & Hk & _)].
  - left. exact Hold.
  - right. split; [exact Ha | exact Hk].
Defined.

Lemma learn_Inclusive_positive_witness :
  Scenario.twoKeywords !! "ArmorHelmet" = Some Scenario.ArmorHelmet ∧
  type Scenario.ArmorHelmet = Inclusive ∧
  answerOf Choice_Yes = Some Yes ∧
  (Yes = Yes ∨ Yes = MaybeYes) ∧
  ∃ w', learn Scenario.twoKeywords "Robe" ["h3"]
          (relevantHashes Scenario.twoKeywords (armature Scenario.robe) ["h3"])
          (relevantAnswers false Scenario.twoKeywords ∅
             (armature Scenario.robe) ["h3"])
          ("ArmorHelmet", Choice_Yes) Scenario.nothing = (Returned, w') ∧
        addedKeywords w' = [] ∧
        remembered (taggednifs w') "h3" "ArmorHelmet" = Some Yes.
Proof.
  assert (H1 : Scenario.twoKeywords !! "ArmorHelmet" =
                 Some Scenario.ArmorHelmet) by reflexivity.
  assert (H2 : type Scenario.ArmorHelmet = Inclusive) by reflexivity.
  assert (H3 : answerOf Choice_Yes = Some Yes) by reflexivity.
  assert (H4 : Yes = Yes ∨ Yes = MaybeYes) by (left; reflexivity).
  split_and!; [exact H1 | exact H2 | exact H3 | exact H4 |].
  destruct (learn_Inclusive_positive false Scenario.twoKeywords "Robe"
              (armature Scenario.robe) ["h3"] ∅ "ArmorHelmet"
              Scenario.ArmorHelmet Choice_Yes Yes Scenario.nothing
              H1 H2 H3 H4)
    as (w' & Hw' & Hadd & _ & Hone & _).
  exists w'. split; [exact Hw'|]. split; [exact Hadd|].
  destruct (Hone "h3") as (_ & Hh3 & _); [vm_compute; reflexivity|].
  exact Hh3.
Defined.

(** Two hoods with one model: the hash of the model is twice in the list
    of ambiguous hashes, and a [Yes] for the helmet keyword is stored
    under no hash. *)
Example learn_Inclusive_positive_shared_hash :
  ambiguous false Scenario.twoKeywords ∅ (armature Scenario.hoods)
    ["h3"; "h3"] "ArmorHelmet" No = ["h3"; "h3"] ∧
  learn Scenario.twoKeywords "Hoods" ["h3"; "h3"]
    (relevantHashes Scenario.twoKeywords (armature Scenario.hoods)
       ["h3"; "h3"])
    (relevantAnswers false Scenario.twoKeywords ∅
       (armature Scenario.hoods) ["h3"; "h3"])
    ("ArmorHelmet", Choice_Yes) Scenario.nothing =
  (Returned, Scenario.nothing).
Proof. split; vm_compute; reflexivity. Qed.

Lemma learn_Inclusive_negative_witness :
  Scenario.twoKeywords !! "ArmorHelmet" = Some Scenario.ArmorHelmet ∧
  type Scenario.ArmorHelmet = Inclusive ∧
  answerOf Choice_MaybeNo = Some MaybeNo ∧
  (MaybeNo = No ∨ MaybeNo = MaybeNo) ∧
  ∃ w', learn Scenario.twoKeywords "Robe" ["h3"] (λ _, []) (λ _, [])
          ("ArmorHelmet", Choice_MaybeNo) Scenario.nothing = (Returned, w') ∧
        addedKeywords w' = [] ∧
        remembered (taggednifs w') "h3" "ArmorHelmet" = Some MaybeNo.
Proof.
  assert (H1 : Scenario.twoKeywords !! "ArmorHelmet" =
                 Some Scenario.ArmorHelmet) by reflexivity.
  assert (H2 : type Scenario.ArmorHelmet = Inclusive) by reflexivity.
  assert (H3 : answerOf Choice_MaybeNo = Some MaybeNo) by reflexivity.
  assert (H4 : MaybeNo = No ∨ MaybeNo = MaybeNo) by (right; reflexivity).
  split_and!; [exact H1 | exact H2 | exact H3 | exact H4 |].
  destruct (learn_Inclusive_negative Scenario.twoKeywords "Robe" ["h3"]
              (λ _, []) (λ _, []) "ArmorHelmet" Scenario.ArmorHelmet
              Choice_MaybeNo MaybeNo Scenario.nothing H1 H2 H3 H4)
    as (w' & Hw' & Hadd & _ & _ & Hall & _).
  exists w'. split; [exact Hw'|]. split; [exact Hadd|].
  apply Hall. by_computation.
Defined.

Lemma Exclusive_learned_verdict_witness :
  knownKeywords !! "SOS_Revealing" = Some SOS_Revealing ∧
  type SOS_Revealing = Exclusive ∧
  verdictOf false knownKeywords
    (addAnswer_all "SOS_Revealing" MaybeYes ["h1"; "h2"] ∅)
    (armature Scenario.outfit) ["h1"; "h2"] "SOS_Revealing" = Apply ∧
  verdictOf true knownKeywords
    (addAnswer_all "SOS_Revealing" MaybeYes ["h1"; "h2"] ∅)
    (armature Scenario.outfit) ["h1"; "h2"] "SOS_Revealing" = Ask.
Proof.
  assert (H1 : knownKeywords !! "SOS_Revealing" = Some SOS_Revealing)
    by reflexivity.
  assert (H2 : type SOS_Revealing = Exclusive) by reflexivity.
  split; [exact H1|]. split; [exact H2|]. split.
  - apply (proj1 (Exclusive_learned_verdict false knownKeywords ∅
                    (armature Scenario.outfit) ["h1"; "h2"] "SOS_Revealing"
                    SOS_Revealing MaybeYes H1 H2)).
    reflexivity.
  - apply (proj1 (proj2 (Exclusive_learned_verdict true knownKeywords ∅
                           (armature Scenario.outfit) ["h1"; "h2"]
                           "SOS_Revealing" SOS_Revealing MaybeYes H1 H2))).
    + reflexivity.
    + vm_compute. discriminate.
Defined.

Lemma Inclusive_learned_verdict_witness :
  Scenario.twoKeywords !! "ArmorHelmet" = Some Scenario.ArmorHelmet ∧
  type Scenario.ArmorHelmet = Inclusive ∧
  verdictOf false Scenario.twoKeywords
    (addAnswer_all "ArmorHelmet" No ["h3"] ∅)
    (armature Scenario.robe) ["h3"] "ArmorHelmet" = Skip.
Proof.
  assert (H1 : Scenario.twoKeywords !! "ArmorHelmet" =
                 Some Scenario.ArmorHelmet) by reflexivity.
  assert (H2 : type Scenario.ArmorHelmet = Inclusive) by reflexivity.
  split; [exact H1|]. split; [exact H2|].
  apply (proj1 (Inclusive_learned_verdict false Scenario.twoKeywords ∅
                  (armature Scenario.robe) ["h3"] "ArmorHelmet"
                  Scenario.ArmorHelmet No H1 H2)).
  reflexivity.
Defined.

Lemma redoMaybes_only_asks_more_witness :
  verdictOf true knownKeywords Scenario.h1Yes [Scenario.partA] ["h1"]
    "SOS_Revealing" ≠ Ask ∧
  verdictOf false knownKeywords Scenario.h1Yes [Scenario.partA] ["h1"]
    "SOS_Revealing" =
  verdictOf true knownKeywords Scenario.h1Yes [Scenario.partA] ["h1"]
    "SOS_Revealing".
Proof.
  assert (Hdecided : verdictOf true knownKeywords Scenario.h1Yes
                       [Scenario.partA] ["h1"] "SOS_Revealing" ≠ Ask)
    by (vm_compute; discriminate).
  split; [exact Hdecided|].
  exact (redoMaybes_only_asks_more knownKeywords Scenario.h1Yes
           [Scenario.partA] ["h1"] "SOS_Revealing" Hdecided).
Defined.

Lemma names_not_repeated_witness :
  (∀ h, NoDup (storedNames (taggednifs Scenario.knowsA) h)) ∧
  (∀ h, NoDup (storedNames (memoryFile Scenario.knowsA) h)) ∧
  (∀ h, NoDup (storedNames Scenario.importedStore h)) ∧
  ∀ h, NoDup (storedNames
                (taggednifs
                   (patch false knownKeywords Scenario.readable
                      (Scenario.always Choice_No)
                      Scenario.closes Scenario.outfit
                      ["SOS_Revealing"] Scenario.knowsA).2) h).
Proof.
  assert (Ht : ∀ h, NoDup (storedNames (taggednifs Scenario.knowsA) h)).
  { apply NoDup_storedNames_map_Forall. by_computation. }
  assert (Hf : ∀ h, NoDup (storedNames (memoryFile Scenario.knowsA) h)).
  { apply NoDup_storedNames_map_Forall. by_computation. }
  assert (Hnew : ∀ h, NoDup (storedNames Scenario.importedStore h)).
  { apply NoDup_storedNames_map_Forall. by_computation. }
  split; [exact Ht|]. split; [exact Hf|]. split; [exact Hnew|].
  exact (proj1 (names_not_repeated false knownKeywords Scenario.readable
                  (Scenario.always Choice_No) Scenario.closes Scenario.outfit
                  ["SOS_Revealing"] Scenario.knowsA Scenario.importedStore
                  Ht Hf Hnew)).
Defined.

Lemma filter_then_patch_witness :
  (∀ key info, knownKeywords !! key = Some info → id info = key) ∧
  filterRecord knownKeywords ["SOS_Revealing"] Sample.robe ∅ =
    (Keep true,
     (filterRecord knownKeywords ["SOS_Revealing"] Sample.robe ∅).2) ∧
  let r := patchRecord false knownKeywords Scenario.readable
             (Scenario.always Choice_Yes) Scenario.closes Sample.robe
             (Scenario.nothing,
              (filterRecord knownKeywords ["SOS_Revealing"] Sample.robe ∅).2)
  in
  (r.1 = Returned ∨ r.1 = Thrown CancelledByUser ∨
   r.1 = Thrown ViewerError) ∧
  r.2.2 = delete "Robe" ∅.
Proof.
  assert (Hid : ∀ key info, knownKeywords !! key = Some info → id info = key).
  { intros key info Hinfo. unfold knownKeywords in Hinfo.
    apply lookup_singleton_Some in Hinfo. destruct Hinfo as [<- <-].
    reflexivity. }
  assert (Hkeep : filterRecord knownKeywords ["SOS_Revealing"] Sample.robe ∅ =
            (Keep true,
             (filterRecord knownKeywords ["SOS_Revealing"] Sample.robe ∅).2)).
  { rewrite (surjective_pairing (filterRecord _ _ _ _)) at 1. f_equal. }
  split; [exact Hid|]. split; [exact Hkeep|].
  destruct (filter_then_patch false knownKeywords Scenario.readable
              (Scenario.always Choice_Yes) Scenario.closes
              ["SOS_Revealing"] Sample.robe
              ∅ _ Scenario.nothing Hid Hkeep) as (Hends & Hrest & _).
  split; [exact Hends | exact Hrest].
Defined.

(** ** A keyword is added at most once *)

Lemma learn_sublist (keywordTable : gmap string KeywordInfo) (armo : string)
    (hashes : list string) (relHashes : string → list string)
    (relAnswers : string → list Answered) (qs : list (string * Choice))
    (w : World) :
  ∃ l, addedKeywords
         (forEach (learn keywordTable armo hashes relHashes relAnswers)
            qs w).2 = addedKeywords w ++ ((λ k, (armo, k)) <$> l) ∧
       sublist l qs.*1.
Proof.
  revert w. induction qs as [|[k choice] qs IH]; intros w.
  - exists []. simpl. by rewrite app_nil_r.
  - rewrite forEach_cons.
    assert (Hstep : ∃ l1,
              addedKeywords
                (learn keywordTable armo hashes relHashes relAnswers
                   (k, choice) w).2 =
                addedKeywords w ++ ((λ k, (armo, k)) <$> l1) ∧
              (l1 = [] ∨ l1 = [k])).
    { unfold learn, keywordsAt. destruct (keywordTable !! k) as [info|].
      2:{ exists []. case_decide; simpl; rewrite app_nil_r; auto. }
      destruct (type info), choice; simpl;
        try (exists []; simpl; rewrite app_nil_r; by auto);
        exists [k]; auto. }
    destruct Hstep as (l1 & Hadd1 & Hl1).
    destruct (learn _ _ _ _ _ (k, choice) w) as [[|e] w1]; simpl in *.
    + destruct (IH w1) as (l & Hadd & Hsub). exists (l1 ++ l). split.
      * rewrite Hadd, Hadd1, fmap_app. by rewrite <- app_assoc.
      * destruct Hl1 as [-> | ->]; simpl.
        -- by apply sublist_cons.
        -- by apply sublist_skip.
    + exists l1. split; [done|].
      destruct Hl1 as [-> | ->]; [apply sublist_nil_l|].
      apply sublist_skip, sublist_nil_l.
Qed.

(** X12: in one run of [patch] a keyword is added to the record at most
    once when the list left by the filter names it once: what [patch]
    appends to the keywords added so far is a list of keywords of that
    list without repetition, all for the record at hand. *)
Theorem patch_adds_once (redoMaybes : bool)
    (keywordTable : gmap string KeywordInfo) (sha1 : string → option string)
    (showMessageBox : nat → string → Choice)
    (viewer : list string → Settled) (armo : Armo)
    (keywordsToPatch : list string) (w : World)
    (Hnodup : NoDup keywordsToPatch) :
  ∃ l,
    addedKeywords (patch redoMaybes keywordTable sha1 showMessageBox viewer armo
                     keywordsToPatch w).2 =
      addedKeywords w ++ ((λ k, (editorid armo, k)) <$> l) ∧
    NoDup l ∧
    ∀ k, k ∈ l → k ∈ keywordsToPatch.
Proof.
  assert (Hnone : ∀ w0 : World, addedKeywords w0 = addedKeywords w →
            ∃ l, addedKeywords w0 =
                   addedKeywords w ++ ((λ k, (editorid armo, k)) <$> l) ∧
                 NoDup l ∧ ∀ k, k ∈ l → k ∈ keywordsToPatch).
  { intros w0 Hw0. exists []. simpl. rewrite app_nil_r.
    split_and!; [done|constructor|]. by intros ? ?%elem_of_nil. }
  unfold patch.
  case_bool_decide; [by apply Hnone|].
  destruct (Promise_map sha1 _) as [hs|]; [|by apply Hnone].
  unfold decideAndLearn, automaticPhase.
  remember (recordNames armo hs (logMessage (Checking (editorid armo)) w))
    as w1 eqn:Hw1.
  assert (Hw1a : addedKeywords w1 = addedKeywords w) by (by subst w1).
  clear Hw1.
  pose proof (relevancePass_frame keywordTable (armature armo) hs
                keywordsToPatch w1) as (_ & _ & Hrel).
  destruct (forEach (relevancePass _ _ _) _ w1) as [[|e] w1']; simpl in *.
  2:{ apply Hnone. by rewrite Hrel. }
  pose proof (automatic_sublists keywordTable (editorid armo)
                (relevantAnswers redoMaybes keywordTable (taggednifs w1)
                   (armature armo) hs) keywordsToPatch (w1', []))
    as (la & lk & Hadd & Hask & Hsa & Hsk & Hva & Hvk).
  simpl in *. rewrite Hrel, Hw1a in Hadd.
  assert (Hla : NoDup la ∧ ∀ k, k ∈ la → k ∈ keywordsToPatch).
  { split; [by eapply sublist_NoDup|].
    intros k Hk. by apply (sublist_elem_of la). }
  destruct Hla as [Hla_nd Hla_in].
  destruct (forEach (automatic _ _ _) _ (w1', [])) as [[|e] [w2 ask]];
    simpl in *.
  2:{ exists la. by split_and!. }
  subst ask. unfold askAndLearn.
  case_bool_decide; [exists la; by split_and!|].
  destruct (learn_sublist keywordTable (editorid armo) hs
              (relevantHashes keywordTable (armature armo) hs)
              (relevantAnswers redoMaybes keywordTable (taggednifs w1)
                 (armature armo) hs)
              (questions showMessageBox lk) w2) as (l & Hl & Hsub).
  assert (Hfst : (questions showMessageBox lk).*1 = lk).
  { unfold questions. apply fst_zip. by rewrite length_imap. }
  rewrite Hfst in Hsub.
  assert (Hfinal : ∃ l0,
            addedKeywords
              (forEach
                 (learn keywordTable (editorid armo) hs
                    (relevantHashes keywordTable (armature armo) hs)
                    (relevantAnswers redoMaybes keywordTable (taggednifs w1)
                       (armature armo) hs))
                 (questions showMessageBox lk) w2).2 =
              addedKeywords w ++ ((λ k, (editorid armo, k)) <$> l0) ∧
            NoDup l0 ∧ ∀ k, k ∈ l0 → k ∈ keywordsToPatch).
  { exists (la ++ l). split_and!.
    - rewrite Hl, Hadd, fmap_app. by rewrite <- app_assoc.
    - apply NoDup_app. split_and!.
      + done.
      + intros k Hka Hkl. apply Hva in Hka.
        assert (Hkk : k ∈ lk) by (by apply (sublist_elem_of l)).
        apply Hvk in Hkk. congruence.
      + apply (sublist_NoDup l lk); [|done].
        by apply (sublist_NoDup lk keywordsToPatch).
    - intros k Hk. apply elem_of_app in Hk. destruct Hk as [?|Hk]; [auto|].
      apply (sublist_elem_of lk); [done|].
      by apply (sublist_elem_of l). }
  destruct (forEach (learn _ _ _ _ _) (questions showMessageBox lk) w2)
    as [[|e] w3]; simpl in *; done.
Qed.

Lemma patch_adds_once_witness :
  NoDup ["SOS_Revealing"] ∧
  ∃ l, addedKeywords
         (patch false knownKeywords Scenario.readable
            (Scenario.always Choice_Yes)
            Scenario.closes Scenario.outfit ["SOS_Revealing"]
            Scenario.nothing).2 = (λ k, ("Outfit", k)) <$> l ∧
       NoDup l.
Proof.
  assert (Hnodup : NoDup ["SOS_Revealing"]) by by_computation.
  split; [exact Hnodup|].
  destruct (patch_adds_once false knownKeywords Scenario.readable
              (Scenario.always Choice_Yes)
              Scenario.closes Scenario.outfit ["SOS_Revealing"]
              Scenario.nothing Hnodup) as (l & Hl & Hnd & _).
  exists l. split; [exact Hl | exact Hnd].
Defined.

(** ** More edges of the filter and of [patch] *)

(** X3: the filter accepts every record that passes all its tests: when
    all configured keywords are in the table, the record has an
    [Armature] element with an ARMA of the default race and a body
    template, and some configured keyword is ruled out by no configured
    keyword description, the filter returns [true]. *)
Theorem filterRecord_accepts_if (keywordTable : gmap string KeywordInfo)
    (settingsKeywords : list string) (record : ArmoRecord)
    (d : gmap string (list string)) (flags : list BodySlot) (k : string)
    (Hknown : ∀ key, key ∈ settingsKeywords → is_Some (keywordTable !! key))
    (Harmature : record_hasArmature record = true)
    (Hrace : ∃ el, el ∈ record_Armature record ∧ el.1 = true)
    (Hbody : getBodyTemplate record = Some flags)
    (Hk : k ∈ settingsKeywords)
    (Hfree : ∀ key info,
       key ∈ settingsKeywords → keywordTable !! key = Some info →
       id info = k →
       (id info ∉ record_keywords record) ∧
       (∀ flag, flag ∈ flags → flag ∉ skipSlots info) ∧
       (∃ flag, flag ∈ flags ∧ flag ∈ relevantSlots info)) :
  (filterRecord keywordTable settingsKeywords record d).1 = Keep true.
Proof.
  rewrite filterRecord_described by done. cbv zeta.
  set (infos := localsKeywords keywordTable settingsKeywords).
  assert (Hrem : removed (alreadyHas record) infos k = false ∧
                 removed (hasSkipSlot flags) infos k = false ∧
                 removed (lacksRelevantSlot flags) infos k = false).
  { rewrite !removed_false.
    split_and!; intros info Hsome Hid;
      apply Described_in_localsKeywords in Hsome;
      destruct Hsome as (key & Hkey & Hinfo);
      destruct (Hfree key info Hkey Hinfo Hid) as (Ha & Hs & Hr).
    - by apply alreadyHas_false.
    - by apply hasSkipSlot_false.
    - by apply lacksRelevantSlot_false. }
  destruct Hrem as (H1 & H2 & H3).
  assert (Hne : ∀ l : list string, k ∈ l → length l ≠ 0).
  { intros l Hin Hlen. apply nil_length_inv in Hlen. subst l.
    by apply elem_of_nil in Hin. }
  set (l1 := filter (λ k0, removed (alreadyHas record) infos k0 = false)
               settingsKeywords).
  assert (Hl1 : k ∈ l1) by (by apply list_elem_of_filter).
  rewrite bool_decide_eq_false_2 by (by apply Hne).
  rewrite Harmature. simpl.
  assert (Hsome : some (λ el : bool * Arma, el.1) (record_Armature record)
                  = true).
  { destruct Hrace as (el & Hel & Htrue). unfold some.
    apply existsb_exists. exists el. split; [by apply list_elem_of_In|done]. }
  rewrite Hsome. simpl. rewrite Hbody.
  set (l2 := filter (λ k0, removed (hasSkipSlot flags) infos k0 = false) l1).
  assert (Hl2 : k ∈ l2) by (by apply list_elem_of_filter).
  rewrite bool_decide_eq_false_2 by (by apply Hne).
  rewrite bool_decide_eq_false_2; [done|].
  apply Hne. by apply list_elem_of_filter.
Qed.

Lemma filterRecord_accepts_if_witness :
  (∀ key, key ∈ ["SOS_Revealing"] → is_Some (knownKeywords !! key)) ∧
  record_hasArmature Sample.robe = true ∧
  getBodyTemplate Sample.robe = Some [BodySlot.Body; BodySlot.Head] ∧
  (filterRecord knownKeywords ["SOS_Revealing"] Sample.robe ∅).1 = Keep true.
Proof.
  split; [exact known_SOS_Revealing|]. split; [reflexivity|].
  split; [reflexivity|].
  apply (filterRecord_accepts_if knownKeywords ["SOS_Revealing"] Sample.robe
           ∅ [BodySlot.Body; BodySlot.Head] "SOS_Revealing").
  - exact known_SOS_Revealing.
  - reflexivity.
  - exists (true, Scenario.hood). split; [|reflexivity].
    right. left.
  - reflexivity.
  - by_computation.
  - intros key info Hkey Hinfo _.
    apply list_elem_of_singleton in Hkey. subst key.
    assert (Hi : Some info = Some SOS_Revealing)
      by (rewrite <- Hinfo; reflexivity).
    injection Hi as ->. split_and!.
    + by_computation.
    + apply hasSkipSlot_false. reflexivity.
    + exists BodySlot.Body. split; by_computation.
Defined.

Lemma nifs_of_nil (armas : list Arma) :
  (∀ arma, arma ∈ armas → arma_model arma = "") → nifs_of armas = [].
Proof.
  unfold nifs_of. induction armas as [|arma armas IH]; intros Hall; [done|].
  rewrite fmap_cons, filter_cons_False.
  - apply IH. intros a Ha. apply Hall. by right.
  - intros Hne. apply Hne. apply Hall. by left.
Qed.

(** X10: a record none of whose ARMAs of the default race has a model
    path (a record without such ARMAs in particular) is left alone:
    [patch] logs that it checks the record and returns; it hashes nothing,
    asks nothing, throws nothing even for an unknown keyword, and changes
    neither the memories nor the file nor the record. *)
Theorem patch_no_nifs (redoMaybes : bool)
    (keywordTable : gmap string KeywordInfo) (sha1 : string → option string)
    (showMessageBox : nat → string → Choice)
    (viewer : list string → Settled) (armo : Armo)
    (keywordsToPatch : list string) (w : World)
    (Hempty : ∀ arma, arma ∈ armature armo → arma_model arma = "") :
  patch redoMaybes keywordTable sha1 showMessageBox viewer armo
    keywordsToPatch w =
    (Returned, logMessage (Checking (editorid armo)) w) ∧
  keywordsToAsk redoMaybes keywordTable sha1 armo keywordsToPatch w = [].
Proof.
  unfold patch, keywordsToAsk. rewrite (nifs_of_nil _ Hempty). done.
Qed.

Lemma patch_no_nifs_witness :
  (∀ arma, arma ∈ armature (mkArmo "Bare" [mkArma "BareAA" "" ["32 - Body"]]) →
           arma_model arma = "") ∧
  patch false knownKeywords Scenario.readable
    (Scenario.always Choice_Yes) Scenario.closes
    (mkArmo "Bare" [mkArma "BareAA" "" ["32 - Body"]]) ["Unknown"]
    Scenario.nothing =
  (Returned, logMessage (Checking "Bare") Scenario.nothing).
Proof.
  assert (Hempty : ∀ arma,
            arma ∈ armature (mkArmo "Bare" [mkArma "BareAA" "" ["32 - Body"]]) →
            arma_model arma = "").
  { intros arma Hin. simpl in Hin. apply list_elem_of_singleton in Hin.
    by subst arma. }
  split; [exact Hempty|].
  exact (proj1 (patch_no_nifs false knownKeywords Scenario.readable
                  (Scenario.always Choice_Yes) Scenario.closes _ ["Unknown"]
                  Scenario.nothing Hempty)).
Defined.
